(** * pathrules: a shallow embedding of the gitignore-like rule engine

    The development follows the Go sources file by file:
    - Go string primitives used by the package ([strings], [path]);
    - [path.go]: candidate and pattern normalisation, ASCII folding;
    - the rule parser ([ParseRules], [trimTrailingSpaces]);
    - [pattern.go]: the rule compiler and the per-strategy matchers;
    - the matcher ([NewMatcher], [Matcher.Decide]);
    - [provider.go]: the hierarchical provider with its directory cache.

    Go strings are byte sequences and are modelled as [list ascii].
    Indices and lengths are [nat]; the reported rule index, which can be
    [-1], is a [Z].  Fallible functions return a sum with the error on the
    left. *)

From Stdlib Require Import List Ascii String ZArith Lia Bool Arith.
From stdpp Require Import base gmap list strings.
Import ListNotations.

Set Default Proof Using "Type".

Abbreviation str := (list ascii).

(** String literals of the Go source are written [$"..."]. *)
Notation "$ s" := (list_ascii_of_string s%string)
  (at level 9, s at level 0, only parsing).

(** ** Go's [strings] package, as far as the package uses it *)

Module Strings.

Fixpoint HasPrefix (s prefix : str) {struct prefix} : bool :=
  match prefix, s with
  | [], _ => true
  | p :: ps, c :: cs => Ascii.eqb c p && HasPrefix cs ps
  | _ :: _, [] => false
  end.

Definition HasSuffix (s suffix : str) : bool :=
  (length suffix <=? length s)
  && bool_decide (drop (length s - length suffix) s = suffix).

Definition TrimPrefix (s prefix : str) : str :=
  if HasPrefix s prefix then drop (length prefix) s else s.

Definition TrimSuffix (s suffix : str) : str :=
  if HasSuffix s suffix then take (length s - length suffix) s else s.

Definition CutPrefix (s prefix : str) : str * bool :=
  if HasPrefix s prefix then (drop (length prefix) s, true) else (s, false).

Definition CutSuffix (s suffix : str) : str * bool :=
  if HasSuffix s suffix then (take (length s - length suffix) s, true)
  else (s, false).

(** [strings.Index]: position of the first occurrence, [None] for Go's -1. *)
Fixpoint Index (s substr : str) : option nat :=
  if HasPrefix s substr then Some 0
  else match s with
       | [] => None
       | _ :: t => S <$> Index t substr
       end.

Definition Contains (s substr : str) : bool :=
  match Index s substr with Some _ => true | None => false end.

Fixpoint IndexByte (s : str) (c : ascii) : option nat :=
  match s with
  | [] => None
  | x :: t => if Ascii.eqb x c then Some 0 else S <$> IndexByte t c
  end.

Fixpoint LastIndexByte (s : str) (c : ascii) : option nat :=
  match s with
  | [] => None
  | x :: t =>
      match LastIndexByte t c with
      | Some i => Some (S i)
      | None => if Ascii.eqb x c then Some 0 else None
      end
  end.

Definition ContainsAny (s chars : str) : bool :=
  existsb (fun c => existsb (Ascii.eqb c) chars) s.

(** [strings.ReplaceAll] for a non-empty [old]: occurrences are replaced
    left to right without overlap. *)
Fixpoint replaceAll_loop (fuel : nat) (s old new : str) : str :=
  match fuel with
  | 0 => s
  | S fuel' =>
      match s with
      | [] => []
      | c :: t =>
          if HasPrefix s old
          then new ++ replaceAll_loop fuel' (drop (length old) s) old new
          else c :: replaceAll_loop fuel' t old new
      end
  end.

Definition ReplaceAll (s old new : str) : str :=
  replaceAll_loop (length s) s old new.

(** [strings.TrimLeft], [TrimRight] and [Trim] with a cutset of bytes. *)
Definition inCutset (cutset : str) (c : ascii) : bool :=
  existsb (Ascii.eqb c) cutset.

Fixpoint TrimLeft (s cutset : str) : str :=
  match s with
  | [] => []
  | c :: t => if inCutset cutset c then TrimLeft t cutset else s
  end.

Definition TrimRight (s cutset : str) : str :=
  rev (TrimLeft (rev s) cutset).

Definition Trim (s cutset : str) : str :=
  TrimRight (TrimLeft s cutset) cutset.

(** [strings.TrimSpace] removes the white-space runes of [unicode.IsSpace]
    from both ends.  On a byte string these are the UTF-8 encodings below:
    the six ASCII blanks, U+0085, U+00A0, U+1680, U+2000..U+200A, U+2028,
    U+2029, U+202F, U+205F and U+3000. *)
Definition B (n : nat) : ascii := ascii_of_nat n.

Definition spaceRunes : list str :=
  [ [B 9]; [B 10]; [B 11]; [B 12]; [B 13]; [B 32];
    [B 194; B 133]; [B 194; B 160];
    [B 225; B 154; B 128];
    [B 226; B 128; B 128]; [B 226; B 128; B 129]; [B 226; B 128; B 130];
    [B 226; B 128; B 131]; [B 226; B 128; B 132]; [B 226; B 128; B 133];
    [B 226; B 128; B 134]; [B 226; B 128; B 135]; [B 226; B 128; B 136];
    [B 226; B 128; B 137]; [B 226; B 128; B 138];
    [B 226; B 128; B 168]; [B 226; B 128; B 169]; [B 226; B 128; B 175];
    [B 226; B 129; B 159];
    [B 227; B 128; B 128] ].

(** Length of the white-space rune [s] starts with, if any. *)
Definition leadingSpace (s : str) : option nat :=
  length <$> find (HasPrefix s) spaceRunes.

(** Length of the white-space rune [s] ends with, if any. *)
Definition trailingSpace (s : str) : option nat :=
  length <$> find (HasSuffix s) spaceRunes.

Fixpoint trimLeftSpace (fuel : nat) (s : str) : str :=
  match fuel with
  | 0 => s
  | S fuel' =>
      match leadingSpace s with
      | Some n => trimLeftSpace fuel' (drop n s)
      | None => s
      end
  end.

Fixpoint trimRightSpace (fuel : nat) (s : str) : str :=
  match fuel with
  | 0 => s
  | S fuel' =>
      match trailingSpace s with
      | Some n => trimRightSpace fuel' (take (length s - n) s)
      | None => s
      end
  end.

Definition TrimSpace (s : str) : str :=
  let s := trimLeftSpace (length s) s in
  trimRightSpace (length s) s.

(** [strings.Split(s, "/")]: the slash-separated elements, never empty. *)
Fixpoint splitSlash (s : str) : list str :=
  match s with
  | [] => [[]]
  | c :: t =>
      if Ascii.eqb c "/" then [] :: splitSlash t
      else match splitSlash t with
           | e :: es => (c :: e) :: es
           | [] => [[c]]
           end
  end.

(** [strings.Join(elems, "/")]. *)
Fixpoint joinSlash (elems : list str) : str :=
  match elems with
  | [] => []
  | [e] => e
  | e :: es => e ++ "/"%char :: joinSlash es
  end.

End Strings.
Import Strings.

(** ** Go's [path.Clean]

    The standard library function, modelled on the path elements: empty
    and [.] elements are dropped, a [..] element removes the element
    before it (at the root it is dropped, in a relative path a leading
    run of [..] is kept), and the result is joined with single slashes.
    An empty result is [.]. *)

Module Path.

Fixpoint cleanElems (rooted : bool) (elems : list str) (out : list str)
  : list str :=
  match elems with
  | [] => rev out
  | e :: es =>
      if bool_decide (e = []) || bool_decide (e = $".") then
        cleanElems rooted es out
      else if bool_decide (e = $"..") then
        match out with
        | top :: below =>
            if bool_decide (top = $"..")
            then cleanElems rooted es (e :: out)
            else cleanElems rooted es below
        | [] =>
            if rooted then cleanElems rooted es out
            else cleanElems rooted es (e :: out)
        end
      else cleanElems rooted es (e :: out)
  end.

Definition Clean (path : str) : str :=
  match path with
  | [] => $"."
  | c :: _ =>
      let rooted := Ascii.eqb c "/" in
      let out := joinSlash (cleanElems rooted (splitSlash path) []) in
      if rooted then "/"%char :: out
      else if bool_decide (out = []) then $"." else out
  end.

End Path.

(** ** path.go *)

(** [isSimpleNormalizedPath] reports whether path is already normalized
    enough to skip [path.Clean]. *)
Definition isSimpleNormalizedPath (path : str) : bool :=
  if bool_decide (path = [])
     || bool_decide (path = $".")
     || bool_decide (path = $"..")
     || HasPrefix path $"/"
     || HasSuffix path $"/"
     || HasPrefix path $"./"
     || HasPrefix path $"../"
     || Contains path $"//"
     || Contains path $"/./"
     || Contains path $"/../"
     || HasSuffix path $"/.."
  then false
  else true.

(** [normalizePath] normalizes matching path to slash-separated relative
    clean form. *)
Definition normalizePath (raw : str) : str :=
  let raw := TrimSpace raw in
  let raw := if Contains raw $"\" then ReplaceAll raw $"\" $"/" else raw in
  let raw := TrimPrefix raw $"./" in
  let raw := TrimPrefix raw $"/" in
  if bool_decide (raw = []) then []
  else if isSimpleNormalizedPath raw then raw
  else
    let raw := Path.Clean ($"/" ++ raw) in
    let raw := TrimPrefix raw $"/" in
    if bool_decide (raw = $".") then []
    else TrimSuffix raw $"/".

(** [normalizePattern] normalizes source pattern for compilation. *)
Definition normalizePattern (raw : str) : str :=
  let raw := TrimSpace raw in
  ReplaceAll raw $"\" $"/".

Definition isUpper (c : ascii) : bool :=
  (nat_of_ascii "A" <=? nat_of_ascii c) && (nat_of_ascii c <=? nat_of_ascii "Z").

(** [b[j] += 'a' - 'A'] on a byte in [A-Z]. *)
Definition lowerByte (c : ascii) : ascii :=
  if isUpper c
  then ascii_of_nat (nat_of_ascii c + (nat_of_ascii "a" - nat_of_ascii "A"))
  else c.

(** [asciiLower] converts only ASCII A-Z to a-z and leaves all other bytes
    unchanged: the outer loop looks for the first upper-case byte, the
    inner loop lowers from that position on. *)
Fixpoint asciiLower (s : str) : str :=
  match s with
  | [] => []
  | c :: t => if isUpper c then map lowerByte s else c :: asciiLower t
  end.

(** ** model.go and the error sentinels *)

(** [Action] is a [uint8]; only the two named values are valid. *)
Definition Action := N.
Definition ActionUnknown : Action := 0%N.
Definition ActionExclude : Action := 1%N.
Definition ActionInclude : Action := 2%N.

Definition Action_valid (a : Action) : bool :=
  N.eqb a ActionExclude || N.eqb a ActionInclude.

Record Rule := mkRule { Pattern : str; RAction : Action }.

Record MatcherOptions := mkMatcherOptions {
  CaseInsensitive : bool;
  DefaultAction : Action
}.

Record MatchResult := mkMatchResult {
  Included : bool;
  Matched : bool;
  RuleIndex : Z
}.

(** The zero value [MatchResult{}] returned next to an error. *)
Definition zeroMatchResult : MatchResult := mkMatchResult false false 0.

Definition applyDefaults (opts : MatcherOptions) : MatcherOptions :=
  if Action_valid (DefaultAction opts) then opts
  else mkMatcherOptions (CaseInsensitive opts) ActionInclude.

(** Errors are identified by the sentinel they wrap ([errors.Is]); the
    formatted context is not modelled.  [ErrTooLong] is the scanner's and
    [ErrIO] stands for any other failure reported by the operating
    system. *)
Inductive error :=
  | ErrInvalidRule
  | ErrInvalidPattern
  | ErrInvalidRulesFileName
  | ErrInvalidEntryName
  | ErrNilProvider
  | ErrPathOutsideRoot
  | ErrRulesPathOutsideRoot
  | ErrTooLong
  | ErrIO.

#[global] Instance error_eq_dec : EqDecision error.
Proof. solve_decision. Defined.
#[global] Instance Rule_eq_dec : EqDecision Rule.
Proof. solve_decision. Defined.
#[global] Instance MatchResult_eq_dec : EqDecision MatchResult.
Proof. solve_decision. Defined.

(** ** The rule parser *)

Definition isBlank (c : ascii) : bool :=
  Ascii.eqb c " " || Ascii.eqb c (B 9).

(** [trimTrailingSpaces] removes trailing spaces unless escaped by "\". *)
Fixpoint trimTrailingSpaces_loop (fuel : nat) (s : str) : str :=
  match fuel with
  | 0 => s
  | S fuel' =>
      match last s with
      | Some c =>
          if isBlank c then
            if (2 <=? length s)
               && bool_decide (s !! (length s - 2) = Some "\"%char)
            then take (length s - 2) s ++ drop (length s - 1) s
            else trimTrailingSpaces_loop fuel' (take (length s - 1) s)
          else s
      | None => s
      end
  end.

Definition trimTrailingSpaces (s : str) : str :=
  trimTrailingSpaces_loop (length s) s.

(** [bufio.ScanLines]: the input cut at each newline, without the
    newline; no token for the empty rest after the last newline.  The
    scanner drops one trailing carriage return of each token. *)
Fixpoint rawLines (s : str) : list str :=
  match s with
  | [] => []
  | c :: t =>
      if Ascii.eqb c (B 10) then [] :: rawLines t
      else match rawLines t with
           | l :: ls => (c :: l) :: ls
           | [] => [[c]]
           end
  end.

Definition dropCR (line : str) : str :=
  match last line with
  | Some c => if Ascii.eqb c (B 13) then take (length line - 1) line else line
  | None => line
  end.

(** [bufio.MaxScanTokenSize]: a line that does not fit the scanner's
    buffer ends the scan with [ErrTooLong]. *)
Definition MaxScanTokenSize : nat := 64 * 1024.

Definition tooLong (line : str) : bool := MaxScanTokenSize <=? length line.

(** The body of the scan loop of [ParseRules] for one token [text];
    [None] where the loop continues without appending a rule. *)
Definition parseLine (text : str) : option Rule :=
  let line := TrimRight text [B 13] in
  if bool_decide (line = []) then None
  else
    let line := trimTrailingSpaces line in
    if bool_decide (line = []) then None
    else if HasPrefix line $"#" then None
    else
      let line := if HasPrefix line $"\#" then drop 1 line else line in
      let '(action, line) :=
        if HasPrefix line $"!" then (ActionInclude, drop 1 line)
        else if HasPrefix line $"\!" then (ActionExclude, drop 1 line)
        else (ActionExclude, line) in
      if bool_decide (line = []) then None
      else Some (mkRule line action).

(** [ParseRules] parses gitignore-like rules from reader. *)
Definition ParseRules (src : str) : error + list Rule :=
  let lines := rawLines src in
  if existsb tooLong lines then inl ErrTooLong
  else inr (omap (fun l => parseLine (dropCR l)) lines).

Definition LF : str := [B 10].

(** ** pattern.go *)

(** [s[i:j]] and [s[i] == c]. *)
Definition slice (s : str) (i j : nat) : str := take (j - i) (drop i s).

Definition byteIs (s : str) (i : nat) (c : ascii) : bool :=
  bool_decide (s !! i = Some c).

(** [segmentPattern] is precompiled component/path segment matcher. *)
Record segmentPattern := mkSegmentPattern {
  text : str;
  wildcard : bool
}.

(** [findCharClassEnd] locates closing bracket for a glob char class. *)
Definition findCharClassEnd (pat : str) (start : nat) : option nat :=
  if (length pat <=? start) || negb (byteIs pat start "[") then None
  else
    let idx := start + 1 in
    let idx :=
      if (idx <? length pat) && (byteIs pat idx "!" || byteIs pat idx "^")
      then idx + 1 else idx in
    let idx :=
      if (idx <? length pat) && byteIs pat idx "]" then idx + 1 else idx in
    (fun k => idx + k) <$> IndexByte (drop idx pat) "]".

(** [patternHasGlobMeta] reports whether pattern contains supported glob
    meta. *)
Fixpoint patternHasGlobMeta_loop (pattern : str) (fuel i : nat) : bool :=
  match fuel with
  | 0 => false
  | S fuel' =>
      if length pattern <=? i then false
      else if byteIs pattern i "*" || byteIs pattern i "?" then true
      else if byteIs pattern i "["
              && bool_decide (is_Some (findCharClassEnd pattern i)) then true
      else patternHasGlobMeta_loop pattern fuel' (i + 1)
  end.

Definition patternHasGlobMeta (pattern : str) : bool :=
  patternHasGlobMeta_loop pattern (length pattern) 0.

(** [patternHasCharClass] reports whether pattern contains at least one
    valid "[...]" class. *)
Fixpoint patternHasCharClass_loop (pattern : str) (fuel i : nat) : bool :=
  match fuel with
  | 0 => false
  | S fuel' =>
      if length pattern <=? i then false
      else if negb (byteIs pattern i "[") then
        patternHasCharClass_loop pattern fuel' (i + 1)
      else if bool_decide (is_Some (findCharClassEnd pattern i)) then true
      else patternHasCharClass_loop pattern fuel' (i + 1)
  end.

Definition patternHasCharClass (pattern : str) : bool :=
  patternHasCharClass_loop pattern (length pattern) 0.

(** [canUseSimplePathSegments] reports whether slash pattern can use
    lightweight segment matching. *)
Definition canUseSimplePathSegments (pattern : str) : bool :=
  if bool_decide (pattern = []) then false
  else if Contains pattern $"**" then false
  else negb (patternHasCharClass pattern).

(** [newSegmentPattern] precompiles one segment pattern. *)
Definition newSegmentPattern (pattern : str) : segmentPattern :=
  mkSegmentPattern pattern (ContainsAny pattern $"*?").

(** [compilePathSegments] precompiles slash-separated path pattern
    segments. *)
Fixpoint compilePathSegments_loop (pattern : str) (fuel i start : nat)
    (segments : list segmentPattern) : list segmentPattern :=
  match fuel with
  | 0 => segments
  | S fuel' =>
      if length pattern <? i then segments
      else if negb (i =? length pattern) && negb (byteIs pattern i "/") then
        compilePathSegments_loop pattern fuel' (i + 1) start segments
      else
        compilePathSegments_loop pattern fuel' (i + 1) (i + 1)
          (segments ++ [newSegmentPattern (slice pattern start i)])
  end.

Definition compilePathSegments (pattern : str) : list segmentPattern :=
  compilePathSegments_loop pattern (length pattern + 1) 0 0 [].

(** [regexEscapeByte] escapes one byte for regexp source. *)
Definition regexEscapeByte (c : ascii) : str :=
  if inCutset $".+()|{}[]^$\" c then ["\"%char; c] else [c].

(** [appendCharClassRegex]: the end index of the class that starts at
    [start] and the text appended to the builder, if there is one. *)
Definition appendCharClassRegex (pat : str) (start : nat)
  : option (nat * str) :=
  match findCharClassEnd pat start with
  | None => None
  | Some end_ =>
      let idx := start + 1 in
      let '(idx, neg) :=
        if (idx <? end_) && byteIs pat idx "!" then (idx + 1, $"^")
        else if (idx <? end_) && byteIs pat idx "^" then (idx + 1, $"\^")
        else (idx, []) in
      let '(idx, lead) :=
        if (idx <? end_) && byteIs pat idx "]" then (idx + 1, $"]")
        else (idx, []) in
      let body :=
        flat_map (fun c => if Ascii.eqb c "\" then $"\\" else [c])
                 (slice pat idx end_) in
      Some (end_, $"[" ++ neg ++ lead ++ body ++ $"]")
  end.

(** [globToRegexComponent] converts a gitignore-like component pattern to
    regex body. *)
Fixpoint globToRegexComponent_loop (pat : str) (fuel i : nat) : str :=
  match fuel with
  | 0 => []
  | S fuel' =>
      if length pat <=? i then []
      else
        match appendCharClassRegex pat i with
        | Some (next, cls) =>
            cls ++ globToRegexComponent_loop pat fuel' (next + 1)
        | None =>
            if byteIs pat i "*" then
              let i := if (i + 1 <? length pat) && byteIs pat (i + 1) "*"
                       then i + 1 else i in
              $"[^/]*" ++ globToRegexComponent_loop pat fuel' (i + 1)
            else if byteIs pat i "?" then
              $"[^/]" ++ globToRegexComponent_loop pat fuel' (i + 1)
            else
              regexEscapeByte (nth i pat zero)
                ++ globToRegexComponent_loop pat fuel' (i + 1)
        end
  end.

Definition globToRegexComponent (pat : str) : str :=
  globToRegexComponent_loop pat (length pat) 0.

(** [globToRegexPath] converts a gitignore-like path pattern to regex
    body. *)
Fixpoint globToRegexPath_loop (pat : str) (fuel i : nat) : str :=
  match fuel with
  | 0 => []
  | S fuel' =>
      if length pat <=? i then []
      else if byteIs pat i "*" && (i + 2 <? length pat)
              && byteIs pat (i + 1) "*" && byteIs pat (i + 2) "/" then
        $"(?:.*/)?" ++ globToRegexPath_loop pat fuel' (i + 3)
      else
        match appendCharClassRegex pat i with
        | Some (next, cls) => cls ++ globToRegexPath_loop pat fuel' (next + 1)
        | None =>
            if byteIs pat i "*" then
              if (i + 1 <? length pat) && byteIs pat (i + 1) "*" then
                $".*" ++ globToRegexPath_loop pat fuel' (i + 2)
              else $"[^/]*" ++ globToRegexPath_loop pat fuel' (i + 1)
            else if byteIs pat i "?" then
              $"[^/]" ++ globToRegexPath_loop pat fuel' (i + 1)
            else
              regexEscapeByte (nth i pat zero)
                ++ globToRegexPath_loop pat fuel' (i + 1)
        end
  end.

Definition globToRegexPath (pat : str) : str :=
  globToRegexPath_loop pat (length pat) 0.

(** [matchSimpleWildcard] matches "*" and "?" wildcard pattern against one
    segment.  The state of the loop is [pIdx], [sIdx], [starPattern]
    ([None] for -1) and [starInput]; the loop runs on fuel and yields
    [None] only when the fuel is used up. *)
Definition skipStars (pattern : str) (pIdx : nat) : nat :=
  pIdx + (length (drop pIdx pattern) - length (TrimLeft (drop pIdx pattern) $"*")).

Fixpoint matchSimpleWildcard_loop (fuel : nat) (pattern input : str)
    (pIdx sIdx : nat) (starPattern : option nat) (starInput : nat)
  : option bool :=
  match fuel with
  | 0 => None
  | S fuel' =>
      if sIdx <? length input then
        if (pIdx <? length pattern)
           && (byteIs pattern pIdx "?"
               || bool_decide (pattern !! pIdx = input !! sIdx)) then
          matchSimpleWildcard_loop fuel' pattern input
            (pIdx + 1) (sIdx + 1) starPattern starInput
        else if (pIdx <? length pattern) && byteIs pattern pIdx "*" then
          matchSimpleWildcard_loop fuel' pattern input
            (pIdx + 1) sIdx (Some pIdx) sIdx
        else
          match starPattern with
          | Some sp =>
              matchSimpleWildcard_loop fuel' pattern input
                (sp + 1) (starInput + 1) starPattern (starInput + 1)
          | None => Some false
          end
      else Some (skipStars pattern pIdx =? length pattern)
  end.

Definition matchSimpleWildcard_fuel (pattern input : str) : nat :=
  length pattern * (length input + 1) * (length input + 1)
  + length input * (length input + 1) + length input + 1.

Definition matchSimpleWildcard (pattern input : str) : bool :=
  match matchSimpleWildcard_loop (matchSimpleWildcard_fuel pattern input)
          pattern input 0 0 None 0 with
  | Some b => b
  | None => false
  end.

(** [matchSegmentPattern] matches one precompiled segment pattern. *)
Definition matchSegmentPattern (pattern : segmentPattern) (segment : str)
  : bool :=
  if negb (wildcard pattern) then bool_decide (segment = text pattern)
  else matchSimpleWildcard (text pattern) segment.

(** The inner scan of [matchPathSegmentsAt]: the end of the segment that
    starts at [index]. *)
Definition segmentEnd (candidate : str) (index : nat) : nat :=
  match IndexByte (drop index candidate) "/" with
  | Some k => index + k
  | None => Nat.max index (length candidate)
  end.

(** [matchPathSegmentsAt] matches precompiled path segments starting at
    candidate boundary index; [Some end_] for [(end_, true)]. *)
Fixpoint matchPathSegmentsAt_loop (pattern : list segmentPattern)
    (candidate : str) (index : nat) : option nat :=
  match pattern with
  | [] => Some index
  | seg :: rest =>
      let end_ := segmentEnd candidate index in
      if end_ =? index then None
      else if negb (matchSegmentPattern seg (slice candidate index end_))
      then None
      else
        match rest with
        | [] => Some end_
        | _ :: _ =>
            if (length candidate <=? end_) || negb (byteIs candidate end_ "/")
            then None
            else matchPathSegmentsAt_loop rest candidate (end_ + 1)
        end
  end.

Definition matchPathSegmentsAt (pattern : list segmentPattern)
    (candidate : str) (start : nat) : option nat :=
  if length candidate <=? start then None
  else matchPathSegmentsAt_loop pattern candidate start.

(** The terminal test shared by the anchored and unanchored segment
    matchers. *)
Definition segmentsTerminal (candidate : str) (dirOnly : bool) (end_ : nat)
  : bool :=
  if dirOnly then
    (end_ =? length candidate)
    || ((end_ <? length candidate) && byteIs candidate end_ "/")
  else end_ =? length candidate.

(** [matchPathSegmentsUnanchored] matches unanchored path segments from
    any segment boundary. *)
Fixpoint matchPathSegmentsUnanchored_loop (fuel : nat)
    (pattern : list segmentPattern) (candidate : str) (dirOnly : bool)
    (start : nat) : bool :=
  match fuel with
  | 0 => false
  | S fuel' =>
      let ok :=
        match matchPathSegmentsAt pattern candidate start with
        | Some end_ => segmentsTerminal candidate dirOnly end_
        | None => false
        end in
      if ok then true
      else
        match IndexByte (drop start candidate) "/" with
        | None => false
        | Some nextSlash =>
            matchPathSegmentsUnanchored_loop fuel' pattern candidate
              dirOnly (start + nextSlash + 1)
        end
  end.

Definition matchPathSegmentsUnanchored (pattern : list segmentPattern)
    (candidate : str) (dirOnly : bool) : bool :=
  matchPathSegmentsUnanchored_loop (length candidate + 1) pattern candidate
    dirOnly 0.

(** [matchPathSegments] matches slash patterns without "**" and
    char-classes. *)
Definition matchPathSegments (pattern : list segmentPattern)
    (candidate : str) (anchored dirOnly : bool) : bool :=
  if bool_decide (pattern = []) || bool_decide (candidate = []) then false
  else if anchored then
    match matchPathSegmentsAt pattern candidate 0 with
    | None => false
    | Some end_ => segmentsTerminal candidate dirOnly end_
    end
  else matchPathSegmentsUnanchored pattern candidate dirOnly.

(** [matchPathPrefixDoubleStar] matches path pattern with trailing "/**". *)
Definition descendantFollows (candidate : str) (end_ : nat) : bool :=
  (end_ <? length candidate) && byteIs candidate end_ "/".

Fixpoint matchPathPrefixDoubleStar_loop (fuel : nat)
    (prefix : list segmentPattern) (candidate : str) (start : nat) : bool :=
  match fuel with
  | 0 => false
  | S fuel' =>
      let ok :=
        match matchPathSegmentsAt prefix candidate start with
        | Some end_ => descendantFollows candidate end_
        | None => false
        end in
      if ok then true
      else
        match IndexByte (drop start candidate) "/" with
        | None => false
        | Some nextSlash =>
            matchPathPrefixDoubleStar_loop fuel' prefix candidate
              (start + nextSlash + 1)
        end
  end.

Definition matchPathPrefixDoubleStar (prefix : list segmentPattern)
    (candidate : str) (anchored : bool) : bool :=
  if bool_decide (prefix = []) || bool_decide (candidate = []) then false
  else if anchored then
    match matchPathSegmentsAt prefix candidate 0 with
    | Some end_ => descendantFollows candidate end_
    | None => false
    end
  else matchPathPrefixDoubleStar_loop (length candidate + 1) prefix candidate 0.

(** [containsDirPath] reports whether candidate contains pattern as
    directory path segment. *)
Fixpoint containsDirPath_loop (fuel : nat) (pattern candidate : str)
    (isDir : bool) (start : nat) : bool :=
  match fuel with
  | 0 => false
  | S fuel' =>
      if length candidate <=? start then false
      else
        match Index (drop start candidate) pattern with
        | None => false
        | Some idx0 =>
            let idx := idx0 + start in
            let beforeOK := (idx =? 0) || byteIs candidate (idx - 1) "/" in
            let after := idx + length pattern in
            let afterOK :=
              (after =? length candidate) || byteIs candidate after "/" in
            if beforeOK && afterOK
               && ((after <? length candidate) || isDir)
            then true
            else containsDirPath_loop fuel' pattern candidate isDir (idx + 1)
        end
  end.

Definition containsDirPath (pattern candidate : str) (isDir : bool) : bool :=
  containsDirPath_loop (length candidate) pattern candidate isDir 0.

(** [matchExactPathRule] matches slash-containing literal pattern without
    regexp. *)
Definition matchExactPathRule (pattern candidate : str)
    (isDir anchored dirOnly : bool) : bool :=
  if bool_decide (pattern = []) || bool_decide (candidate = []) then false
  else if anchored then
    if negb dirOnly then bool_decide (candidate = pattern)
    else bool_decide (candidate = pattern)
         || HasPrefix candidate (pattern ++ $"/")
  else if negb dirOnly then
    bool_decide (candidate = pattern) || HasSuffix candidate ($"/" ++ pattern)
  else containsDirPath pattern candidate isDir.

(** The three dir-only component matchers ([matchDirOnlyComponentExact],
    [matchDirOnlyComponentPattern], [matchDirOnlyComponent]) run the same
    loop over the candidate's components and differ in the test [hit]
    applied to a component. *)
Fixpoint dirOnlyComponent_loop (hit : str -> bool) (candidate : str)
    (isDir : bool) (fuel i start : nat) : bool :=
  match fuel with
  | 0 => false
  | S fuel' =>
      if length candidate <? i then false
      else if negb (i =? length candidate) && negb (byteIs candidate i "/")
      then dirOnlyComponent_loop hit candidate isDir fuel' (i + 1) start
      else if start <? i then
        if (i =? length candidate) && negb isDir then false
        else if hit (slice candidate start i) then true
        else dirOnlyComponent_loop hit candidate isDir fuel' (i + 1) (i + 1)
      else dirOnlyComponent_loop hit candidate isDir fuel' (i + 1) (i + 1)
  end.

Definition matchDirOnlyComponentExact (component candidate : str)
    (isDir : bool) : bool :=
  if bool_decide (component = []) || bool_decide (candidate = []) then false
  else dirOnlyComponent_loop (fun seg => bool_decide (seg = component))
         candidate isDir (length candidate + 1) 0 0.

Definition matchDirOnlyComponentPattern (pattern : segmentPattern)
    (candidate : str) (isDir : bool) : bool :=
  if bool_decide (text pattern = []) || bool_decide (candidate = [])
  then false
  else dirOnlyComponent_loop (matchSegmentPattern pattern)
         candidate isDir (length candidate + 1) 0 0.

(** [pathBase] returns final path component using slash separator. *)
Definition pathBase (path : str) : str :=
  match LastIndexByte path "/" with
  | Some i => drop (i + 1) path
  | None => path
  end.

(** ** Compiled rules, the matcher and the provider

    Go's [regexp] package is outside the repository: the compiled
    expression type, [regexp.Compile] ([None] for a syntax error) and
    [MatchString] are parameters of the development.  So is the file
    system the provider reads rule files from. *)

(** The operating system as the provider sees it ([os], [path/filepath]
    on a target whose separator is the slash): reading a file, [Lstat],
    [filepath.Abs], [filepath.EvalSymlinks] and [filepath.Rel]. *)
Inductive osError := NotExist | OtherError.

Record World := mkWorld {
  os_ReadFile : str -> osError + str;
  os_Lstat : str -> option osError;
  filepath_Abs : str -> option str;
  filepath_EvalSymlinks : str -> osError + str;
  filepath_Rel : str -> str -> option str
}.

Section Engine.

Variable Regexp : Type.
Variable regexp_Compile : str -> option Regexp.
Variable regexp_MatchString : Regexp -> str -> bool.

(** [compiledRule] is matcher-internal compiled representation of one
    rule. *)
Record compiledRule := mkCompiledRule {
  componentRE : option Regexp;
  componentExact : str;
  componentGlob : segmentPattern;
  pathExact : str;
  pathSegments : list segmentPattern;
  pathPrefixSegments : list segmentPattern;
  pathRE : option Regexp;
  pathDirRE : option Regexp;
  source : Rule;
  anchored : bool;
  dirOnly : bool;
  hasSlash : bool
}.

(** [&compiledRule{source: rule, anchored: ..., dirOnly: ...}] followed by
    [cr.hasSlash = ...]: every strategy field has its zero value. *)
Definition baseRule (rule : Rule) (anchored dirOnly hasSlash : bool)
  : compiledRule :=
  {| componentRE := None; componentExact := [];
     componentGlob := mkSegmentPattern [] false;
     pathExact := []; pathSegments := []; pathPrefixSegments := [];
     pathRE := None; pathDirRE := None;
     source := rule; anchored := anchored; dirOnly := dirOnly;
     hasSlash := hasSlash |}.

Definition withComponentExact (cr : compiledRule) (p : str) :=
  {| componentRE := componentRE cr; componentExact := p;
     componentGlob := componentGlob cr; pathExact := pathExact cr;
     pathSegments := pathSegments cr;
     pathPrefixSegments := pathPrefixSegments cr;
     pathRE := pathRE cr; pathDirRE := pathDirRE cr; source := source cr;
     anchored := anchored cr; dirOnly := dirOnly cr;
     hasSlash := hasSlash cr |}.

Definition withComponentGlob (cr : compiledRule) (g : segmentPattern) :=
  {| componentRE := componentRE cr; componentExact := componentExact cr;
     componentGlob := g; pathExact := pathExact cr;
     pathSegments := pathSegments cr;
     pathPrefixSegments := pathPrefixSegments cr;
     pathRE := pathRE cr; pathDirRE := pathDirRE cr; source := source cr;
     anchored := anchored cr; dirOnly := dirOnly cr;
     hasSlash := hasSlash cr |}.

Definition withComponentRE (cr : compiledRule) (re : Regexp) :=
  {| componentRE := Some re; componentExact := componentExact cr;
     componentGlob := componentGlob cr; pathExact := pathExact cr;
     pathSegments := pathSegments cr;
     pathPrefixSegments := pathPrefixSegments cr;
     pathRE := pathRE cr; pathDirRE := pathDirRE cr; source := source cr;
     anchored := anchored cr; dirOnly := dirOnly cr;
     hasSlash := hasSlash cr |}.

Definition withPathExact (cr : compiledRule) (p : str) :=
  {| componentRE := componentRE cr; componentExact := componentExact cr;
     componentGlob := componentGlob cr; pathExact := p;
     pathSegments := pathSegments cr;
     pathPrefixSegments := pathPrefixSegments cr;
     pathRE := pathRE cr; pathDirRE := pathDirRE cr; source := source cr;
     anchored := anchored cr; dirOnly := dirOnly cr;
     hasSlash := hasSlash cr |}.

Definition withPathSegments (cr : compiledRule) (l : list segmentPattern) :=
  {| componentRE := componentRE cr; componentExact := componentExact cr;
     componentGlob := componentGlob cr; pathExact := pathExact cr;
     pathSegments := l;
     pathPrefixSegments := pathPrefixSegments cr;
     pathRE := pathRE cr; pathDirRE := pathDirRE cr; source := source cr;
     anchored := anchored cr; dirOnly := dirOnly cr;
     hasSlash := hasSlash cr |}.

Definition withPathPrefixSegments (cr : compiledRule)
    (l : list segmentPattern) :=
  {| componentRE := componentRE cr; componentExact := componentExact cr;
     componentGlob := componentGlob cr; pathExact := pathExact cr;
     pathSegments := pathSegments cr;
     pathPrefixSegments := l;
     pathRE := pathRE cr; pathDirRE := pathDirRE cr; source := source cr;
     anchored := anchored cr; dirOnly := dirOnly cr;
     hasSlash := hasSlash cr |}.

Definition withPathRE (cr : compiledRule) (re : Regexp) :=
  {| componentRE := componentRE cr; componentExact := componentExact cr;
     componentGlob := componentGlob cr; pathExact := pathExact cr;
     pathSegments := pathSegments cr;
     pathPrefixSegments := pathPrefixSegments cr;
     pathRE := Some re; pathDirRE := pathDirRE cr; source := source cr;
     anchored := anchored cr; dirOnly := dirOnly cr;
     hasSlash := hasSlash cr |}.

Definition withPathDirRE (cr : compiledRule) (re : Regexp) :=
  {| componentRE := componentRE cr; componentExact := componentExact cr;
     componentGlob := componentGlob cr; pathExact := pathExact cr;
     pathSegments := pathSegments cr;
     pathPrefixSegments := pathPrefixSegments cr;
     pathRE := pathRE cr; pathDirRE := Some re; source := source cr;
     anchored := anchored cr; dirOnly := dirOnly cr;
     hasSlash := hasSlash cr |}.

(** [compileRule] compiles one source rule into the cheapest matching
    strategy that preserves expected gitignore-like semantics. *)
Definition compileRule (rule : Rule) (caseInsensitive : bool)
  : error + compiledRule :=
  if negb (Action_valid (RAction rule)) then inl ErrInvalidRule
  else
    let pattern := normalizePattern (Pattern rule) in
    let pattern := if caseInsensitive then asciiLower pattern else pattern in
    if bool_decide (pattern = []) then inl ErrInvalidPattern
    else
      let anchored := HasPrefix pattern $"/" in
      let dirOnly := HasSuffix pattern $"/" in
      let pattern := TrimPrefix pattern $"/" in
      let pattern := TrimSuffix pattern $"/" in
      let pattern := Trim pattern $"/" in
      if bool_decide (pattern = []) then inl ErrInvalidPattern
      else
        let hasSlash := Contains pattern $"/" || anchored in
        let cr := baseRule rule anchored dirOnly hasSlash in
        let hasMeta := patternHasGlobMeta pattern in
        let hasCharClass := patternHasCharClass pattern in
        if negb hasSlash then
          if negb hasMeta then inr (withComponentExact cr pattern)
          else if negb hasCharClass then
            inr (withComponentGlob cr (newSegmentPattern pattern))
          else
            match regexp_Compile
                    ($"^" ++ globToRegexComponent pattern ++ $"$") with
            | None => inl ErrInvalidPattern
            | Some re => inr (withComponentRE cr re)
            end
        else if negb hasMeta then inr (withPathExact cr pattern)
        else
          let '(prefix, ok) := CutSuffix pattern $"/**" in
          if ok && negb (bool_decide (prefix = []))
             && canUseSimplePathSegments prefix
          then inr (withPathPrefixSegments cr (compilePathSegments prefix))
          else if canUseSimplePathSegments pattern
          then inr (withPathSegments cr (compilePathSegments pattern))
          else
            let body := globToRegexPath pattern in
            let prefix := if anchored then $"^" else $"(?:^|.*/)" in
            if dirOnly then
              match regexp_Compile (prefix ++ body ++ $"(?:/.*)?$") with
              | None => inl ErrInvalidPattern
              | Some re => inr (withPathDirRE cr re)
              end
            else
              match regexp_Compile (prefix ++ body ++ $"$") with
              | None => inl ErrInvalidPattern
              | Some re => inr (withPathRE cr re)
              end.

(** [matchDirOnlyComponent] matches component-based dir-only rule. *)
Definition matchDirOnlyComponent (re : option Regexp) (candidate : str)
    (isDir : bool) : bool :=
  match re with
  | None => false
  | Some re =>
      if bool_decide (candidate = []) then false
      else dirOnlyComponent_loop (regexp_MatchString re)
             candidate isDir (length candidate + 1) 0 0
  end.

Definition reMatch (re : option Regexp) (s : str) : bool :=
  match re with
  | Some re => regexp_MatchString re s
  | None => false
  end.

(** [matches] reports whether compiled rule matches normalized candidate
    path. *)
Definition matches (r : compiledRule) (candidate : str) (isDir : bool)
  : bool :=
  if bool_decide (candidate = []) then false
  else if hasSlash r then
    if negb (bool_decide (pathExact r = [])) then
      matchExactPathRule (pathExact r) candidate isDir (anchored r) (dirOnly r)
    else if 0 <? length (pathPrefixSegments r) then
      matchPathPrefixDoubleStar (pathPrefixSegments r) candidate (anchored r)
    else if 0 <? length (pathSegments r) then
      matchPathSegments (pathSegments r) candidate (anchored r) (dirOnly r)
    else if dirOnly r then reMatch (pathDirRE r) candidate
    else reMatch (pathRE r) candidate
  else if negb (bool_decide (componentExact r = [])) then
    if negb (dirOnly r) then
      bool_decide (pathBase candidate = componentExact r)
    else matchDirOnlyComponentExact (componentExact r) candidate isDir
  else if negb (bool_decide (text (componentGlob r) = [])) then
    if negb (dirOnly r) then
      matchSegmentPattern (componentGlob r) (pathBase candidate)
    else matchDirOnlyComponentPattern (componentGlob r) candidate isDir
  else
    match componentRE r with
    | None => false
    | Some re =>
        if negb (dirOnly r) then regexp_MatchString re (pathBase candidate)
        else matchDirOnlyComponent (Some re) candidate isDir
    end.

(** *** The matcher *)

(** [Matcher] evaluates path decisions against compiled ordered rules. *)
Record Matcher := mkMatcher {
  compiled : list compiledRule;
  defaultAction : Action;
  caseInsensitive : bool
}.

(** The compile loop of [NewMatcher]: stops at the first error. *)
Fixpoint compileRules (rules : list Rule) (ci : bool)
    (acc : list compiledRule) : error + list compiledRule :=
  match rules with
  | [] => inr acc
  | rule :: rest =>
      match compileRule rule ci with
      | inl err => inl err
      | inr cr => compileRules rest ci (acc ++ [cr])
      end
  end.

(** [NewMatcher] compiles ordered rules into matcher. *)
Definition NewMatcher (rules : list Rule) (opts : MatcherOptions)
  : error + Matcher :=
  let opts := applyDefaults opts in
  match compileRules rules (CaseInsensitive opts) [] with
  | inl err => inl err
  | inr compiled =>
      inr (mkMatcher compiled (DefaultAction opts) (CaseInsensitive opts))
  end.

(** The loop of [Decide] over [m.compiled[i]], [i] counting from the
    position of [rules] in the compiled vector. *)
Fixpoint decideLoop (rules : list compiledRule) (i : Z) (candidate : str)
    (isDir : bool) (res : MatchResult) : MatchResult :=
  match rules with
  | [] => res
  | r :: rest =>
      if negb (matches r candidate isDir)
      then decideLoop rest (i + 1) candidate isDir res
      else decideLoop rest (i + 1) candidate isDir
             (mkMatchResult
                (N.eqb (RAction (source r)) ActionInclude) true i)
  end.

(** [Decide] returns deterministic include/exclude decision for one
    path. *)
Definition Decide (m : Matcher) (path : str) (isDir : bool) : MatchResult :=
  let candidate := normalizePath path in
  let candidate :=
    if caseInsensitive m then asciiLower candidate else candidate in
  let res :=
    mkMatchResult (N.eqb (defaultAction m) ActionInclude) false (-1) in
  decideLoop (compiled m) 0 candidate isDir res.

Definition Matcher_Included (m : Matcher) (path : str) (isDir : bool) : bool :=
  Included (Decide m path isDir).

Definition Matcher_Excluded (m : Matcher) (path : str) (isDir : bool) : bool :=
  negb (Included (Decide m path isDir)).

(** *** provider.go *)

Variable world : World.

Definition defaultRulesFileName : str := $".pathrules".

Record ProviderOptions := mkProviderOptions {
  RulesFileName : str;
  BaseRules : list Rule;
  POMatcherOptions : MatcherOptions;
  EnableSymlinkEscapeCheck : bool
}.

Record DirEntry := mkDirEntry { Name : str; IsDir : bool }.

(** [cachedDirMatcher] stores one directory rules matcher or a cached load
    error.  Calls are modelled one at a time, so an entry is always a
    finished load: the [loading] flag and the wait group are left out. *)
Record cachedDirMatcher := mkCached {
  cd_matcher : option Matcher;
  cd_err : option error
}.

(** The provider's mutable part is its cache, threaded through every
    operation; the remaining fields are fixed at construction. *)
Local Abbreviation dirCache := (gmap str cachedDirMatcher).

Record Provider := mkProvider {
  baseMatcher : option Matcher;
  root : str;
  resolvedRoot : str;
  rulesFileName : str;
  matcherOptions : MatcherOptions;
  defaultIncluded : bool;
  enableSymlinkEscapeCheck : bool
}.

(** [providerDirMatcher] is one prepared directory-level matcher with
    prefix. *)
Record providerDirMatcher := mkProviderDirMatcher {
  pd_matcher : Matcher;
  pd_prefix : str
}.

(** [filepath.IsAbs], [filepath.ToSlash], [filepath.FromSlash] and
    [filepath.Join] where the separator is the slash. *)
Definition filepath_IsAbs (path : str) : bool := HasPrefix path $"/".
Definition filepath_ToSlash (path : str) : str := path.
Definition filepath_FromSlash (path : str) : str := path.

Fixpoint filepath_Join (elem : list str) : str :=
  match elem with
  | [] => []
  | e :: rest =>
      if bool_decide (e = []) then filepath_Join rest
      else Path.Clean (joinSlash elem)
  end.

(** [cleanRelPath] normalizes and validates one provider-relative path. *)
Definition cleanRelPath (raw : str) : error + str :=
  let trimmed := TrimSpace raw in
  if bool_decide (trimmed = []) then inl ErrPathOutsideRoot
  else if filepath_IsAbs trimmed then inl ErrPathOutsideRoot
  else
    let path := filepath_ToSlash trimmed in
    if HasPrefix path $"/" then inl ErrPathOutsideRoot
    else
      let path := TrimPrefix path $"./" in
      let path := TrimPrefix path $"/" in
      if bool_decide (path = []) then inl ErrPathOutsideRoot
      else if bool_decide (path = $".") || bool_decide (path = $"..")
              || HasPrefix path $"../" then inl ErrPathOutsideRoot
      else
        let path := ReplaceAll path $"/./" $"/" in
        let path := fst (CutPrefix path $"./") in
        if Contains path $"/../" || HasSuffix path $"/.."
        then inl ErrPathOutsideRoot
        else
          let path := normalizePath path in
          if bool_decide (path = []) then inl ErrPathOutsideRoot
          else inr path.

(** [cleanRelDir] normalizes and validates provider-relative directory
    path. *)
Definition cleanRelDir (raw : str) : error + str :=
  let trimmed := TrimSpace raw in
  if bool_decide (trimmed = []) || bool_decide (trimmed = $".") then inr []
  else cleanRelPath trimmed.

(** [cleanEntryName] normalizes and validates one directory entry name. *)
Definition cleanEntryName (raw : str) : error + str :=
  let trimmed := TrimSpace raw in
  if bool_decide (trimmed = []) then inl ErrInvalidEntryName
  else if filepath_IsAbs trimmed then inl ErrInvalidEntryName
  else
    let path := filepath_ToSlash trimmed in
    if Contains path $"/" then inl ErrInvalidEntryName
    else
      let path := normalizePath path in
      if bool_decide (path = []) || Contains path $"/"
         || bool_decide (path = $".") || bool_decide (path = $"..")
      then inl ErrInvalidEntryName
      else inr path.

(** [cleanRulesFileName] validates and normalizes provider rules file
    name. *)
Definition cleanRulesFileName (raw : str) : error + str :=
  let name := TrimSpace raw in
  let name := if bool_decide (name = []) then defaultRulesFileName else name in
  if filepath_IsAbs name then inl ErrInvalidRulesFileName
  else
    let name := filepath_ToSlash name in
    if Contains name $"/" || bool_decide (name = $".")
       || bool_decide (name = $"..")
    then inl ErrInvalidRulesFileName
    else inr name.

(** [pathDir] returns slash-separated directory part for a relative
    path. *)
Definition pathDir (relPath : str) (isDir : bool) : str :=
  if isDir then relPath
  else match LastIndexByte relPath "/" with
       | Some i => take i relPath
       | None => []
       end.

(** [resolvePathOrAbs] resolves symlinks/junctions and falls back to
    absolute path for non-link paths. *)
Definition resolvePathOrAbs (path : str) : error + str :=
  match filepath_EvalSymlinks world path with
  | inr resolved => inr resolved
  | inl err =>
      match filepath_Abs world path with
      | None => inl ErrIO
      | Some abs =>
          match err with
          | NotExist => inr abs
          | OtherError => inl ErrIO
          end
      end
  end.

(** [isPathWithinRoot] reports whether target path is inside root path. *)
Definition isPathWithinRoot (root target : str) : bool :=
  match filepath_Rel world root target with
  | None => false
  | Some rel =>
      if bool_decide (rel = $".") then true
      else if bool_decide (rel = $"..") || HasPrefix rel $"../" then false
      else true
  end.

(** [NewProvider] creates a recursive rules provider rooted at rootDir. *)
Definition NewProvider (rootDir : str) (opts : ProviderOptions)
  : error + Provider :=
  match filepath_Abs world rootDir with
  | None => inl ErrIO
  | Some absRoot =>
      let resolved :=
        if EnableSymlinkEscapeCheck opts then resolvePathOrAbs absRoot
        else inr absRoot in
      match resolved with
      | inl err => inl err
      | inr resolvedRoot =>
          let mopts := applyDefaults (POMatcherOptions opts) in
          match NewMatcher (BaseRules opts) mopts with
          | inl err => inl err
          | inr baseMatcher =>
              match cleanRulesFileName (RulesFileName opts) with
              | inl err => inl err
              | inr rulesFileName =>
                  inr {| baseMatcher := Some baseMatcher;
                         root := absRoot;
                         resolvedRoot := resolvedRoot;
                         rulesFileName := rulesFileName;
                         matcherOptions := mopts;
                         defaultIncluded :=
                           N.eqb (DefaultAction mopts) ActionInclude;
                         enableSymlinkEscapeCheck :=
                           EnableSymlinkEscapeCheck opts |}
              end
          end
      end
  end.

(** Parsing and compiling the content of one rule file, shared by both
    branches of [loadAndCompileDirMatcher]. *)
Definition parseAndCompile (p : Provider) (content : str)
  : error + option Matcher :=
  match ParseRules content with
  | inl err => inl err
  | inr rules =>
      match NewMatcher rules (matcherOptions p) with
      | inl err => inl err
      | inr matcher => inr (Some matcher)
      end
  end.

(** [resolveAndValidateRulesPath] resolves one rules file path and ensures
    it stays under provider root; [inr None] when the file is not
    found. *)
Definition resolveAndValidateRulesPath (p : Provider) (relDir : str)
  : error + option str :=
  let fullDir := filepath_Join [root p; filepath_FromSlash relDir] in
  let rulesPath := filepath_Join [fullDir; rulesFileName p] in
  match os_Lstat world rulesPath with
  | Some NotExist => inr None
  | Some OtherError => inl ErrIO
  | None =>
      match resolvePathOrAbs rulesPath with
      | inl err => inl err
      | inr resolvedRulesPath =>
          if negb (isPathWithinRoot (resolvedRoot p) resolvedRulesPath)
          then inl ErrRulesPathOutsideRoot
          else inr (Some rulesPath)
      end
  end.

(** [loadAndCompileDirMatcher] loads and compiles one directory rules
    file; [inr None] when the directory has none. *)
Definition loadAndCompileDirMatcher (p : Provider) (relDir : str)
  : error + option Matcher :=
  if negb (enableSymlinkEscapeCheck p) then
    let fullDir := filepath_Join [root p; filepath_FromSlash relDir] in
    let rulesPath := filepath_Join [fullDir; rulesFileName p] in
    match os_ReadFile world rulesPath with
    | inl NotExist => inr None
    | inl OtherError => inl ErrIO
    | inr content => parseAndCompile p content
    end
  else
    match resolveAndValidateRulesPath p relDir with
    | inl err => inl err
    | inr None => inr None
    | inr (Some rulesPath) =>
        match os_ReadFile world rulesPath with
        | inl _ => inl ErrIO
        | inr content => parseAndCompile p content
        end
    end.

(** [unwrapCachedDirMatcher] unwraps cached directory matcher entry. *)
Definition unwrapCachedDirMatcher (entry : cachedDirMatcher)
  : error + option Matcher :=
  match cd_err entry with
  | Some err => inl err
  | None => inr (cd_matcher entry)
  end.

(** [loadDirMatcher] returns cached or newly loaded matcher for one
    relative directory. *)
Definition loadDirMatcher (p : Provider) (relDir : str) (cache : dirCache)
  : (error + option Matcher) * dirCache :=
  match cache !! relDir with
  | Some cached => (unwrapCachedDirMatcher cached, cache)
  | None =>
      let loaded := loadAndCompileDirMatcher p relDir in
      let entry :=
        match loaded with
        | inl err => mkCached None (Some err)
        | inr matcher => mkCached matcher None
        end in
      (loaded, <[relDir := entry]> cache)
  end.

(** The part of [applyDirMatcherDecision] and of the body of
    [applyPreparedDirMatchers] after the matcher is at hand. *)
Definition applyMatcherWithPrefix (matcher : Matcher) (rel normalized : str)
    (isDir : bool) (res : MatchResult) : MatchResult :=
  let evaluate candidate :=
    let decision := Decide matcher candidate isDir in
    if negb (Matched decision) then res
    else mkMatchResult (Included decision) true (RuleIndex decision) in
  if negb (bool_decide (rel = [])) then
    if bool_decide (normalized = rel) then res
    else
      let prefix := rel ++ $"/" in
      if negb (HasPrefix normalized prefix) then res
      else evaluate (drop (length prefix) normalized)
  else evaluate normalized.

(** [applyDirMatcherDecision] evaluates one directory-level matcher and
    updates final result. *)
Definition applyDirMatcherDecision (p : Provider) (rel normalized : str)
    (isDir : bool) (res : MatchResult) (cache : dirCache)
  : (error + MatchResult) * dirCache :=
  match loadDirMatcher p rel cache with
  | (inl err, cache') => (inl err, cache')
  | (inr None, cache') => (inr res, cache')
  | (inr (Some matcher), cache') =>
      (inr (applyMatcherWithPrefix matcher rel normalized isDir res), cache')
  end.

(** The loop of [Provider.Decide] over the slashes of [relDir]. *)
Fixpoint decideAncestors_loop (p : Provider) (relDir normalized : str)
    (isDir : bool) (fuel i : nat) (res : MatchResult) (cache : dirCache)
  : (error + MatchResult) * dirCache :=
  match fuel with
  | 0 => (inr res, cache)
  | S fuel' =>
      if length relDir <=? i then (inr res, cache)
      else if negb (byteIs relDir i "/") then
        decideAncestors_loop p relDir normalized isDir fuel' (i + 1) res cache
      else
        match applyDirMatcherDecision p (take i relDir) normalized isDir
                res cache with
        | (inl err, cache') => (inl err, cache')
        | (inr res', cache') =>
            decideAncestors_loop p relDir normalized isDir fuel' (i + 1)
              res' cache'
        end
  end.

(** The base matcher's step, shared by [Decide] and [DecideInDir]. *)
Definition applyBaseMatcher (p : Provider) (normalized : str) (isDir : bool)
    (res : MatchResult) : MatchResult :=
  match baseMatcher p with
  | Some m =>
      let baseRes := Decide m normalized isDir in
      if Matched baseRes then baseRes else res
  | None => res
  end.

(** [Provider.Decide] returns final include/exclude decision for a path
    relative to provider root.  On an error the result is the zero
    [MatchResult]. *)
Definition Provider_Decide (p : Provider) (relPath : str) (isDir : bool)
    (cache : dirCache) : (error + MatchResult) * dirCache :=
  match cleanRelPath relPath with
  | inl err => (inl err, cache)
  | inr normalized =>
      let res := mkMatchResult (defaultIncluded p) false (-1) in
      let res := applyBaseMatcher p normalized isDir res in
      let relDir := pathDir normalized isDir in
      match applyDirMatcherDecision p [] normalized isDir res cache with
      | (inl err, cache') => (inl err, cache')
      | (inr res, cache') =>
          if negb (bool_decide (relDir = [])) then
            match decideAncestors_loop p relDir normalized isDir
                    (length relDir) 0 res cache' with
            | (inl err, cache'') => (inl err, cache'')
            | (inr res, cache'') =>
                applyDirMatcherDecision p relDir normalized isDir res cache''
            end
          else (inr res, cache')
      end
  end.

(** The Go pair [(MatchResult, error)] of a call on a provider pointer
    that may be nil. *)
Definition goResult (r : error + MatchResult) : MatchResult * option error :=
  match r with
  | inl err => (zeroMatchResult, Some err)
  | inr res => (res, None)
  end.

Definition Provider_Decide_ptr (p : option Provider) (relPath : str)
    (isDir : bool) (cache : dirCache)
  : (MatchResult * option error) * dirCache :=
  match p with
  | None => ((zeroMatchResult, Some ErrNilProvider), cache)
  | Some p =>
      let '(r, cache') := Provider_Decide p relPath isDir cache in
      (goResult r, cache')
  end.

(** Appending to [matchers] when the loaded matcher is not nil. *)
Definition appendDirMatcher (matchers : list providerDirMatcher)
    (matcher : option Matcher) (prefix : str) : list providerDirMatcher :=
  match matcher with
  | Some m => matchers ++ [mkProviderDirMatcher m prefix]
  | None => matchers
  end.

(** The loop of [prepareProviderDirMatchers] over the slashes of
    [relDir]. *)
Fixpoint prepareAncestors_loop (p : Provider) (relDir : str) (fuel i : nat)
    (matchers : list providerDirMatcher) (cache : dirCache)
  : (error + list providerDirMatcher) * dirCache :=
  match fuel with
  | 0 => (inr matchers, cache)
  | S fuel' =>
      if length relDir <=? i then (inr matchers, cache)
      else if negb (byteIs relDir i "/") then
        prepareAncestors_loop p relDir fuel' (i + 1) matchers cache
      else
        let rel := take i relDir in
        match loadDirMatcher p rel cache with
        | (inl err, cache') => (inl err, cache')
        | (inr matcher, cache') =>
            prepareAncestors_loop p relDir fuel' (i + 1)
              (appendDirMatcher matchers matcher rel) cache'
        end
  end.

(** [prepareProviderDirMatchers] loads and prepares directory-level
    matchers for one directory. *)
Definition prepareProviderDirMatchers (p : Provider) (relDir : str)
    (cache : dirCache) : (error + list providerDirMatcher) * dirCache :=
  match loadDirMatcher p [] cache with
  | (inl err, cache') => (inl err, cache')
  | (inr matcher, cache') =>
      let matchers := appendDirMatcher [] matcher [] in
      if bool_decide (relDir = []) then (inr matchers, cache')
      else
        match prepareAncestors_loop p relDir (length relDir) 0 matchers
                cache' with
        | (inl err, cache'') => (inl err, cache'')
        | (inr matchers, cache'') =>
            match loadDirMatcher p relDir cache'' with
            | (inl err, cache3) => (inl err, cache3)
            | (inr matcher, cache3) =>
                (inr (appendDirMatcher matchers matcher relDir), cache3)
            end
        end
  end.

(** [applyPreparedDirMatchers] evaluates prepared directory matchers and
    updates result. *)
Fixpoint applyPreparedDirMatchers (matchers : list providerDirMatcher)
    (normalized : str) (isDir : bool) (res : MatchResult) : MatchResult :=
  match matchers with
  | [] => res
  | m :: rest =>
      applyPreparedDirMatchers rest normalized isDir
        (applyMatcherWithPrefix (pd_matcher m) (pd_prefix m) normalized
           isDir res)
  end.

(** The loop of [DecideInDir] over the entries. *)
Fixpoint decideEntries (p : Provider) (normalizedDir : str)
    (dirMatchers : list providerDirMatcher) (entries : list DirEntry)
  : error + list MatchResult :=
  match entries with
  | [] => inr []
  | entry :: rest =>
      match cleanEntryName (Name entry) with
      | inl err => inl err
      | inr entryName =>
          let fullPath :=
            if negb (bool_decide (normalizedDir = []))
            then normalizedDir ++ $"/" ++ entryName
            else entryName in
          let res := mkMatchResult (defaultIncluded p) false (-1) in
          let res := applyBaseMatcher p fullPath (IsDir entry) res in
          let res :=
            applyPreparedDirMatchers dirMatchers fullPath (IsDir entry) res in
          match decideEntries p normalizedDir dirMatchers rest with
          | inl err => inl err
          | inr results => inr (res :: results)
          end
      end
  end.

(** [DecideInDir] returns decisions for multiple entries from one
    directory. *)
Definition Provider_DecideInDir (p : Provider) (relDir : str)
    (entries : list DirEntry) (cache : dirCache)
  : (error + list MatchResult) * dirCache :=
  match cleanRelDir relDir with
  | inl err => (inl err, cache)
  | inr normalizedDir =>
      match prepareProviderDirMatchers p normalizedDir cache with
      | (inl err, cache') => (inl err, cache')
      | (inr dirMatchers, cache') =>
          (decideEntries p normalizedDir dirMatchers entries, cache')
      end
  end.

(** [Included] and [Excluded] report the provider decision. *)
Definition Provider_Included (p : Provider) (relPath : str) (isDir : bool)
    (cache : dirCache) : (error + bool) * dirCache :=
  match Provider_Decide p relPath isDir cache with
  | (inl err, cache') => (inl err, cache')
  | (inr res, cache') => (inr (Included res), cache')
  end.

Definition Provider_Excluded (p : Provider) (relPath : str) (isDir : bool)
    (cache : dirCache) : (error + bool) * dirCache :=
  match Provider_Included p relPath isDir cache with
  | (inl err, cache') => (inl err, cache')
  | (inr included, cache') => (inr (negb included), cache')
  end.

End Engine.

Abbreviation dirCache Regexp := (gmap str (cachedDirMatcher Regexp)).

Arguments mkCompiledRule {Regexp}.
Arguments componentRE {Regexp}.
Arguments componentExact {Regexp}.
Arguments componentGlob {Regexp}.
Arguments pathExact {Regexp}.
Arguments pathSegments {Regexp}.
Arguments pathPrefixSegments {Regexp}.
Arguments pathRE {Regexp}.
Arguments pathDirRE {Regexp}.
Arguments source {Regexp}.
Arguments anchored {Regexp}.
Arguments dirOnly {Regexp}.
Arguments hasSlash {Regexp}.
Arguments mkMatcher {Regexp}.
Arguments compiled {Regexp}.
Arguments defaultAction {Regexp}.
Arguments caseInsensitive {Regexp}.
Arguments mkProvider {Regexp}.
Arguments baseMatcher {Regexp}.
Arguments root {Regexp}.
Arguments resolvedRoot {Regexp}.
Arguments rulesFileName {Regexp}.
Arguments matcherOptions {Regexp}.
Arguments defaultIncluded {Regexp}.
Arguments enableSymlinkEscapeCheck {Regexp}.
Arguments mkCached {Regexp}.
Arguments cd_matcher {Regexp}.
Arguments cd_err {Regexp}.
Arguments mkProviderDirMatcher {Regexp}.
Arguments pd_matcher {Regexp}.
Arguments pd_prefix {Regexp}.

Arguments compileRule {Regexp}.
Arguments matches {Regexp}.
Arguments compileRules {Regexp}.
Arguments NewMatcher {Regexp}.
Arguments decideLoop {Regexp}.
Arguments Decide {Regexp}.
Arguments NewProvider {Regexp}.
Arguments loadAndCompileDirMatcher {Regexp}.
Arguments loadDirMatcher {Regexp}.
Arguments applyMatcherWithPrefix {Regexp}.
Arguments applyDirMatcherDecision {Regexp}.
Arguments decideAncestors_loop {Regexp}.
Arguments applyBaseMatcher {Regexp}.
Arguments Provider_Decide {Regexp}.
Arguments Provider_Decide_ptr {Regexp}.
Arguments appendDirMatcher {Regexp}.
Arguments prepareAncestors_loop {Regexp}.
Arguments prepareProviderDirMatchers {Regexp}.
Arguments applyPreparedDirMatchers {Regexp}.
Arguments decideEntries {Regexp}.
Arguments Provider_DecideInDir {Regexp}.
Arguments unwrapCachedDirMatcher {Regexp}.
Arguments parseAndCompile {Regexp}.

(** ** extensions.go, the rule-set helpers and the batch wrappers *)

(** The body of the loop of [ParseExtensions] for one value; [None] where
    the loop continues without appending a rule. *)
Definition parseExtension (ext : str) : option Rule :=
  let ext := TrimSpace ext in
  let ext := TrimPrefix ext $"*." in
  let ext := TrimLeft ext $"." in
  let ext := asciiLower ext in
  if bool_decide (ext = []) then None
  else Some (mkRule ($"*." ++ ext) ActionInclude).

(** [ParseExtensions] converts extension list to include rules. *)
Definition ParseExtensions (exts : list str) : list Rule :=
  omap parseExtension exts.

(** [MergeRules] merges rule slices preserving input order. *)
Definition MergeRules (ruleSets : list (list Rule)) : list Rule :=
  fold_left (fun out set => out ++ set) ruleSets [].

(** [ParseRulesString] parses rules from string input. *)
Definition ParseRulesString (src : str) : error + list Rule := ParseRules src.

(** [LoadRulesFile] reads and parses rules from a file.  Opening and
    reading the file is one step of the operating system here; a failure
    of either is [ErrIO]. *)
Definition LoadRulesFile (world : World) (path : str) : error + list Rule :=
  match os_ReadFile world path with
  | inl _ => inl ErrIO
  | inr content => ParseRules content
  end.

(** [LoadRulesFiles] reads and merges rules from files in the given
    order. *)
Fixpoint LoadRulesFiles_loop (world : World) (paths : list str)
    (out : list Rule) : error + list Rule :=
  match paths with
  | [] => inr out
  | path :: rest =>
      match LoadRulesFile world path with
      | inl err => inl err
      | inr rules => LoadRulesFiles_loop world rest (out ++ rules)
      end
  end.

Definition LoadRulesFiles (world : World) (paths : list str)
  : error + list Rule :=
  LoadRulesFiles_loop world paths [].

Section BatchWrappers.

Context {Regexp : Type}.
Variable regexp_Compile : str -> option Regexp.
Variable regexp_MatchString : Regexp -> str -> bool.
Variable world : World.

(** [IncludedInDir] reports include decisions for multiple entries from
    one directory. *)
Definition Provider_IncludedInDir (p : Provider Regexp) (relDir : str)
    (entries : list DirEntry) (cache : dirCache Regexp)
  : (error + list bool) * dirCache Regexp :=
  match Provider_DecideInDir regexp_Compile regexp_MatchString world p
          relDir entries cache with
  | (inl err, cache') => (inl err, cache')
  | (inr results, cache') => (inr (map Included results), cache')
  end.

(** [ExcludedInDir] reports exclude decisions for multiple entries from
    one directory. *)
Definition Provider_ExcludedInDir (p : Provider Regexp) (relDir : str)
    (entries : list DirEntry) (cache : dirCache Regexp)
  : (error + list bool) * dirCache Regexp :=
  match Provider_IncludedInDir p relDir entries cache with
  | (inl err, cache') => (inl err, cache')
  | (inr included, cache') => (inr (map negb included), cache')
  end.

End BatchWrappers.

(** ** Auxiliary definitions for the statements *)

(** The pattern as [compileRule] holds it before and after it strips the
    anchoring and dir-only slashes. *)
Definition preparedPattern (rule : Rule) (ci : bool) : str :=
  let pattern := normalizePattern (Pattern rule) in
  if ci then asciiLower pattern else pattern.

Definition strippedPattern (rule : Rule) (ci : bool) : str :=
  Trim (TrimSuffix (TrimPrefix (preparedPattern rule ci) $"/") $"/") $"/".

(** The candidate as [Matcher.Decide] hands it to the rules. *)
Definition decideCandidate (ci : bool) (path : str) : str :=
  if ci then asciiLower (normalizePath path) else normalizePath path.

(** The rule a trimmed line stands for, following the wording of the
    specification: comments and empty patterns are skipped, [\#] and [\!]
    escape a leading [#] and [!], a leading [!] negates. *)
Definition specLineRule (line : str) : option Rule :=
  match line with
  | [] => None
  | "#"%char :: _ => None
  | "\"%char :: "#"%char :: rest => Some (mkRule ("#"%char :: rest) ActionExclude)
  | "!"%char :: [] => None
  | "!"%char :: rest => Some (mkRule rest ActionInclude)
  | "\"%char :: "!"%char :: rest => Some (mkRule ("!"%char :: rest) ActionExclude)
  | _ => Some (mkRule line ActionExclude)
  end.

(** [pattern] occurs in [candidate] as a full run of slash-separated
    segments; an occurrence that ends the candidate counts only for a
    directory. *)
Definition dirPathOccurs (pattern candidate : str) (isDir : bool) : Prop :=
  exists pre post : str,
    candidate = pre ++ pattern ++ post
    /\ (pre = [] \/ last pre = Some "/"%char)
    /\ ((post = [] /\ isDir = true) \/ head post = Some "/"%char).

(** An occurrence of [pattern] at index [idx] of [candidate] that
    [containsDirPath] accepts. *)
Definition acceptedAt (pattern candidate : str) (isDir : bool) (idx : nat)
  : Prop :=
  HasPrefix (drop idx candidate) pattern = true
  /\ (idx = 0 \/ candidate !! (idx - 1) = Some "/"%char)
  /\ (idx + length pattern = length candidate
      \/ candidate !! (idx + length pattern) = Some "/"%char)
  /\ (idx + length pattern < length candidate \/ isDir = true).

(** What [matchExactPathRule] decides, by the two flags. *)
Definition exactPathMatch (pattern candidate : str)
    (isDir anchored dirOnly : bool) : Prop :=
  match anchored, dirOnly with
  | true, false => candidate = pattern
  | true, true =>
      candidate = pattern \/ exists rest, candidate = pattern ++ $"/" ++ rest
  | false, false =>
      candidate = pattern \/ exists pre, candidate = pre ++ $"/" ++ pattern
  | false, true => dirPathOccurs pattern candidate isDir
  end.

(** A path element [comp] that the segment pattern [seg] accepts. *)
Definition segmentAccepts (seg : segmentPattern) (comp : str) : Prop :=
  comp <> [] /\ ("/"%char ∉ comp) /\ matchSegmentPattern seg comp = true.

(** The candidate holds, from a segment boundary on, one accepted element
    per segment of the prefix, followed by a slash: [pre] is empty or ends
    with a slash, and is empty for an anchored rule. *)
Definition prefixSegmentsMatch (segs : list segmentPattern) (anchored : bool)
    (candidate : str) : Prop :=
  exists (pre : str) (comps : list str) (rest : str),
    candidate = pre ++ joinSlash comps ++ "/"%char :: rest
    /\ (pre = [] \/ last pre = Some "/"%char)
    /\ (anchored = true -> pre = [])
    /\ Forall2 segmentAccepts segs comps.

(** *** The provider's scopes, following the specification

    The stack of scopes of a candidate is the base matcher, then the rule
    file of the root directory and of every directory on the way to the
    candidate's directory, root first.  A directory scope [D] decides
    only candidates strictly below [D], on the path relative to [D].
    The final decision is that of the last scope that matched. *)

Section ProviderSpec.

Context {Regexp : Type}.
Variable regexp_Compile : str -> option Regexp.
Variable regexp_MatchString : Regexp -> str -> bool.
Variable world : World.

(** The indices of the slashes of [s], ascending. *)
Definition slashIndices (s : str) : list nat :=
  filter (fun i => byteIs s i "/" = true) (seq 0 (length s)).

(** The proper ancestors of [relDir], root excluded, outermost first. *)
Definition ancestorDirs (relDir : str) : list str :=
  map (fun i => take i relDir) (slashIndices relDir).

Definition dirChain (relDir : str) : list str :=
  [] :: (if bool_decide (relDir = []) then []
         else ancestorDirs relDir ++ [relDir]).

Definition scopeChain (candidate : str) (isDir : bool) : list str :=
  dirChain (pathDir candidate isDir).

(** Loading the matchers of a chain of directories in order; the first
    load error ends it. *)
Fixpoint loadChain (p : Provider Regexp) (dirs : list str)
    (cache : dirCache Regexp)
  : (error + list (str * option (Matcher Regexp))) * dirCache Regexp :=
  match dirs with
  | [] => (inr [], cache)
  | d :: ds =>
      match loadDirMatcher regexp_Compile world p d cache with
      | (inl err, cache') => (inl err, cache')
      | (inr m, cache') =>
          match loadChain p ds cache' with
          | (inl err, cache'') => (inl err, cache'')
          | (inr ms, cache'') => (inr ((d, m) :: ms), cache'')
          end
      end
  end.

(** The decision of the scope of directory [D] on a candidate, if the
    scope has a matcher and the candidate is in its range. *)
Definition scopeDecision (candidate : str) (isDir : bool)
    (scope : str * option (Matcher Regexp)) : option MatchResult :=
  match scope with
  | (_, None) => None
  | (D, Some m) =>
      if bool_decide (D = []) then
        Some (Decide regexp_MatchString m candidate isDir)
      else if HasPrefix candidate (D ++ $"/") then
        Some (Decide regexp_MatchString m
                (drop (length D + 1) candidate) isDir)
      else None
  end.

Definition baseDecision (p : Provider Regexp) (candidate : str)
    (isDir : bool) : list MatchResult :=
  match baseMatcher p with
  | Some m => [Decide regexp_MatchString m candidate isDir]
  | None => []
  end.

(** The last decision that matched, [default] if none did: a decision
    that matched overwrites what came before it. *)
Definition pick (acc d : MatchResult) : MatchResult :=
  if Matched d then d else acc.

Definition lastMatched (default : MatchResult) (decisions : list MatchResult)
  : MatchResult :=
  fold_left pick decisions default.

Definition defaultDecision (p : Provider Regexp) : MatchResult :=
  mkMatchResult (defaultIncluded p) false (-1).

(** The decision of the whole stack, given the loaded scopes. *)
Definition stackDecision (p : Provider Regexp) (candidate : str)
    (isDir : bool) (scopes : list (str * option (Matcher Regexp)))
  : MatchResult :=
  lastMatched (defaultDecision p)
    (baseDecision p candidate isDir
     ++ omap (scopeDecision candidate isDir) scopes).

(** Applying the scopes of a list of directories in order, as
    [Provider.Decide] does one directory after the other. *)
Fixpoint applyChain (p : Provider Regexp) (dirs : list str)
    (normalized : str) (isDir : bool) (res : MatchResult)
    (cache : dirCache Regexp) : (error + MatchResult) * dirCache Regexp :=
  match dirs with
  | [] => (inr res, cache)
  | d :: ds =>
      match applyDirMatcherDecision regexp_Compile regexp_MatchString world
              p d normalized isDir res cache with
      | (inl err, cache') => (inl err, cache')
      | (inr res', cache') => applyChain p ds normalized isDir res' cache'
      end
  end.

(** The prepared matchers of a loaded chain: the scopes that have a
    rule file. *)
Definition preparedScopes (scopes : list (str * option (Matcher Regexp)))
  : list (providerDirMatcher Regexp) :=
  omap (fun scope : str * option (Matcher Regexp) =>
          (fun m => mkProviderDirMatcher m (fst scope)) <$> snd scope)
       scopes.

(** The path [DecideInDir] composes for an entry. *)
Definition entryPath (normalizedDir entryName : str) : str :=
  if negb (bool_decide (normalizedDir = []))
  then normalizedDir ++ $"/" ++ entryName
  else entryName.

End ProviderSpec.

Arguments applyChain {Regexp}.
Arguments preparedScopes {Regexp}.
Arguments loadChain {Regexp}.
Arguments scopeDecision {Regexp}.
Arguments baseDecision {Regexp}.
Arguments defaultDecision {Regexp}.
Arguments stackDecision {Regexp}.

(** A path element [path.Clean] keeps. *)
Definition keptElem (e : str) : Prop :=
  e <> [] /\ e <> $"." /\ e <> $".." /\ ("/"%char ∉ e).

(** Replacing one byte by another, as [strings.ReplaceAll] does for
    one-byte strings. *)
Definition replaceByte (a b c : ascii) : ascii :=
  if Ascii.eqb c a then b else c.

(** ASCII letters, and strings without any: the bytes the case folding
    can neither change nor produce. *)
Definition isLowerAZ (c : ascii) : bool :=
  (nat_of_ascii "a" <=? nat_of_ascii c) && (nat_of_ascii c <=? nat_of_ascii "z").

Definition isLetter (c : ascii) : bool := isUpper c || isLowerAZ c.

Definition noLetters (s : str) : bool := forallb (fun c => negb (isLetter c)) s.

(** The compiled rule with another source rule. *)
Definition withSource {Regexp : Type} (cr : compiledRule Regexp) (rule : Rule)
  : compiledRule Regexp :=
  {| componentRE := componentRE cr; componentExact := componentExact cr;
     componentGlob := componentGlob cr; pathExact := pathExact cr;
     pathSegments := pathSegments cr;
     pathPrefixSegments := pathPrefixSegments cr;
     pathRE := pathRE cr; pathDirRE := pathDirRE cr; source := rule;
     anchored := anchored cr; dirOnly := dirOnly cr;
     hasSlash := hasSlash cr |}.

(** Two rules that differ at most in the ASCII case of their patterns. *)
Definition caseVariant (r r' : Rule) : Prop :=
  RAction r = RAction r' /\ asciiLower (Pattern r) = asciiLower (Pattern r').

(** Compiled rules that agree up to the pattern text of their source. *)
Definition sameCompiled {Regexp : Type} (cr cr' : compiledRule Regexp) : Prop :=
  exists r', cr' = withSource cr r' /\ RAction r' = RAction (source cr).

(** *** A sample world

    A regular-expression engine that accepts no expression, and a file
    system whose root directory [/r] has a rule file with the line
    [*.tmp] and whose directory [sub] has one with the line [/], which
    does not compile. *)

Module Sample.

Definition Re := Empty_set.
Definition reCompile (src : str) : option Re := None.
Definition reMatchString (re : Re) (s : str) : bool := match re with end.

Definition world : World :=
  {| os_ReadFile := fun path =>
       if bool_decide (path = $"/r/sub/.pathrules") then inr $"/"
       else if bool_decide (path = $"/r/.pathrules") then inr ($"*.tmp" ++ LF)
       else inl NotExist;
     os_Lstat := fun _ => Some NotExist;
     filepath_Abs := fun path => Some path;
     filepath_EvalSymlinks := fun path => inr path;
     filepath_Rel := fun _ _ => None |}.

Definition options : ProviderOptions :=
  mkProviderOptions [] [] (mkMatcherOptions false ActionUnknown) false.

Definition provider : Provider Re :=
  {| baseMatcher := Some (mkMatcher [] ActionInclude false);
     root := $"/r"; resolvedRoot := $"/r";
     rulesFileName := defaultRulesFileName;
     matcherOptions := mkMatcherOptions false ActionInclude;
     defaultIncluded := true;
     enableSymlinkEscapeCheck := false |}.

(** A few rules in the style of the package's tests, and their matcher. *)
Definition rules : list Rule :=
  [ mkRule $"*.tmp" ActionExclude; mkRule $"!keep.tmp" ActionExclude;
    mkRule $"keep.tmp" ActionInclude; mkRule $"build/" ActionExclude;
    mkRule $"/docs/api" ActionExclude; mkRule $"assets/group/**" ActionExclude ].

Definition matcherOptions : MatcherOptions :=
  mkMatcherOptions false ActionInclude.

Definition matcher : Matcher Re :=
  Eval vm_compute in
    match NewMatcher reCompile rules matcherOptions with
    | inr m => m
    | inl _ => mkMatcher [] ActionInclude false
    end.

(** The compiled forms of [/docs/api] and of [assets/group/**]. *)
Definition docsRule : Rule := mkRule $"/docs/api" ActionExclude.

Definition docsCompiled : compiledRule Re :=
  Eval vm_compute in
    match compileRule reCompile docsRule false with
    | inr cr => cr
    | inl _ => baseRule Re docsRule false false false
    end.

Definition assetsRule : Rule := mkRule $"assets/group/**" ActionExclude.

Definition assetsCompiled : compiledRule Re :=
  Eval vm_compute in
    match compileRule reCompile assetsRule false with
    | inr cr => cr
    | inl _ => baseRule Re assetsRule false false false
    end.

End Sample.

(** ** Auxiliary definitions for the further properties *)

(** What a pattern of [*], [?] and literal bytes matches: a star stands
    for any run of bytes, a question mark for any one byte, every other
    byte for itself. *)
Inductive wildcardMatch : str -> str -> Prop :=
  | wm_nil : wildcardMatch [] []
  | wm_star p s t :
      wildcardMatch p s -> wildcardMatch ("*"%char :: p) (t ++ s)
  | wm_any p s x :
      wildcardMatch p s -> wildcardMatch ("?"%char :: p) (x :: s)
  | wm_byte c p s :
      c <> "*"%char -> c <> "?"%char ->
      wildcardMatch p s -> wildcardMatch (c :: p) (c :: s).

(** A star-free stretch of a pattern against the bytes it pairs with. *)
Definition bytewise (q t : str) : Prop :=
  Forall2 (fun x y => x <> "*"%char /\ (x = "?"%char \/ x = y)) q t.

(** The dir-only component loop on the list of the candidate's elements:
    an element is tried when it is not empty; the last element only for a
    directory. *)
Fixpoint dirHitB (hit : str -> bool) (isDir : bool) (comps : list str)
  : bool :=
  match comps with
  | [] => false
  | comp :: rest =>
      match rest with
      | [] => negb (bool_decide (comp = [])) && isDir && hit comp
      | _ :: _ =>
          (negb (bool_decide (comp = [])) && hit comp)
          || dirHitB hit isDir rest
      end
  end.

(** An element of [candidate] that [hit] accepts and that names a
    directory: any element but the last, or the last one of a
    directory. *)
Definition dirComponentHit (hit : str -> bool) (candidate : str)
    (isDir : bool) : Prop :=
  exists (k : nat) (comp : str),
    splitSlash candidate !! k = Some comp
    /\ comp <> [] /\ hit comp = true
    /\ (k + 1 < length (splitSlash candidate) \/ isDir = true).

(** The candidate holds, from a segment boundary on, one accepted element
    per segment, and ends there; for a dir-only rule a slash may follow
    instead.  [pre] is empty for an anchored rule. *)
Definition pathSegmentsMatch (segs : list segmentPattern)
    (anchored dirOnly : bool) (candidate : str) : Prop :=
  exists (pre : str) (comps : list str) (rest : str),
    candidate = pre ++ joinSlash comps ++ rest
    /\ (pre = [] \/ last pre = Some "/"%char)
    /\ (anchored = true -> pre = [])
    /\ Forall2 segmentAccepts segs comps
    /\ (rest = [] \/ (dirOnly = true /\ head rest = Some "/"%char)).

(** *** More sample rules

    A dir-only name, a name glob and a segmented path glob, compiled
    without a regular-expression engine. *)

Module Cases.

Definition compiledOr (rule : Rule) : compiledRule Sample.Re :=
  match compileRule Sample.reCompile rule false with
  | inr cr => cr
  | inl _ => baseRule Sample.Re rule false false false
  end.

Definition buildRule : Rule := mkRule $"build/" ActionExclude.
Definition buildCompiled : compiledRule Sample.Re :=
  Eval vm_compute in compiledOr buildRule.

Definition tmpRule : Rule := mkRule $"*.tmp" ActionExclude.
Definition tmpCompiled : compiledRule Sample.Re :=
  Eval vm_compute in compiledOr tmpRule.

Definition srcRule : Rule := mkRule $"src/*.d/" ActionExclude.
Definition srcCompiled : compiledRule Sample.Re :=
  Eval vm_compute in compiledOr srcRule.

End Cases.


(** An extension made of bytes that mean nothing special in a pattern:
    no wildcard, no bracket, no slash and no backslash. *)
Definition plainExtension (e : str) : bool :=
  forallb (fun c => negb (inCutset $"*?[/\" c)) e.


(** Strings without a slash or a backslash: the bytes the separator
    replacement can neither change nor produce. *)
Definition noSeparators (s : str) : bool :=
  forallb (fun k => negb (Ascii.eqb k "\") && negb (Ascii.eqb k "/")) s.

(** * Properties *)

(** ** The source's own test cases, evaluated *)

Example normalizePath_ex1 :
  normalizePath $" .\a\\b/../c/ " = $"a/c".
Proof. vm_compute. reflexivity. Qed.

Example normalizePath_ex2 : normalizePath $"src\MAIN.cpp" = $"src/MAIN.cpp".
Proof. vm_compute. reflexivity. Qed.

Example asciiLower_ex : asciiLower $"src/MAIN.cpp" = $"src/main.cpp".
Proof. vm_compute. reflexivity. Qed.

Example ParseRules_test :
  ParseRules ($"" ++ LF ++ $"# comment" ++ LF ++ $"*.tmp" ++ LF
              ++ $"!keep.tmp" ++ LF ++ $"\#literal" ++ LF ++ $"\!bang" ++ LF
              ++ $"name\ " ++ LF)
  = inr [ mkRule $"*.tmp" ActionExclude; mkRule $"keep.tmp" ActionInclude;
          mkRule $"#literal" ActionExclude; mkRule $"!bang" ActionExclude;
          mkRule $"name " ActionExclude ].
Proof. vm_compute. reflexivity. Qed.

Example globToRegexPath_ex :
  globToRegexPath $"a/**/b[!x].c*" = $"a/(?:.*/)?b[^x]\.c[^/]*".
Proof. vm_compute. reflexivity. Qed.

Example compilePathSegments_ex :
  compilePathSegments $"a/b*/c"
  = [ mkSegmentPattern $"a" false; mkSegmentPattern $"b*" true;
      mkSegmentPattern $"c" false ].
Proof. vm_compute. reflexivity. Qed.

Example matchSimpleWildcard_ex1 : matchSimpleWildcard $"*.c?p" $"main.cpp" = true.
Proof. vm_compute. reflexivity. Qed.

Example matchSimpleWildcard_ex2 : matchSimpleWildcard $"a*b*c" $"aXbYbZ" = false.
Proof. vm_compute. reflexivity. Qed.

Example containsDirPath_ex :
  containsDirPath $"a/b" $"x/a/b/c" false = true
  /\ containsDirPath $"a/b" $"x/a/b" false = false
  /\ containsDirPath $"a/b" $"x/a/b" true = true
  /\ containsDirPath $"a/b" $"xa/b/c" true = false.
Proof. vm_compute. auto. Qed.

(** ** The matcher: compile errors and last match wins *)

Section MatcherProperties.

Context {Regexp : Type}.
Variable rc : str -> option Regexp.
Variable rm : Regexp -> str -> bool.

Lemma compileRules_inr rules ci acc l :
  compileRules rc rules ci acc = inr l ->
  exists l', l = acc ++ l'
    /\ Forall2 (fun rule cr => compileRule rc rule ci = inr cr) rules l'.
Proof.
  revert acc l. induction rules as [|rule rest IH]; intros acc l; simpl.
  - intros [= <-]. exists []. rewrite app_nil_r. split; [done | constructor].
  - destruct (compileRule rc rule ci) as [err|cr] eqn:E; [done |].
    intros H. apply IH in H as (l' & -> & HF).
    exists (cr :: l'). rewrite <- app_assoc. split; [done |].
    constructor; done.
Qed.

Lemma compileRules_inl rules ci acc err :
  compileRules rc rules ci acc = inl err ->
  exists i rule, rules !! i = Some rule
    /\ compileRule rc rule ci = inl err
    /\ forall j r, j < i -> rules !! j = Some r ->
         exists cr, compileRule rc r ci = inr cr.
Proof.
  revert acc. induction rules as [|rule rest IH]; intros acc; simpl; [done |].
  destruct (compileRule rc rule ci) as [e|cr] eqn:E.
  - intros [= ->]. exists 0, rule. repeat split; [done |]. intros j r Hj. lia.
  - intros H. apply IH in H as (i & r0 & Hi & Hc & Hbefore).
    exists (S i), r0. repeat split; [done.. |].
    intros [|j] r Hj Hr; simpl in Hr.
    + injection Hr as <-. eauto.
    + apply (Hbefore j); [lia | done].
Qed.

Lemma compileRules_all_ok rules ci acc :
  Forall (fun r => exists cr, compileRule rc r ci = inr cr) rules ->
  exists l, compileRules rc rules ci acc = inr l.
Proof.
  intros H. revert acc. induction H as [|r rest [cr Hcr] _ IH]; intros acc; simpl.
  - eauto.
  - rewrite Hcr. apply IH.
Qed.

Lemma decideLoop_spec (rules : list (compiledRule Regexp)) i c d res :
  (exists k r, rules !! k = Some r
     /\ matches rm r c d = true
     /\ (forall j r', k < j -> rules !! j = Some r' -> matches rm r' c d = false)
     /\ decideLoop rm rules i c d res
        = mkMatchResult (N.eqb (RAction (source r)) ActionInclude) true
            (i + Z.of_nat k))
  \/ ((forall r, r ∈ rules -> matches rm r c d = false)
      /\ decideLoop rm rules i c d res = res).
Proof.
  revert i res. induction rules as [|r rest IH]; intros i res; simpl.
  - right. split; [|done]. intros r Hr. inversion Hr.
  - destruct (matches rm r c d) eqn:Hm; simpl.
    + destruct (IH (i + 1)%Z
                  (mkMatchResult (N.eqb (RAction (source r)) ActionInclude)
                     true i)) as [(k & r0 & Hk & Hm0 & Hlast & Heq)|[Hnone Heq]].
      * left. exists (S k), r0. repeat split; [done.. | |].
        -- intros [|j] r' Hj Hr'; [lia |]. simpl in Hr'.
           apply (Hlast j); [lia | done].
        -- rewrite Heq. f_equal. lia.
      * left. exists 0, r. repeat split; [done.. | |].
        -- intros [|j] r' Hj Hr'; [lia |]. simpl in Hr'.
           apply Hnone. by eapply list_elem_of_lookup_2.
        -- rewrite Heq. f_equal. lia.
    + destruct (IH (i + 1)%Z res)
        as [(k & r0 & Hk & Hm0 & Hlast & Heq)|[Hnone Heq]].
      * left. exists (S k), r0. repeat split; [done.. | |].
        -- intros [|j] r' Hj Hr'; [lia |]. simpl in Hr'.
           apply (Hlast j); [lia | done].
        -- rewrite Heq. f_equal. lia.
      * right. split; [|done]. intros r' Hr'.
        apply elem_of_cons in Hr' as [->|Hr']; [done | by apply Hnone].
Qed.

Lemma NewMatcher_inr rules opts m :
  NewMatcher rc rules opts = inr m ->
  caseInsensitive m = CaseInsensitive opts
  /\ defaultAction m = DefaultAction (applyDefaults opts)
  /\ Forall2 (fun rule cr => compileRule rc rule (CaseInsensitive opts) = inr cr)
       rules (compiled m).
Proof.
  unfold NewMatcher.
  assert (Hci : CaseInsensitive (applyDefaults opts) = CaseInsensitive opts).
  { unfold applyDefaults. by destruct (Action_valid _). }
  rewrite Hci.
  destruct (compileRules rc rules (CaseInsensitive opts) []) as [e|l] eqn:E;
    [done |].
  intros [= <-]. simpl. apply compileRules_inr in E as (l' & -> & HF).
  done.
Qed.

Lemma compileRule_source rule ci cr :
  compileRule rc rule ci = inr cr -> source cr = rule.
Proof.
  unfold compileRule. intros H.
  repeat match type of H with
         | (if ?b then _ else _) = _ => destruct b
         | (let '(_, _) := ?p in _) = _ => destruct p
         | match ?x with _ => _ end = _ => destruct x
         end; try discriminate; by injection H as <-.
Qed.

End MatcherProperties.

(** ** Facts on the string primitives *)

Section StringFacts.

Lemma eqb_true (a b : ascii) : Ascii.eqb a b = true <-> a = b.
Proof. apply Ascii.eqb_eq. Qed.

Lemma eqb_false (a b : ascii) : Ascii.eqb a b = false <-> a <> b.
Proof. apply Ascii.eqb_neq. Qed.

Lemma HasPrefix_spec (s p : str) :
  HasPrefix s p = true <-> exists t, s = p ++ t.
Proof.
  revert s. induction p as [|a p IH]; intros s.
  - simpl. split; [eauto | done].
  - destruct s as [|c s]; simpl.
    + split; [done | intros [t Ht]; done].
    + rewrite andb_true_iff, eqb_true, IH. split.
      * intros [-> [t ->]]. eauto.
      * intros [t [= -> ->]]. eauto.
Qed.

Lemma HasPrefix_app (p t : str) : HasPrefix (p ++ t) p = true.
Proof. apply HasPrefix_spec. eauto. Qed.

Lemma HasPrefix_false (s p : str) :
  HasPrefix s p = false <-> forall t, s <> p ++ t.
Proof.
  rewrite <- not_true_iff_false, HasPrefix_spec. split.
  - intros H t Ht. apply H. eauto.
  - intros H [t Ht]. by apply (H t).
Qed.

Lemma HasSuffix_spec (s p : str) :
  HasSuffix s p = true <-> exists t, s = t ++ p.
Proof.
  unfold HasSuffix. rewrite andb_true_iff, Nat.leb_le, bool_decide_eq_true.
  split.
  - intros [Hlen Hd]. exists (take (length s - length p) s).
    transitivity (take (length s - length p) s ++ drop (length s - length p) s);
      [by rewrite take_drop | by rewrite Hd].
  - intros [t ->]. rewrite length_app. split; [lia |].
    replace (length t + length p - length p) with (length t) by lia.
    by rewrite drop_app_length.
Qed.

Lemma HasSuffix_app (t p : str) : HasSuffix (t ++ p) p = true.
Proof. apply HasSuffix_spec. eauto. Qed.

Lemma HasSuffix_false (s p : str) :
  HasSuffix s p = false <-> forall t, s <> t ++ p.
Proof.
  rewrite <- not_true_iff_false, HasSuffix_spec. split.
  - intros H t Ht. apply H. eauto.
  - intros H [t Ht]. by apply (H t).
Qed.

Lemma TrimPrefix_app (p t : str) : TrimPrefix (p ++ t) p = t.
Proof. unfold TrimPrefix. by rewrite HasPrefix_app, drop_app_length. Qed.

Lemma TrimSuffix_app (t p : str) : TrimSuffix (t ++ p) p = t.
Proof.
  unfold TrimSuffix. rewrite HasSuffix_app, length_app.
  replace (length t + length p - length p) with (length t) by lia.
  by rewrite take_app_length.
Qed.

(** [Index] finds the first occurrence. *)
Lemma Index_Some (s sub : str) (i : nat) :
  Index s sub = Some i <->
  HasPrefix (drop i s) sub = true /\ i <= length s
  /\ forall j, j < i -> HasPrefix (drop j s) sub = false.
Proof.
  revert i. induction s as [|c s IH]; intros i.
  - cbn [Index]. destruct (HasPrefix [] sub) eqn:E.
    + split.
      * intros [= <-]. cbn [skipn length]. repeat split; [done | lia | intros; lia].
      * intros (H1 & H2 & H3). cbn [length] in H2. by replace i with 0 by lia.
    + split; [done |]. intros (H1 & H2 & H3). rewrite drop_nil in H1.
      congruence.
  - cbn [Index]. destruct (HasPrefix (c :: s) sub) eqn:E.
    + split.
      * intros [= <-]. cbn [skipn length].
        repeat split; [done | lia | intros; lia].
      * intros (H1 & H2 & H3). destruct i as [|i]; [done |].
        specialize (H3 0 ltac:(lia)). cbn [skipn] in H3. congruence.
    + destruct i as [|i].
      * split.
        -- destruct (Index s sub); done.
        -- intros (H1 & _). cbn [skipn] in H1. congruence.
      * cbn [skipn length]. destruct (Index s sub) as [k|] eqn:Ek; simpl.
        -- split.
           ++ intros [= ->]. destruct (proj1 (IH i) eq_refl) as (H1 & H2 & H3).
              repeat split; [done | lia |].
              intros [|j] Hj; [done |]. cbn [skipn]. apply H3. lia.
           ++ intros (H1 & H2 & H3).
              assert (Some k = Some i) as [= ->]; [|done]. apply IH.
              repeat split; [done | lia |].
              intros j Hj. apply (H3 (S j)). lia.
        -- split; [done |]. intros (H1 & H2 & H3).
           assert (None = Some i) as Hx; [|done].
           apply IH. repeat split; [done | lia |].
           intros j Hj. apply (H3 (S j)). lia.
Qed.

Lemma Index_None (s sub : str) :
  Index s sub = None <-> forall j, j <= length s -> HasPrefix (drop j s) sub = false.
Proof.
  induction s as [|c s IH].
  - cbn [Index]. destruct (HasPrefix [] sub) eqn:E.
    + split; [done |]. intros H. specialize (H 0 ltac:(lia)).
      cbn [skipn] in H. congruence.
    + split; [|done]. intros _ j Hj. by rewrite drop_nil.
  - cbn [Index]. destruct (HasPrefix (c :: s) sub) eqn:E.
    + split; [done |]. intros H. specialize (H 0 ltac:(lia)).
      cbn [skipn] in H. congruence.
    + destruct (Index s sub) as [k|] eqn:Ek; simpl.
      * split; [done |]. intros H.
        assert (Some k = None) as Hx; [|done].
        apply IH. intros j Hj. apply (H (S j)). cbn [length]. lia.
      * split; [|done]. intros _ [|j] Hj; [done |]. cbn [skipn].
        apply IH; [done | cbn [length] in Hj; lia].
Qed.

Lemma occurs_drop (s sub pre post : str) :
  s = pre ++ sub ++ post -> HasPrefix (drop (length pre) s) sub = true.
Proof. intros ->. rewrite drop_app_length. apply HasPrefix_app. Qed.

Lemma Contains_spec (s sub : str) :
  Contains s sub = true <-> exists pre post, s = pre ++ sub ++ post.
Proof.
  unfold Contains. destruct (Index s sub) as [i|] eqn:E.
  - split; [intros _ | done].
    apply Index_Some in E as (H1 & H2 & _).
    apply HasPrefix_spec in H1 as [t Ht].
    exists (take i s), t. by rewrite <- Ht, take_drop.
  - split; [done |]. intros (pre & post & Hs).
    pose proof (proj1 (Index_None s sub) E (length pre)) as H.
    rewrite (occurs_drop _ _ _ _ Hs) in H.
    assert (length pre <= length s); [|by specialize (H ltac:(done))].
    rewrite Hs, length_app. lia.
Qed.

Lemma Contains_false (s sub : str) :
  Contains s sub = false <-> forall pre post, s <> pre ++ sub ++ post.
Proof.
  rewrite <- not_true_iff_false, Contains_spec. split.
  - intros H pre post Hs. apply H. eauto.
  - intros H (pre & post & Hs). by apply (H pre post).
Qed.

Lemma IndexByte_Some (s : str) (c : ascii) (i : nat) :
  IndexByte s c = Some i <-> s !! i = Some c /\ c ∉ take i s.
Proof.
  revert i. induction s as [|x s IH]; intros i; simpl.
  - split; [done |]. by intros [H _].
  - destruct (Ascii.eqb x c) eqn:E.
    + apply eqb_true in E as ->. split.
      * intros [= <-]. split; [done |]. simpl. apply not_elem_of_nil.
      * intros [H1 H2]. destruct i as [|i]; [done |].
        exfalso. apply H2. simpl. apply elem_of_cons. by left.
    + apply eqb_false in E. destruct i as [|i].
      * split.
        -- destruct (IndexByte s c); done.
        -- intros [[= ->] _]. done.
      * destruct (IndexByte s c) as [k|] eqn:Ek; simpl.
        -- split.
           ++ intros [= ->]. destruct (proj1 (IH i) eq_refl) as [H1 H2].
              split; [done |].
              rewrite not_elem_of_cons. split; [congruence | done].
           ++ intros [H1 H2].
              assert (Some k = Some i) as [= ->]; [|done]. apply IH.
              split; [done |].
              rewrite not_elem_of_cons in H2. tauto.
        -- split; [done |]. intros [H1 H2].
           assert (None = Some i) as Hx; [|done]. apply IH.
           split; [done |]. rewrite not_elem_of_cons in H2. tauto.
Qed.

Lemma IndexByte_None (s : str) (c : ascii) :
  IndexByte s c = None <-> c ∉ s.
Proof.
  induction s as [|x s IH]; simpl.
  - split; [intros _; apply not_elem_of_nil | done].
  - destruct (Ascii.eqb x c) eqn:E.
    + apply eqb_true in E as ->. split; [done |].
      intros H. exfalso. apply H. apply elem_of_cons. by left.
    + apply eqb_false in E. rewrite not_elem_of_cons.
      destruct (IndexByte s c) eqn:Ek; simpl.
      * split; [done |]. intros [_ H]. apply IH in H. done.
      * split; [|done]. intros _. split; [congruence | by apply IH].
Qed.

Lemma IndexByte_lt (s : str) (c : ascii) (i : nat) :
  IndexByte s c = Some i -> i < length s.
Proof. intros H. apply IndexByte_Some in H as [H _]. by eapply lookup_lt_Some. Qed.

Lemma byteIs_true (s : str) (i : nat) (c : ascii) :
  byteIs s i c = true <-> s !! i = Some c.
Proof. unfold byteIs. apply bool_decide_eq_true. Qed.

Lemma byteIs_false (s : str) (i : nat) (c : ascii) :
  byteIs s i c = false <-> s !! i <> Some c.
Proof. unfold byteIs. apply bool_decide_eq_false. Qed.

End StringFacts.

(** ** C9 and C1: compile errors, last match wins *)

Section MatcherClaims.

Context {Regexp : Type}.
Variable rc : str -> option Regexp.
Variable rm : Regexp -> str -> bool.

Lemma compileRule_invalid_action rule ci :
  Action_valid (RAction rule) = false ->
  compileRule rc rule ci = inl ErrInvalidRule.
Proof. intros H. unfold compileRule. by rewrite H. Qed.

Lemma compileRule_empty_prepared rule ci :
  Action_valid (RAction rule) = true ->
  preparedPattern rule ci = [] ->
  compileRule rc rule ci = inl ErrInvalidPattern.
Proof.
  intros Hv Hp. unfold compileRule. rewrite Hv. cbn [negb].
  unfold preparedPattern in Hp. cbv zeta in Hp. rewrite Hp.
  by rewrite bool_decide_eq_true_2.
Qed.

Lemma compileRule_empty_stripped rule ci :
  Action_valid (RAction rule) = true ->
  strippedPattern rule ci = [] ->
  compileRule rc rule ci = inl ErrInvalidPattern.
Proof.
  intros Hv Hp. unfold compileRule. rewrite Hv. cbn [negb].
  unfold strippedPattern, preparedPattern in Hp. cbv zeta in Hp.
  case_bool_decide; [done |]. cbv zeta. rewrite Hp.
  by rewrite bool_decide_eq_true_2.
Qed.

(** C9. [NewMatcher] returns the first compile error in rule input order
    and a matcher only if every rule compiles.  [compileRule] fails with
    [ErrInvalidRule] for an action that is neither Include nor Exclude,
    whatever the pattern, and with [ErrInvalidPattern] for a pattern that
    is empty after normalization or after its leading and trailing
    slashes are stripped. *)
Theorem C9_NewMatcher_compile_errors (rules : list Rule) (opts : MatcherOptions) :
  let ci := CaseInsensitive opts in
  (forall rule, Action_valid (RAction rule) = false ->
     compileRule rc rule ci = inl ErrInvalidRule)
  /\ (forall rule, Action_valid (RAction rule) = true ->
        normalizePattern (Pattern rule) = [] ->
        compileRule rc rule ci = inl ErrInvalidPattern)
  /\ (forall rule, Action_valid (RAction rule) = true ->
        strippedPattern rule ci = [] ->
        compileRule rc rule ci = inl ErrInvalidPattern)
  /\ (forall err, NewMatcher rc rules opts = inl err ->
        exists i rule, rules !! i = Some rule
          /\ compileRule rc rule ci = inl err
          /\ forall j r, j < i -> rules !! j = Some r ->
               exists cr, compileRule rc r ci = inr cr)
  /\ (forall m, NewMatcher rc rules opts = inr m ->
        Forall2 (fun rule cr => compileRule rc rule ci = inr cr)
          rules (compiled m))
  /\ (Forall (fun r => exists cr, compileRule rc r ci = inr cr) rules ->
        exists m, NewMatcher rc rules opts = inr m).
Proof.
  intros ci.
  assert (Hci : CaseInsensitive (applyDefaults opts) = ci).
  { unfold applyDefaults. by destruct (Action_valid _). }
  split; [|split; [|split; [|split; [|split]]]].
  - intros rule. apply compileRule_invalid_action.
  - intros rule Hv Hp. apply compileRule_empty_prepared; [done |].
    unfold preparedPattern. cbv zeta. rewrite Hp. by destruct ci.
  - intros rule. apply compileRule_empty_stripped.
  - intros err. unfold NewMatcher. rewrite Hci.
    destruct (compileRules rc rules ci []) as [e|l] eqn:E; [|done].
    intros [= ->]. by eapply compileRules_inl.
  - intros m Hm. by apply NewMatcher_inr in Hm as (_ & _ & HF).
  - intros HF. unfold NewMatcher. rewrite Hci.
    destruct (compileRules_all_ok rc rules ci [] HF) as [l ->]. eauto.
Qed.

(** C1. For a matcher built by [NewMatcher] from [rules], [Decide]
    normalizes the path (and lowers it when the matcher is case
    insensitive) and returns the decision of the last rule whose compiled
    form matches that candidate, with its index in [rules]; when no rule
    matches it returns the default action, unmatched, with index -1.  The
    default action is the one of the options after [applyDefaults]. *)
Theorem C1_Decide_last_match_wins (rules : list Rule) (opts : MatcherOptions)
    (m : Matcher Regexp) (path : str) (isDir : bool) :
  NewMatcher rc rules opts = inr m ->
  let c := decideCandidate (CaseInsensitive opts) path in
  Forall2 (fun rule cr => compileRule rc rule (CaseInsensitive opts) = inr cr)
    rules (compiled m)
  /\ defaultAction m = DefaultAction (applyDefaults opts)
  /\ ((exists i rule cr,
         rules !! i = Some rule /\ compiled m !! i = Some cr
         /\ matches rm cr c isDir = true
         /\ (forall j cr', i < j -> compiled m !! j = Some cr' ->
               matches rm cr' c isDir = false)
         /\ Decide rm m path isDir
            = mkMatchResult (N.eqb (RAction rule) ActionInclude) true
                (Z.of_nat i))
      \/ ((forall cr, cr ∈ compiled m -> matches rm cr c isDir = false)
          /\ Decide rm m path isDir
             = mkMatchResult (N.eqb (defaultAction m) ActionInclude) false
                 (-1))).
Proof.
  intros Hm c. apply NewMatcher_inr in Hm as (Hci & Hda & HF).
  split; [done |]. split; [done |].
  unfold Decide. rewrite Hci. fold (decideCandidate (CaseInsensitive opts) path).
  fold c.
  destruct (decideLoop_spec rm (compiled m) 0 c isDir
              (mkMatchResult (N.eqb (defaultAction m) ActionInclude) false (-1)))
    as [(k & r & Hk & Hmatch & Hlast & Heq)|[Hnone Heq]].
  - left.
    destruct (Forall2_lookup_r _ _ _ _ _ HF Hk) as (rule & Hrule & Hcomp).
    exists k, rule, r. repeat split; [done.. |].
    rewrite Heq. by rewrite (compileRule_source rc _ _ _ Hcomp).
  - right. done.
Qed.

End MatcherClaims.

(** ** C6: the rule parser *)

Section ParserClaims.

Lemma isBlank_not_backslash (c : ascii) : isBlank c = true -> c <> "\"%char.
Proof. intros H ->. done. Qed.

Lemma trimTrailingSpaces_loop_blank fuel (s : str) (w : ascii) :
  isBlank w = true ->
  trimTrailingSpaces_loop (S fuel) (s ++ [w])
  = if bool_decide (last s = Some "\"%char)
    then take (length s - 1) s ++ [w]
    else trimTrailingSpaces_loop fuel s.
Proof.
  intros Hw. cbn [trimTrailingSpaces_loop]. rewrite last_snoc, Hw.
  rewrite length_app. cbn [length].
  destruct (decide (s = [])) as [->|Hne].
  - simpl. by destruct fuel.
  - assert (1 <= length s) by (destruct s; [done | simpl; lia]).
    replace (2 <=? length s + 1) with true by (symmetry; apply Nat.leb_le; lia).
    cbn [andb].
    replace (length s + 1 - 2) with (length s - 1) by lia.
    replace (length s + 1 - 1) with (length s) by lia.
    rewrite lookup_app_l by lia.
    rewrite last_lookup. replace (pred (length s)) with (length s - 1) by lia.
    case_bool_decide.
    + rewrite take_app_le by lia. by rewrite drop_app_length.
    + by rewrite take_app_length.
Qed.

Lemma trimTrailingSpaces_loop_done fuel (s : str) :
  (forall c, last s = Some c -> isBlank c = false) ->
  trimTrailingSpaces_loop fuel s = s.
Proof.
  intros H. destruct fuel; [done |]. cbn [trimTrailingSpaces_loop].
  destruct (last s) as [c|]; [|done]. by rewrite (H c).
Qed.

Lemma last_app_blank (body ws : str) (c : ascii) :
  Forall (fun w => isBlank w = true) ws -> ws <> [] ->
  last (body ++ ws) = Some c -> isBlank c = true.
Proof.
  intros HF Hne. destruct ws as [|w ws _] using rev_ind; [done |].
  rewrite app_assoc, last_snoc. intros [= <-].
  apply Forall_app in HF as [_ HF]. by inversion HF.
Qed.

Lemma trimTrailingSpaces_loop_plain fuel (body ws : str) :
  Forall (fun w => isBlank w = true) ws ->
  (forall c, last body = Some c -> isBlank c = false) ->
  ws = [] \/ last body <> Some "\"%char ->
  length ws <= fuel ->
  trimTrailingSpaces_loop fuel (body ++ ws) = body.
Proof.
  intros HF Hbody. revert fuel.
  induction ws as [|w ws IH] using rev_ind; intros fuel Hesc Hfuel.
  - rewrite app_nil_r. by apply trimTrailingSpaces_loop_done.
  - apply Forall_app in HF as [HF Hw]. inversion Hw as [|? ? Hw' _]; subst.
    rewrite length_app in Hfuel. cbn [length] in Hfuel.
    destruct fuel as [|fuel]; [lia |].
    rewrite app_assoc, trimTrailingSpaces_loop_blank by done.
    destruct Hesc as [Hesc|Hesc]; [by destruct ws |].
    rewrite bool_decide_eq_false_2.
    + apply IH; [done | by right | lia].
    + destruct (decide (ws = [])) as [->|Hne].
      * by rewrite app_nil_r.
      * intros Hl. apply (last_app_blank body ws) in Hl; done.
Qed.

Lemma trimTrailingSpaces_loop_escaped fuel (body ws : str) (w : ascii) :
  isBlank w = true ->
  Forall (fun w => isBlank w = true) ws ->
  S (length ws) <= fuel ->
  trimTrailingSpaces_loop fuel (body ++ "\"%char :: w :: ws) = body ++ [w].
Proof.
  intros Hw HF. revert fuel.
  induction ws as [|x ws IH] using rev_ind; intros fuel Hfuel.
  - destruct fuel as [|fuel]; [cbn [length] in Hfuel; lia |].
    change (body ++ ["\"%char; w]) with (body ++ ["\"%char] ++ [w]).
    rewrite app_assoc, trimTrailingSpaces_loop_blank by done.
    rewrite last_snoc, bool_decide_eq_true_2 by done.
    rewrite length_app. cbn [length].
    replace (length body + 1 - 1) with (length body) by lia.
    by rewrite take_app_length.
  - apply Forall_app in HF as [HF Hx]. inversion Hx as [|? ? Hx' _]; subst.
    rewrite length_app in Hfuel. cbn [length] in Hfuel.
    destruct fuel as [|fuel]; [lia |].
    change (body ++ "\"%char :: w :: ws ++ [x])
      with (body ++ ("\"%char :: w :: ws) ++ [x]).
    rewrite app_assoc, trimTrailingSpaces_loop_blank by done.
    rewrite bool_decide_eq_false_2.
    + apply IH; [done | lia].
    + intros Hl.
      change (body ++ "\"%char :: w :: ws)
        with (body ++ ["\"%char] ++ (w :: ws)) in Hl.
      rewrite app_assoc in Hl.
      apply last_app_blank in Hl; [done | by constructor | done].
Qed.

Lemma TrimLeft_all (s cutset : str) :
  Forall (fun c => inCutset cutset c = true) s -> TrimLeft s cutset = [].
Proof. induction 1 as [|c s Hc _ IH]; simpl; [done |]. by rewrite Hc. Qed.

Lemma TrimLeft_app_all (s t cutset : str) :
  Forall (fun c => inCutset cutset c = true) s ->
  TrimLeft (s ++ t) cutset = TrimLeft t cutset.
Proof. induction 1 as [|c s Hc _ IH]; simpl; [done |]. by rewrite Hc. Qed.

Lemma TrimLeft_stop (s cutset : str) :
  (forall c, head s = Some c -> inCutset cutset c = false) ->
  TrimLeft s cutset = s.
Proof. destruct s as [|c s]; simpl; [done |]. intros H. by rewrite (H c). Qed.

Lemma head_rev {A} (l : list A) : head (rev l) = last l.
Proof.
  destruct l as [|x l _] using rev_ind; [done |].
  by rewrite rev_app_distr, last_snoc.
Qed.

Lemma TrimRight_spec (t ws cutset : str) :
  Forall (fun c => inCutset cutset c = true) ws ->
  (forall c, last t = Some c -> inCutset cutset c = false) ->
  TrimRight (t ++ ws) cutset = t.
Proof.
  intros HF Ht. unfold TrimRight. rewrite rev_app_distr.
  rewrite TrimLeft_app_all by (by apply Forall_rev).
  rewrite TrimLeft_stop; [apply rev_involutive |].
  intros c Hc. apply Ht. by rewrite <- Hc, head_rev.
Qed.

Lemma TrimRight_dropCR (l : str) :
  TrimRight (dropCR l) [B 13] = TrimRight l [B 13].
Proof.
  unfold dropCR. destruct l as [|c l _] using rev_ind; [done |].
  rewrite last_snoc. destruct (Ascii.eqb c (B 13)) eqn:E; [|done].
  apply eqb_true in E as ->. rewrite length_app. cbn [length].
  replace (length l + 1 - 1) with (length l) by lia.
  rewrite take_app_length. unfold TrimRight. rewrite rev_app_distr.
  reflexivity.
Qed.

Lemma parseLine_dropCR (l : str) : parseLine (dropCR l) = parseLine l.
Proof. unfold parseLine. by rewrite TrimRight_dropCR. Qed.

Lemma parseLine_spec (text : str) :
  parseLine text = specLineRule (trimTrailingSpaces (TrimRight text [B 13])).
Proof.
  unfold parseLine.
  set (line0 := TrimRight text [B 13]).
  case_bool_decide as H0.
  { rewrite H0. reflexivity. }
  set (line := trimTrailingSpaces line0).
  case_bool_decide as H1.
  { rewrite H1. reflexivity. }
  destruct line as [|a line']; [done |].
  destruct (Ascii.eqb a "#") eqn:Ea.
  { apply eqb_true in Ea as ->. reflexivity. }
  destruct (Ascii.eqb a "!") eqn:Eb.
  { apply eqb_true in Eb as ->. cbn. destruct line'; reflexivity. }
  destruct (Ascii.eqb a "\") eqn:Ec.
  - apply eqb_true in Ec as ->.
    destruct line' as [|b line'']; [reflexivity |].
    destruct (Ascii.eqb b "#") eqn:Ed.
    { apply eqb_true in Ed as ->. reflexivity. }
    destruct (Ascii.eqb b "!") eqn:Ee.
    { apply eqb_true in Ee as ->. reflexivity. }
    cbn. rewrite Ed. cbn. rewrite Ee. cbn.
    apply eqb_false in Ed, Ee.
    destruct b as [[] [] [] [] [] [] [] []]; try reflexivity; done.
  - cbn. rewrite Ea. cbn. rewrite Ec. cbn. rewrite Eb. cbn. rewrite ?Ec. cbn.
    apply eqb_false in Ea, Eb, Ec.
    destruct a as [[] [] [] [] [] [] [] []]; try reflexivity; done.
Qed.

Lemma rawLines_lines (lines : list str) :
  Forall (fun l => B 10 ∉ l) lines ->
  rawLines (flat_map (fun l => l ++ LF) lines) = lines.
Proof.
  induction 1 as [|l lines Hl _ IH]; [done |].
  cbn [flat_map]. rewrite <- app_assoc.
  induction l as [|c l IHl].
  - cbn. by rewrite IH.
  - apply not_elem_of_cons in Hl as [Hc Hl].
    cbn [app rawLines].
    replace (Ascii.eqb c (B 10)) with false
      by (symmetry; apply eqb_false; congruence).
    by rewrite (IHl Hl).
Qed.

(** C6. How [ParseRules] reads its input: the lines of the input, each
    ended by a line feed, are taken in order; a
    trailing carriage return is stripped; trailing blanks are trimmed,
    except that a blank after a backslash is kept, the backslash removed
    and the trimming stopped; of the trimmed line, empty lines, comments
    and empty patterns are skipped, [\#] and [\!] escape, [!] negates,
    and every other line is an Exclude rule. *)
Theorem C6_ParseRules_lines :
  (forall src : str,
     Forall (fun l => tooLong l = false) (rawLines src) ->
     ParseRules src = inr (omap parseLine (rawLines src)))
  /\ (forall lines : list str,
        Forall (fun l => B 10 ∉ l) lines ->
        rawLines (flat_map (fun l => l ++ LF) lines) = lines)
  /\ (forall text : str,
        parseLine text
        = specLineRule (trimTrailingSpaces (TrimRight text [B 13])))
  /\ (forall t crs : str,
        Forall (fun c => c = B 13) crs -> last t <> Some (B 13) ->
        TrimRight (t ++ crs) [B 13] = t)
  /\ (forall body ws : str,
        Forall (fun w => isBlank w = true) ws ->
        (forall c, last body = Some c -> isBlank c = false) ->
        ws = [] \/ last body <> Some "\"%char ->
        trimTrailingSpaces (body ++ ws) = body)
  /\ (forall (body ws : str) (w : ascii),
        isBlank w = true ->
        Forall (fun w => isBlank w = true) ws ->
        trimTrailingSpaces (body ++ "\"%char :: w :: ws) = body ++ [w]).
Proof.
  split; [|split; [|split; [|split; [|split]]]].
  - intros src Hlen. unfold ParseRules.
    replace (existsb tooLong (rawLines src)) with false.
    + f_equal. clear. induction (rawLines src) as [|l lines IH]; [done |].
      cbn [omap list_omap]. by rewrite parseLine_dropCR, IH.
    + symmetry. apply not_true_iff_false. intros H.
      apply existsb_exists in H as (l & Hin & Hl).
      rewrite Forall_forall in Hlen. apply list_elem_of_In in Hin.
      specialize (Hlen l Hin). congruence.
  - apply rawLines_lines.
  - apply parseLine_spec.
  - intros t crs Hcr Ht. apply TrimRight_spec.
    + eapply Forall_impl; [exact Hcr |]. by intros c ->.
    + intros c Hc. cbn. rewrite orb_false_r. apply eqb_false.
      intros ->. done.
  - intros body ws HF Hb Hesc. unfold trimTrailingSpaces.
    apply trimTrailingSpaces_loop_plain; [done.. |].
    rewrite length_app. lia.
  - intros body ws w Hw HF. unfold trimTrailingSpaces.
    apply trimTrailingSpaces_loop_escaped; [done.. |].
    rewrite length_app. cbn [length]. lia.
Qed.

End ParserClaims.

(** ** C4: literal path rules *)

Section PathExactFacts.

Lemma HasPrefix_length (s p : str) :
  HasPrefix s p = true -> length p <= length s.
Proof. intros H. apply HasPrefix_spec in H as [t ->]. rewrite length_app. lia. Qed.

Lemma containsDirPath_loop_spec (pattern candidate : str) (isDir : bool) :
  pattern <> [] ->
  forall fuel start,
    length candidate - start <= fuel ->
    (containsDirPath_loop fuel pattern candidate isDir start = true
     <-> exists idx, start <= idx /\ acceptedAt pattern candidate isDir idx).
Proof.
  intros Hne.
  assert (Hout : forall start, length candidate <= start ->
            ~ exists idx, start <= idx /\ acceptedAt pattern candidate isDir idx).
  { intros start Hs (idx & Hidx & Hp & _).
    apply HasPrefix_length in Hp. rewrite length_drop in Hp.
    destruct pattern; [done |]. simpl in Hp. lia. }
  induction fuel as [|fuel IH]; intros start Hfuel.
  - simpl. split; [done |]. intros H. exfalso. apply (Hout start); [lia | done].
  - cbn [containsDirPath_loop].
    destruct (length candidate <=? start) eqn:Hlen.
    { apply Nat.leb_le in Hlen. split; [done |]. intros H. exfalso.
      by apply (Hout start). }
    apply Nat.leb_gt in Hlen.
    destruct (Index (drop start candidate) pattern) as [idx0|] eqn:Ei.
    + apply Index_Some in Ei as (Hp & Hi & Hfirst).
      rewrite drop_drop in Hp. rewrite length_drop in Hi.
      replace (start + idx0) with (idx0 + start) in Hp by lia.
      set (idx := idx0 + start) in *.
      assert (Hacc :
        ((idx =? 0) || byteIs candidate (idx - 1) "/")
        && ((idx + length pattern =? length candidate)
            || byteIs candidate (idx + length pattern) "/")
        && ((idx + length pattern <? length candidate) || isDir) = true
        <-> acceptedAt pattern candidate isDir idx).
      { unfold acceptedAt.
        rewrite !andb_true_iff, !orb_true_iff, !byteIs_true,
          !Nat.eqb_eq, Nat.ltb_lt.
        tauto. }
      destruct (_ && _ && _) eqn:Eacc.
      * split; [intros _ | done]. exists idx. split; [lia | by apply Hacc].
      * rewrite IH by lia. split.
        -- intros (i & Hi' & Ha). exists i. split; [lia | done].
        -- intros (i & Hi' & Ha). exists i. split; [|done].
           destruct (decide (i = idx)) as [->|Hneq].
           { apply Hacc in Ha. congruence. }
           destruct (decide (i < idx)) as [Hlt|]; [|lia].
           destruct Ha as (Hp' & _).
           specialize (Hfirst (i - start) ltac:(lia)).
           rewrite drop_drop in Hfirst.
           replace (start + (i - start)) with i in Hfirst by lia. congruence.
    + split; [done |]. intros (i & Hi & Hp & _).
      pose proof (proj1 (Index_None _ _) Ei (i - start)) as Hn.
      rewrite length_drop, drop_drop in Hn.
      replace (start + (i - start)) with i in Hn by lia.
      apply HasPrefix_length in Hp as Hl. rewrite length_drop in Hl.
      assert (1 <= length pattern) by (destruct pattern; [done | simpl; lia]).
      rewrite Hn in Hp; [done | lia].
Qed.

Lemma acceptedAt_occurs (pattern candidate : str) (isDir : bool) :
  (exists idx, acceptedAt pattern candidate isDir idx)
  <-> dirPathOccurs pattern candidate isDir.
Proof.
  split.
  - intros (idx & Hp & Hbefore & Hafter & Hend).
    apply HasPrefix_spec in Hp as [post Hpost].
    exists (take idx candidate), post.
    assert (Hidx : idx <= length candidate).
    { destruct (decide (idx <= length candidate)); [done |].
      rewrite drop_ge in Hpost by lia. destruct pattern; [|done].
      simpl in *. destruct Hafter as [?|Ha]; [lia |].
      apply lookup_lt_Some in Ha. lia. }
    assert (Hc : candidate = take idx candidate ++ pattern ++ post).
    { by rewrite <- Hpost, take_drop. }
    assert (Hlen : length candidate = idx + length pattern + length post).
    { rewrite Hc at 1. rewrite !length_app, length_take. lia. }
    split; [done |]. split.
    + destruct Hbefore as [->|Hb]; [by left |].
      destruct (decide (idx = 0)) as [->|]; [by left |]. right.
      rewrite last_lookup, length_take.
      replace (pred (idx `min` length candidate)) with (idx - 1) by lia.
      rewrite lookup_take_lt by lia. done.
    + assert (Hat : candidate !! (idx + length pattern) = head post).
      { rewrite Hc, lookup_app_r by (rewrite length_take; lia).
        rewrite length_take.
        replace (idx + length pattern - idx `min` length candidate)
          with (length pattern) by lia.
        rewrite lookup_app_r by lia. rewrite Nat.sub_diag.
        by rewrite head_lookup. }
      destruct post as [|x post].
      * left. split; [done |]. destruct Hend as [Hend|]; [|done].
        simpl in Hlen. lia.
      * right. destruct Hafter as [Ha|Ha]; [simpl in Hlen; lia |].
        by rewrite <- Hat.
  - intros (pre & post & Hc & Hpre & Hpost).
    exists (length pre).
    assert (Hlen : length candidate = length pre + length pattern + length post).
    { rewrite Hc, !length_app. lia. }
    assert (Hat : candidate !! (length pre + length pattern) = head post).
    { rewrite Hc, lookup_app_r by lia.
      replace (length pre + length pattern - length pre)
        with (length pattern) by lia.
      rewrite lookup_app_r by lia. rewrite Nat.sub_diag.
      by rewrite head_lookup. }
    repeat split.
    + by eapply occurs_drop.
    + destruct Hpre as [->|Hl]; [by left |]. right.
      rewrite Hc, lookup_app_l.
      * rewrite last_lookup in Hl.
        by replace (length pre - 1) with (pred (length pre)) by lia.
      * destruct pre; [done | simpl; lia].
    + destruct Hpost as [[-> _]|Hh].
      * left. simpl in Hlen. lia.
      * right. by rewrite Hat.
    + destruct Hpost as [[-> ->]|Hh]; [by right |]. left.
      destruct post; [done |]. simpl in Hlen. lia.
Qed.

Lemma containsDirPath_spec (pattern candidate : str) (isDir : bool) :
  pattern <> [] ->
  containsDirPath pattern candidate isDir = true
  <-> dirPathOccurs pattern candidate isDir.
Proof.
  intros Hne. unfold containsDirPath.
  rewrite containsDirPath_loop_spec by (done || lia).
  rewrite <- acceptedAt_occurs. split.
  - intros (idx & _ & H). eauto.
  - intros (idx & H). exists idx. split; [lia | done].
Qed.

Lemma matchExactPathRule_spec (pattern candidate : str)
    (isDir anchored dirOnly : bool) :
  pattern <> [] -> candidate <> [] ->
  matchExactPathRule pattern candidate isDir anchored dirOnly = true
  <-> exactPathMatch pattern candidate isDir anchored dirOnly.
Proof.
  intros Hp Hc. unfold matchExactPathRule, exactPathMatch.
  rewrite !bool_decide_eq_false_2 by done. cbn [orb].
  destruct anchored, dirOnly; cbn [negb].
  - rewrite orb_true_iff, bool_decide_eq_true, HasPrefix_spec.
    split; (intros [H|[t H]]; [by left | right; exists t]).
    + by rewrite H, <- app_assoc.
    + by rewrite H, <- app_assoc.
  - apply bool_decide_eq_true.
  - by apply containsDirPath_spec.
  - rewrite orb_true_iff, bool_decide_eq_true, HasSuffix_spec. done.
Qed.

End PathExactFacts.

Section CompileFacts.

Context {Regexp : Type}.
Variable rc : str -> option Regexp.
Variable rm : Regexp -> str -> bool.

(** The fields of a compiled rule, as functions of the stripped
    pattern. *)
Lemma compileRule_inr rule ci (cr : compiledRule Regexp) :
  compileRule rc rule ci = inr cr ->
  let pp := preparedPattern rule ci in
  let sp := strippedPattern rule ci in
  let hs := Contains sp $"/" || HasPrefix pp $"/" in
  let pre := CutSuffix sp $"/**" in
  Action_valid (RAction rule) = true /\ pp <> [] /\ sp <> []
  /\ source cr = rule
  /\ anchored cr = HasPrefix pp $"/"
  /\ dirOnly cr = HasSuffix pp $"/"
  /\ hasSlash cr = hs
  /\ pathExact cr = (if hs && negb (patternHasGlobMeta sp) then sp else [])
  /\ pathPrefixSegments cr
     = (if hs && patternHasGlobMeta sp && snd pre
           && negb (bool_decide (fst pre = []))
           && canUseSimplePathSegments (fst pre)
        then compilePathSegments (fst pre) else []).
Proof.
  intros H pp sp hs pre. unfold compileRule in H.
  destruct (Action_valid (RAction rule)) eqn:Hv; [|done].
  cbv zeta in H. cbn [negb] in H.
  change (if ci then asciiLower (normalizePattern (Pattern rule))
          else normalizePattern (Pattern rule)) with pp in H.
  change (Trim (TrimSuffix (TrimPrefix pp $"/") $"/") $"/") with sp in H.
  change (Contains sp $"/" || HasPrefix pp $"/") with hs in H.
  change (CutSuffix sp $"/**") with pre in H.
  clearbody hs pre. clearbody sp. clearbody pp.
  case_bool_decide as Hpp; [done |].
  case_bool_decide as Hsp; [done |].
  destruct pre as [prefix ok]. cbn [fst snd].
  destruct hs, (patternHasGlobMeta sp); cbn [negb andb] in *.
  all: repeat match type of H with
         | (if ?b then _ else _) = _ => destruct b eqn:?
         | match ?x with _ => _ end = _ => destruct x eqn:?
         end; try discriminate.
  all: injection H as <-; cbn.
  all: repeat match goal with
         | Hx : _ && _ = true |- _ => apply andb_true_iff in Hx as [? ?]
         end.
  all: repeat split; try done.
  all: repeat match goal with
         | Hx : ?b = true |- context [?b] => rewrite Hx
         | Hx : ?b = false |- context [?b] => rewrite Hx
         end; cbn; try reflexivity.
  all: try (rewrite ?andb_false_r; reflexivity).
Qed.

(** C4. A rule compiled from a pattern with a slash (or anchored) and
    without glob meta keeps the stripped pattern as [pathExact], and on a
    non-empty candidate it matches: anchored, iff the candidate is the
    pattern (dir-only: or lies below it); unanchored, iff the candidate is
    the pattern or ends with a slash and the pattern; unanchored dir-only,
    iff the pattern occurs as a run of full segments, an occurrence at the
    end counting only for a directory. *)
Theorem C4_PathExact_matching rule ci (cr : compiledRule Regexp)
    (c : str) (isDir : bool) :
  compileRule rc rule ci = inr cr ->
  hasSlash cr = true ->
  patternHasGlobMeta (strippedPattern rule ci) = false ->
  c <> [] ->
  let p := strippedPattern rule ci in
  pathExact cr = p
  /\ hasSlash cr = Contains p $"/" || anchored cr
  /\ anchored cr = HasPrefix (preparedPattern rule ci) $"/"
  /\ dirOnly cr = HasSuffix (preparedPattern rule ci) $"/"
  /\ (matches rm cr c isDir = true
      <-> match anchored cr, dirOnly cr with
          | true, false => c = p
          | true, true => c = p \/ exists rest, c = p ++ $"/" ++ rest
          | false, false => c = p \/ exists pre, c = pre ++ $"/" ++ p
          | false, true => dirPathOccurs p c isDir
          end).
Proof.
  intros Hc Hs Hmeta Hne p.
  pose proof (compileRule_inr _ _ _ Hc) as H0. cbv zeta in H0.
  destruct H0 as (_ & _ & Hsp & _ & Ha & Hd & Hhs & Hpe & _).
  rewrite <- Hhs, Hs, Hmeta in Hpe. cbn [andb negb] in Hpe. fold p in Hpe, Hsp.
  split; [done |]. split; [by rewrite Ha |]. split; [done |]. split; [done |].
  unfold matches. rewrite bool_decide_eq_false_2 by done.
  rewrite Hs, Hpe, bool_decide_eq_false_2 by done. cbn [negb].
  by rewrite matchExactPathRule_spec.
Qed.

End CompileFacts.

(** ** Splitting and joining at slashes *)

Section SplitFacts.

Lemma splitSlash_ne (s : str) : splitSlash s <> [].
Proof.
  induction s as [|c s IH]; [done |]. simpl.
  destruct (Ascii.eqb c "/"); [done |]. by destruct (splitSlash s).
Qed.

Lemma splitSlash_plain (s : str) : "/"%char ∉ s -> splitSlash s = [s].
Proof.
  induction s as [|c s IH]; [done |]. intros H.
  apply not_elem_of_cons in H as [Hc Hs]. simpl.
  replace (Ascii.eqb c "/") with false by (symmetry; by apply eqb_false).
  by rewrite (IH Hs).
Qed.

Lemma splitSlash_app_slash (a b : str) :
  splitSlash (a ++ "/"%char :: b)
  = match splitSlash a with
    | [] => splitSlash b
    | _ => splitSlash a ++ splitSlash b
    end.
Proof.
  induction a as [|c a IH]; [done |]. cbn [app splitSlash].
  destruct (Ascii.eqb c "/") eqn:E.
  - rewrite IH. by destruct (splitSlash a) eqn:Ea; [destruct (splitSlash_ne a) |].
  - rewrite IH. destruct (splitSlash a) eqn:Ea; [by destruct (splitSlash_ne a) |].
    done.
Qed.

Lemma splitSlash_app (a b : str) :
  splitSlash (a ++ "/"%char :: b) = splitSlash a ++ splitSlash b.
Proof.
  rewrite splitSlash_app_slash.
  destruct (splitSlash a) eqn:E; [by destruct (splitSlash_ne a) | done].
Qed.

Lemma splitSlash_cons_plain (a b : str) :
  "/"%char ∉ a -> splitSlash (a ++ "/"%char :: b) = a :: splitSlash b.
Proof. intros H. by rewrite splitSlash_app, splitSlash_plain. Qed.

Lemma joinSlash_cons (e : str) (es : list str) :
  es <> [] -> joinSlash (e :: es) = e ++ "/"%char :: joinSlash es.
Proof. by destruct es. Qed.

Lemma splitSlash_join (elems : list str) :
  elems <> [] -> Forall (fun e => "/"%char ∉ e) elems ->
  splitSlash (joinSlash elems) = elems.
Proof.
  intros Hne HF. induction HF as [|e es He HF IH]; [done |].
  destruct es as [|e' es].
  - simpl. by apply splitSlash_plain.
  - rewrite joinSlash_cons, splitSlash_cons_plain by done.
    by rewrite IH.
Qed.

Lemma joinSlash_split (s : str) : joinSlash (splitSlash s) = s.
Proof.
  induction s as [|c s IH]; [done |]. cbn [splitSlash].
  destruct (Ascii.eqb c "/") eqn:E.
  - apply eqb_true in E as ->.
    rewrite joinSlash_cons by apply splitSlash_ne. by rewrite IH.
  - destruct (splitSlash s) as [|e es] eqn:Es; [by destruct (splitSlash_ne s) |].
    rewrite <- IH. by destruct es.
Qed.

Lemma splitSlash_no_slash (s : str) :
  Forall (fun e => "/"%char ∉ e) (splitSlash s).
Proof.
  induction s as [|c s IH]; simpl.
  - constructor; [apply not_elem_of_nil | constructor].
  - destruct (Ascii.eqb c "/") eqn:E.
    + constructor; [apply not_elem_of_nil | done].
    + apply eqb_false in E.
      destruct (splitSlash s) as [|e es] eqn:Es; [by destruct (splitSlash_ne s) |].
      inversion IH; subst. constructor; [|done].
      apply not_elem_of_cons. split; [congruence | done].
Qed.

(** Number of slash-separated elements. *)
Lemma splitSlash_length_app (a b : str) :
  length (splitSlash (a ++ b))
  = length (splitSlash a) + length (splitSlash b) - 1.
Proof.
  induction a as [|c a IH]; [simpl; lia |]. cbn [app splitSlash].
  pose proof (splitSlash_ne (a ++ b)). pose proof (splitSlash_ne a).
  destruct (Ascii.eqb c "/"); cbn [length].
  - rewrite IH. destruct (splitSlash a); [done |]. simpl. lia.
  - destruct (splitSlash (a ++ b)) eqn:E1; [done |].
    destruct (splitSlash a) eqn:E2; [done |].
    cbn [length] in *. lia.
Qed.

Lemma splitSlash_length_pos (s : str) : 1 <= length (splitSlash s).
Proof. pose proof (splitSlash_ne s). destruct (splitSlash s); [done | simpl; lia]. Qed.

End SplitFacts.

(** ** C5: rules with a trailing double star *)

Section SegmentFacts.

Lemma slice_drop (c : str) (i e : nat) :
  i <= e -> drop i c = slice c i e ++ drop e c.
Proof.
  intros H. unfold slice.
  replace (drop e c) with (drop (e - i) (drop i c)).
  - by rewrite take_drop.
  - rewrite drop_drop. f_equal. lia.
Qed.

Lemma segmentEnd_spec (c : str) (index : nat) :
  index <= length c ->
  (index <= segmentEnd c index /\ segmentEnd c index <= length c)
  /\ ("/"%char ∉ slice c index (segmentEnd c index))
  /\ (segmentEnd c index = length c
      \/ c !! segmentEnd c index = Some "/"%char).
Proof.
  intros Hi. unfold segmentEnd, slice.
  destruct (IndexByte (drop index c) "/") as [k|] eqn:E.
  - apply IndexByte_Some in E as [Hk Hnot].
    pose proof (lookup_lt_Some _ _ _ Hk) as Hlt. rewrite length_drop in Hlt.
    rewrite lookup_drop in Hk.
    replace (index + k - index) with k by lia.
    repeat split; [lia | lia | done | by right].
  - apply IndexByte_None in E.
    replace (index `max` length c) with (length c) by lia.
    repeat split; [lia | lia | | by left].
    rewrite take_ge by (rewrite length_drop; lia). done.
Qed.

Lemma segmentEnd_unique (c : str) (index : nat) (comp rest : str) :
  drop index c = comp ++ rest ->
  "/"%char ∉ comp ->
  rest = [] \/ head rest = Some "/"%char ->
  index <= length c ->
  segmentEnd c index = index + length comp.
Proof.
  intros Hd Hc Hr Hi. unfold segmentEnd. rewrite Hd.
  assert (Hlen : length c - index = length comp + length rest).
  { by rewrite <- length_drop, Hd, length_app. }
  destruct Hr as [->|Hh].
  - rewrite app_nil_r. rewrite (proj2 (IndexByte_None _ _) Hc).
    simpl in Hlen. lia.
  - destruct rest as [|x rest]; [done |]. injection Hh as ->.
    rewrite (proj2 (IndexByte_Some (comp ++ "/"%char :: rest) "/" (length comp))).
    + done.
    + split.
      * by rewrite lookup_app_r, Nat.sub_diag by lia.
      * by rewrite take_app_length.
Qed.

Lemma drop_head_lookup (c : str) (e : nat) : head (drop e c) = c !! e.
Proof. rewrite head_lookup, lookup_drop. f_equal. lia. Qed.

Lemma matchPathSegmentsAt_loop_spec (segs : list segmentPattern) (c : str) :
  segs <> [] ->
  forall index e,
    index <= length c ->
    (matchPathSegmentsAt_loop segs c index = Some e
     <-> exists comps,
           Forall2 segmentAccepts segs comps
           /\ drop index c = joinSlash comps ++ drop e c
           /\ e = index + length (joinSlash comps)
           /\ (e = length c \/ c !! e = Some "/"%char)).
Proof.
  induction segs as [|seg rest IH]; [done |]. intros _ index e Hi.
  cbn [matchPathSegmentsAt_loop]. cbv zeta.
  destruct (segmentEnd_spec c index Hi) as ((Hle & Hle') & Hplain & Hend).
  set (end_ := segmentEnd c index) in *.
  split.
  - destruct (end_ =? index) eqn:E0; [done |]. apply Nat.eqb_neq in E0.
    destruct (matchSegmentPattern seg (slice c index end_)) eqn:Em; [|done].
    cbn [negb].
    assert (Hok : segmentAccepts seg (slice c index end_)).
    { repeat split; [|done..]. intros Hs.
      apply (f_equal length) in Hs. unfold slice in Hs.
      rewrite length_take, length_drop in Hs. simpl in Hs. lia. }
    assert (Hlen : length (slice c index end_) = end_ - index).
    { unfold slice. rewrite length_take, length_drop. lia. }
    destruct rest as [|seg' rest'].
    + intros [= <-]. exists [slice c index end_]. cbn [joinSlash].
      split; [constructor; [done | constructor] |].
      split; [by apply slice_drop |]. split; [lia | done].
    + destruct (length c <=? end_) eqn:E1; [done |]. apply Nat.leb_gt in E1.
      destruct (byteIs c end_ "/") eqn:E2; [|done]. cbn [orb negb].
      apply byteIs_true in E2.
      intros H. apply IH in H as (comps & HF & Hd & He & Hb); [|done | lia].
      exists (slice c index end_ :: comps).
      assert (comps <> []) by (inversion HF; done).
      rewrite joinSlash_cons by done.
      split; [by constructor |]. split; [|split; [|done]].
      * rewrite (slice_drop c index end_) by lia. rewrite <- app_assoc.
        f_equal. rewrite (drop_S _ _ _ E2). cbn [app]. f_equal.
        by replace (S end_) with (end_ + 1) by lia.
      * rewrite length_app. cbn [length]. lia.
  - intros (comps & HF & Hd & He & Hb).
    inversion HF as [|? comp ? comps' (Hne & Hnos & Hm) HF']; subst.
    destruct rest as [|seg' rest'].
    + inversion HF'; subst. cbn [joinSlash] in *.
      assert (Hu : end_ = index + length comp).
      { apply (segmentEnd_unique c index comp (drop (index + length comp) c));
          [done.. | | done].
        rewrite drop_head_lookup.
        destruct Hb as [Hb|Hb]; [left | by right].
        apply drop_ge. lia. }
      assert (Hs : slice c index end_ = comp).
      { unfold slice. rewrite Hd, Hu.
        replace (index + length comp - index) with (length comp) by lia.
        by rewrite take_app_length. }
      rewrite Hs, Hm. cbn [negb].
      replace (end_ =? index) with false; [by rewrite Hu |].
      symmetry. apply Nat.eqb_neq. destruct comp; [done | simpl in Hu; lia].
    + assert (comps' <> []) by (inversion HF'; done).
      rewrite joinSlash_cons in Hd by done.
      rewrite <- app_assoc in Hd. cbn [app] in Hd.
      rewrite joinSlash_cons in Hb by done.
      rewrite length_app in Hb. cbn [length] in Hb.
      assert (Hu : end_ = index + length comp).
      { eapply (segmentEnd_unique c index comp); [exact Hd | done | by right | done]. }
      assert (Hs : slice c index end_ = comp).
      { unfold slice. rewrite Hd, Hu.
        replace (index + length comp - index) with (length comp) by lia.
        by rewrite take_app_length. }
      assert (Hat : c !! end_ = Some "/"%char).
      { rewrite Hu, <- lookup_drop, Hd.
        by rewrite lookup_app_r, Nat.sub_diag by lia. }
      pose proof (lookup_lt_Some _ _ _ Hat) as Hlt.
      rewrite Hs, Hm. cbn [negb].
      replace (end_ =? index) with false
        by (symmetry; apply Nat.eqb_neq; destruct comp; [done | simpl in Hu; lia]).
      replace (length c <=? end_) with false
        by (symmetry; apply Nat.leb_gt; lia).
      rewrite (proj2 (byteIs_true _ _ _) Hat). cbn [orb negb].
      apply IH; [done | lia |]. exists comps'.
      rewrite joinSlash_cons by done.
      rewrite length_app. cbn [length].
      split; [done |]. split; [|split; [lia |]].
      * replace (end_ + 1) with (S end_) by lia.
        apply (f_equal (drop (S (length comp)))) in Hd.
        rewrite drop_drop in Hd.
        replace (index + S (length comp)) with (S end_) in Hd by lia.
        rewrite Hd.
        replace (S (length comp)) with (length comp + 1) by lia.
        rewrite <- drop_drop, drop_app_length, length_app. done.
      * destruct Hb as [Hb|Hb]; [left; lia | right; exact Hb].
Qed.

End SegmentFacts.

Section PrefixFacts.

(** The prefix segments match at index [s] and a slash follows. *)
Lemma prefixAt_spec (segs : list segmentPattern) (c : str) (s : nat) :
  segs <> [] ->
  (exists e, matchPathSegmentsAt segs c s = Some e
             /\ descendantFollows c e = true)
  <-> exists comps rest,
        Forall2 segmentAccepts segs comps
        /\ s <= length c
        /\ drop s c = joinSlash comps ++ "/"%char :: rest.
Proof.
  intros Hne. unfold matchPathSegmentsAt, descendantFollows. split.
  - intros (e & Hm & Hd).
    destruct (length c <=? s) eqn:Hs; [done |]. apply Nat.leb_gt in Hs.
    apply matchPathSegmentsAt_loop_spec in Hm as (comps & HF & Hdrop & He & _);
      [|done | lia].
    apply andb_true_iff in Hd as [Hlt Hb]. apply byteIs_true in Hb.
    exists comps, (drop (S e) c). split; [done |]. split; [lia |].
    by rewrite Hdrop, (drop_S _ _ _ Hb).
  - intros (comps & rest & HF & Hs & Hdrop).
    assert (Hlen : length c - s = length (joinSlash comps) + S (length rest)).
    { by rewrite <- length_drop, Hdrop, length_app. }
    set (e := s + length (joinSlash comps)).
    assert (He : drop e c = "/"%char :: rest).
    { unfold e. by rewrite <- drop_drop, Hdrop, drop_app_length. }
    assert (Hat : c !! e = Some "/"%char).
    { by rewrite <- drop_head_lookup, He. }
    exists e. replace (length c <=? s) with false
      by (symmetry; apply Nat.leb_gt; lia).
    split.
    + apply matchPathSegmentsAt_loop_spec; [done | lia |].
      exists comps. rewrite He. by repeat split; [| | right].
    + rewrite (proj2 (byteIs_true _ _ _) Hat), andb_true_r.
      apply Nat.ltb_lt. by eapply lookup_lt_Some.
Qed.

Lemma matchPathPrefixDoubleStar_loop_spec (segs : list segmentPattern)
    (c : str) :
  forall fuel start,
    start <= length c ->
    length c + 1 - start <= fuel ->
    (matchPathPrefixDoubleStar_loop fuel segs c start = true
     <-> exists s e,
           start <= s
           /\ (s = start \/ c !! (s - 1) = Some "/"%char)
           /\ matchPathSegmentsAt segs c s = Some e
           /\ descendantFollows c e = true).
Proof.
  induction fuel as [|fuel IH]; intros start Hs Hfuel; [lia |].
  cbn [matchPathPrefixDoubleStar_loop]. cbv zeta.
  destruct (match matchPathSegmentsAt segs c start with
            | Some end_ => descendantFollows c end_
            | None => false
            end) eqn:Hok.
  - split; [intros _ | done].
    destruct (matchPathSegmentsAt segs c start) as [e|] eqn:Hm; [|done].
    exists start, e. repeat split; [lia | by left | done..].
  - destruct (IndexByte (drop start c) "/") as [k|] eqn:Ek.
    + apply IndexByte_Some in Ek as [Hk Hnot].
      pose proof (lookup_lt_Some _ _ _ Hk) as Hlt. rewrite length_drop in Hlt.
      rewrite lookup_drop in Hk.
      rewrite IH by lia. split.
      * intros (s & e & Hle & Hb & Hm & Hd). exists s, e.
        repeat split; [lia | | done..].
        right. destruct Hb as [->|Hb]; [|done].
        by replace (start + k + 1 - 1) with (start + k) by lia.
      * intros (s & e & Hle & Hb & Hm & Hd). exists s, e.
        destruct Hb as [->|Hb].
        { rewrite Hm in Hok. congruence. }
        destruct (decide (s = start)) as [->|Hns];
          [rewrite Hm in Hok; congruence |].
        assert (Hge : start + k <= s - 1).
        { destruct (decide (start + k <= s - 1)); [done |]. exfalso.
          apply Hnot. apply list_elem_of_lookup. exists (s - 1 - start).
          rewrite lookup_take_lt by lia. rewrite lookup_drop.
          by replace (start + (s - 1 - start)) with (s - 1) by lia. }
        repeat split; [lia | | done..].
        destruct (decide (s = start + k + 1)); [by left | by right].
    + apply IndexByte_None in Ek. split; [done |].
      intros (s & e & Hle & Hb & Hm & Hd).
      destruct Hb as [->|Hb]; [rewrite Hm in Hok; congruence |].
      destruct (decide (s = start)) as [->|]; [rewrite Hm in Hok; congruence |].
      exfalso. apply Ek. apply list_elem_of_lookup. exists (s - 1 - start).
      rewrite lookup_drop.
      by replace (start + (s - 1 - start)) with (s - 1) by lia.
Qed.

Lemma boundary_take (c : str) (s : nat) :
  s <= length c ->
  (s = 0 \/ c !! (s - 1) = Some "/"%char)
  <-> (take s c = [] \/ last (take s c) = Some "/"%char).
Proof.
  intros Hs. rewrite last_lookup, length_take.
  replace (s `min` length c) with s by lia.
  destruct s as [|s].
  - split; intros _; by left.
  - cbn [pred]. rewrite lookup_take_lt by lia.
    replace (S s - 1) with s by lia.
    split; (intros [H|H]; [|by right]).
    + done.
    + apply (f_equal length) in H. rewrite length_take in H.
      cbn [length] in H. lia.
Qed.

Lemma matchPathPrefixDoubleStar_spec (segs : list segmentPattern)
    (anchored : bool) (c : str) :
  segs <> [] ->
  matchPathPrefixDoubleStar segs c anchored = true
  <-> prefixSegmentsMatch segs anchored c.
Proof.
  intros Hne. unfold matchPathPrefixDoubleStar, prefixSegmentsMatch.
  rewrite (bool_decide_eq_false_2 (segs = [])) by done. cbn [orb].
  case_bool_decide as Hc.
  { subst c. split; [done |]. intros (pre & comps & rest & H & _).
    by destruct pre, (joinSlash comps). }
  assert (Hdecomp : forall s,
    (s = 0 \/ c !! (s - 1) = Some "/"%char) ->
    (exists e, matchPathSegmentsAt segs c s = Some e
               /\ descendantFollows c e = true) ->
    exists pre comps rest,
      c = pre ++ joinSlash comps ++ "/"%char :: rest
      /\ (pre = [] \/ last pre = Some "/"%char)
      /\ length pre = s
      /\ Forall2 segmentAccepts segs comps).
  { intros s Hb Hm. apply prefixAt_spec in Hm as (comps & rest & HF & Hs & Hd);
      [|done].
    exists (take s c), comps, rest.
    split; [by rewrite <- Hd, take_drop |].
    split; [by apply boundary_take |].
    split; [rewrite length_take; lia | done]. }
  assert (Hback : forall pre comps rest,
    c = pre ++ joinSlash comps ++ "/"%char :: rest ->
    Forall2 segmentAccepts segs comps ->
    exists e, matchPathSegmentsAt segs c (length pre) = Some e
              /\ descendantFollows c e = true).
  { intros pre comps rest Hceq HF. apply prefixAt_spec; [done |].
    exists comps, rest. split; [done |].
    rewrite Hceq at 1 2. rewrite length_app, drop_app_length. split; [lia | done]. }
  destruct anchored.
  - split.
    + intros H.
      destruct (Hdecomp 0) as (pre & comps & rest & Hceq & Hb & Hl & HF).
      * by left.
      * destruct (matchPathSegmentsAt segs c 0) as [e|]; [eauto | done].
      * exists pre, comps, rest. repeat split; [done.. | | done].
        intros _. by destruct pre.
    + intros (pre & comps & rest & Hceq & Hb & Ha & HF).
      destruct (Hback pre comps rest Hceq HF) as (e & Hm & Hd).
      rewrite (Ha eq_refl) in Hm. cbn [length] in Hm. by rewrite Hm.
  - rewrite matchPathPrefixDoubleStar_loop_spec by lia. split.
    + intros (s & e & _ & Hb & Hm & Hd).
      destruct (Hdecomp s) as (pre & comps & rest & Hceq & Hb' & Hl & HF).
      * destruct Hb as [->|Hb]; [by left | by right].
      * eauto.
      * exists pre, comps, rest. done.
    + intros (pre & comps & rest & Hceq & Hb & _ & HF).
      destruct (Hback pre comps rest Hceq HF) as (e & Hm & Hd).
      exists (length pre), e. repeat split; [lia | | done..].
      destruct pre as [|x pre _] using rev_ind; [by left |]. right.
      destruct Hb as [Hb|Hb]; [by destruct pre |].
      rewrite last_snoc in Hb. injection Hb as ->.
      rewrite Hceq, length_app. cbn [length].
      replace (length pre + 1 - 1) with (length pre) by lia.
      rewrite <- app_assoc. by rewrite lookup_app_r, Nat.sub_diag by lia.
Qed.

(** A candidate with no more elements than the prefix has segments is
    never matched. *)
Lemma prefixSegmentsMatch_needs_descendant (segs : list segmentPattern)
    (anchored : bool) (c : str) :
  length (splitSlash c) <= length segs ->
  ~ prefixSegmentsMatch segs anchored c.
Proof.
  intros Hlen (pre & comps & rest & Hceq & _ & _ & HF).
  apply Forall2_length in HF as Hl.
  assert (Hplain : Forall (fun e => "/"%char ∉ e) comps).
  { clear -HF. induction HF as [|? ? ? ? (_ & H & _)]; constructor; done. }
  rewrite Hceq in Hlen.
  rewrite splitSlash_length_app, splitSlash_app in Hlen.
  rewrite length_app in Hlen.
  pose proof (splitSlash_length_pos pre).
  pose proof (splitSlash_length_pos rest).
  destruct (decide (comps = [])) as [->|Hne].
  - destruct segs; simpl in *; lia.
  - rewrite splitSlash_join in Hlen by done. lia.
Qed.

End PrefixFacts.

Section PrefixCompile.

Lemma slice_snoc (s : str) (start i : nat) (x : ascii) :
  start <= i -> s !! i = Some x ->
  slice s start (i + 1) = slice s start i ++ [x].
Proof.
  intros Hle Hx. unfold slice.
  replace (i + 1 - start) with (S (i - start)) by lia.
  rewrite (take_S_r _ _ x); [done |].
  rewrite lookup_drop. by replace (start + (i - start)) with i by lia.
Qed.

Lemma slice_to_end (s : str) (start : nat) :
  slice s start (length s) = drop start s.
Proof. unfold slice. apply take_ge. rewrite length_drop. lia. Qed.

Lemma compilePathSegments_loop_spec (pattern : str) :
  forall fuel i start segs,
    start <= i -> i <= length pattern ->
    "/"%char ∉ slice pattern start i ->
    length pattern + 1 - i <= fuel ->
    compilePathSegments_loop pattern fuel i start segs
    = segs ++ map newSegmentPattern (splitSlash (drop start pattern)).
Proof.
  induction fuel as [|fuel IH]; intros i start segs Hsi Hi Hplain Hfuel; [lia |].
  cbn [compilePathSegments_loop].
  replace (length pattern <? i) with false by (symmetry; apply Nat.ltb_ge; lia).
  destruct (decide (i = length pattern)) as [->|Hne].
  - rewrite Nat.eqb_refl. cbn [negb andb].
    rewrite slice_to_end in *.
    rewrite splitSlash_plain by done. cbn [map].
    destruct fuel as [|fuel]; [done |]. cbn [compilePathSegments_loop].
    by replace (length pattern <? length pattern + 1) with true
      by (symmetry; apply Nat.ltb_lt; lia).
  - replace (i =? length pattern) with false by (symmetry; by apply Nat.eqb_neq).
    cbn [negb andb].
    destruct (lookup_lt_is_Some_2 pattern i ltac:(lia)) as [x Hx].
    destruct (byteIs pattern i "/") eqn:Eb; cbn [negb].
    + apply byteIs_true in Eb.
      rewrite IH; [| lia | lia | | lia].
      * rewrite <- app_assoc. f_equal. cbn [app].
        rewrite (slice_drop pattern start i) by lia.
        rewrite (drop_S _ _ _ Eb).
        rewrite splitSlash_cons_plain by done. cbn [map].
        by replace (i + 1) with (S i) by lia.
      * unfold slice. rewrite Nat.sub_diag. apply not_elem_of_nil.
    + apply byteIs_false in Eb.
      apply IH; [lia | lia | | lia].
      rewrite (slice_snoc _ _ _ x) by done.
      rewrite not_elem_of_app. split; [done |].
      rewrite list_elem_of_singleton. congruence.
Qed.

Lemma compilePathSegments_split (pattern : str) :
  compilePathSegments pattern = map newSegmentPattern (splitSlash pattern).
Proof.
  unfold compilePathSegments.
  rewrite compilePathSegments_loop_spec; [done | lia | lia | | lia].
  unfold slice. apply not_elem_of_nil.
Qed.

Lemma patternHasGlobMeta_loop_star (pattern : str) :
  forall fuel i,
    length pattern - i <= fuel ->
    (exists j, i <= j /\ pattern !! j = Some "*"%char) ->
    patternHasGlobMeta_loop pattern fuel i = true.
Proof.
  induction fuel as [|fuel IH]; intros i Hfuel (j & Hij & Hj);
    pose proof (lookup_lt_Some _ _ _ Hj) as Hlt; [lia |].
  cbn [patternHasGlobMeta_loop].
  replace (length pattern <=? i) with false by (symmetry; apply Nat.leb_gt; lia).
  destruct (byteIs pattern i "*") eqn:Es; [done |]. cbn [orb].
  destruct (byteIs pattern i "?"); [done |].
  destruct (_ && _); [done |].
  apply IH; [lia |]. exists j. split; [|done].
  apply byteIs_false in Es.
  destruct (decide (i = j)) as [->|]; [done | lia].
Qed.

Lemma patternHasGlobMeta_star (pattern : str) :
  "*"%char ∈ pattern -> patternHasGlobMeta pattern = true.
Proof.
  intros H. apply list_elem_of_lookup in H as [j Hj].
  apply patternHasGlobMeta_loop_star; [lia |]. exists j. split; [lia | done].
Qed.

End PrefixCompile.

Section PrefixClaims.

Context {Regexp : Type}.
Variable rc : str -> option Regexp.
Variable rm : Regexp -> str -> bool.

(** C5. A pattern [prefix/**] whose prefix is not empty and has neither
    a double star nor a character class compiles to the segments of the
    prefix.  The rule matches a candidate iff the candidate holds, from
    its start (anchored) or from a slash boundary (unanchored), one
    element for each segment of the prefix and a slash after them.  A
    candidate with no more elements than the prefix, such as the bare
    directory the prefix names, never matches, directory or not. *)
Theorem C5_PathPrefixSegments_matching rule ci (cr : compiledRule Regexp)
    (prefix c : str) (isDir : bool) :
  compileRule rc rule ci = inr cr ->
  strippedPattern rule ci = prefix ++ $"/**" ->
  prefix <> [] ->
  Contains prefix $"**" = false ->
  patternHasCharClass prefix = false ->
  let segs := map newSegmentPattern (splitSlash prefix) in
  pathPrefixSegments cr = segs
  /\ pathExact cr = []
  /\ hasSlash cr = true
  /\ (matches rm cr c isDir = true
      <-> prefixSegmentsMatch segs (anchored cr) c)
  /\ (length (splitSlash c) <= length (splitSlash prefix) ->
      matches rm cr c isDir = false)
  /\ matches rm cr prefix isDir = false.
Proof.
  intros Hc Hsp Hne Hstar Hclass segs.
  pose proof (compileRule_inr rc _ _ _ Hc) as H0. cbv zeta in H0.
  destruct H0 as (_ & _ & _ & _ & _ & _ & Hhs & Hpe & Hpp).
  rewrite Hsp in Hhs, Hpe, Hpp.
  assert (Hslash : Contains (prefix ++ $"/**") $"/" = true).
  { apply Contains_spec. by exists prefix, ($"**"). }
  assert (Hmeta : patternHasGlobMeta (prefix ++ $"/**") = true).
  { apply patternHasGlobMeta_star. rewrite elem_of_app. right.
    apply elem_of_cons. right. apply elem_of_cons. by left. }
  rewrite Hslash in Hhs. cbn [orb] in Hhs.
  rewrite Hslash, Hmeta in Hpe, Hpp. cbn [orb andb negb] in Hpe, Hpp.
  unfold CutSuffix in Hpp. rewrite HasSuffix_app in Hpp.
  cbn [fst snd andb] in Hpp.
  assert (Htake : take (length (prefix ++ $"/**") - length $"/**")
                    (prefix ++ $"/**") = prefix).
  { rewrite length_app.
    replace (length prefix + length $"/**" - length $"/**")
      with (length prefix) by lia.
    apply take_app_length. }
  rewrite Htake in Hpp.
  rewrite (bool_decide_eq_false_2 (prefix = [])) in Hpp by done.
  assert (Hcan : canUseSimplePathSegments prefix = true).
  { unfold canUseSimplePathSegments.
    by rewrite bool_decide_eq_false_2, Hstar, Hclass by done. }
  rewrite Hcan in Hpp. cbn [negb andb] in Hpp.
  rewrite compilePathSegments_split in Hpp. fold segs in Hpp.
  assert (Hsegs : segs <> []).
  { unfold segs. pose proof (splitSlash_ne prefix).
    by destruct (splitSlash prefix). }
  assert (Hm : forall c', matches rm cr c' isDir = true
                          <-> prefixSegmentsMatch segs (anchored cr) c').
  { intros c'. unfold matches. case_bool_decide as Hc'.
    - split; [done |]. subst c'. intros (pre & comps & rest & H & _).
      by destruct pre, (joinSlash comps).
    - rewrite Hhs, Hpe, Hpp. cbn [negb].
      rewrite bool_decide_eq_true_2 by done. cbn [negb].
      replace (0 <? length segs) with true.
      + by apply matchPathPrefixDoubleStar_spec.
      + symmetry. apply Nat.ltb_lt. destruct segs; [done | simpl; lia]. }
  assert (Hfew : forall c', length (splitSlash c') <= length (splitSlash prefix) ->
                            matches rm cr c' isDir = false).
  { intros c' Hlen. apply not_true_iff_false. rewrite Hm.
    apply prefixSegmentsMatch_needs_descendant.
    unfold segs. by rewrite length_map. }
  split; [done |]. split; [done |]. split; [done |]. split; [apply Hm |].
  split; [apply Hfew |]. by apply Hfew.
Qed.

End PrefixClaims.

(** ** C2: the provider's stack of scopes *)

Section ProviderFacts.

Context {Regexp : Type}.
Variable rc : str -> option Regexp.
Variable rm : Regexp -> str -> bool.
Variable w : World.

Implicit Types (p : Provider Regexp) (cache : dirCache Regexp)
  (res : MatchResult) (m : Matcher Regexp).

Lemma applyChain_app p l1 l2 c isDir res cache :
  applyChain rc rm w p (l1 ++ l2) c isDir res cache
  = match applyChain rc rm w p l1 c isDir res cache with
    | (inl err, cache') => (inl err, cache')
    | (inr res', cache') => applyChain rc rm w p l2 c isDir res' cache'
    end.
Proof.
  revert res cache. induction l1 as [|d l1 IH]; intros res cache; [done |].
  cbn [app applyChain].
  destruct (applyDirMatcherDecision rc rm w p d c isDir res cache)
    as [[err|res'] cache']; [done |]. apply IH.
Qed.

Lemma seq_filter_step (P : nat -> bool) (i n : nat) :
  filter (fun j => P j = true) (seq i (S n))
  = if P i then i :: filter (fun j => P j = true) (seq (S i) n)
    else filter (fun j => P j = true) (seq (S i) n).
Proof.
  cbn [seq]. rewrite filter_cons. destruct (P i) eqn:E.
  - by rewrite decide_True.
  - by rewrite decide_False by congruence.
Qed.

Lemma decideAncestors_loop_spec p relDir c isDir :
  forall fuel i res cache,
    length relDir - i <= fuel ->
    decideAncestors_loop rc rm w p relDir c isDir fuel i res cache
    = applyChain rc rm w p
        (map (fun j => take j relDir)
           (filter (fun j => byteIs relDir j "/" = true)
              (seq i (length relDir - i))))
        c isDir res cache.
Proof.
  induction fuel as [|fuel IH]; intros i res cache Hfuel.
  - replace (length relDir - i) with 0 by lia. done.
  - cbn [decideAncestors_loop].
    destruct (length relDir <=? i) eqn:Hlen.
    + apply Nat.leb_le in Hlen. by replace (length relDir - i) with 0 by lia.
    + apply Nat.leb_gt in Hlen.
      replace (length relDir - i) with (S (length relDir - (i + 1))) by lia.
      rewrite seq_filter_step. replace (S i) with (i + 1) by lia.
      destruct (byteIs relDir i "/") eqn:Eb; cbn [negb].
      * cbn [map applyChain].
        destruct (applyDirMatcherDecision rc rm w p (take i relDir) c isDir
                    res cache) as [[err|res'] cache']; [done |].
        apply IH. lia.
      * apply IH. lia.
Qed.

Lemma applyBaseMatcher_spec p c isDir res :
  applyBaseMatcher rm p c isDir res
  = fold_left pick (baseDecision rm p c isDir) res.
Proof. unfold applyBaseMatcher, baseDecision. by destruct (baseMatcher p). Qed.

Lemma applyMatcherWithPrefix_spec m D c isDir res :
  applyMatcherWithPrefix rm m D c isDir res
  = match scopeDecision rm c isDir (D, Some m) with
    | Some d => pick res d
    | None => res
    end.
Proof.
  unfold applyMatcherWithPrefix, scopeDecision, pick.
  assert (Heta : forall d : MatchResult,
            (if negb (Matched d) then res
             else mkMatchResult (Included d) true (RuleIndex d))
            = if Matched d then d else res).
  { by intros [? [] ?]. }
  case_bool_decide as HD; cbn [negb]; [by rewrite Heta |].
  case_bool_decide as Heq.
  - subst c. replace (HasPrefix D (D ++ $"/")) with false; [done |].
    symmetry. apply not_true_iff_false. intros H.
    apply HasPrefix_length in H. rewrite length_app in H. simpl in H. lia.
  - destruct (HasPrefix c (D ++ $"/")); cbn [negb]; [|done].
    rewrite length_app. cbn [length]. by rewrite Heta.
Qed.

Lemma applyChain_loadChain p dirs c isDir :
  forall res cache,
    applyChain rc rm w p dirs c isDir res cache
    = match loadChain rc w p dirs cache with
      | (inl err, cache') => (inl err, cache')
      | (inr scopes, cache') =>
          (inr (fold_left pick (omap (scopeDecision rm c isDir) scopes) res),
           cache')
      end.
Proof.
  induction dirs as [|d ds IH]; intros res cache; [done |].
  cbn [applyChain loadChain]. unfold applyDirMatcherDecision.
  destruct (loadDirMatcher rc w p d cache) as [[err|[m|]] cache']; [done | |].
  - rewrite IH. destruct (loadChain rc w p ds cache') as [[err|scopes] cache''];
      [done |].
    cbn [omap list_omap]. rewrite applyMatcherWithPrefix_spec.
    by destruct (scopeDecision rm c isDir (d, Some m)).
  - rewrite IH. by destruct (loadChain rc w p ds cache') as [[err|scopes] cache''].
Qed.

Lemma Provider_Decide_chain p relPath isDir cache c :
  cleanRelPath relPath = inr c ->
  Provider_Decide rc rm w p relPath isDir cache
  = applyChain rc rm w p (scopeChain c isDir) c isDir
      (applyBaseMatcher rm p c isDir (defaultDecision p)) cache.
Proof.
  intros Hc. unfold Provider_Decide, scopeChain, dirChain. rewrite Hc.
  fold (defaultDecision p).
  set (res0 := applyBaseMatcher rm p c isDir (defaultDecision p)).
  set (relDir := pathDir c isDir).
  cbn [applyChain].
  destruct (applyDirMatcherDecision rc rm w p [] c isDir res0 cache)
    as [[err|res1] cache1]; [done |].
  case_bool_decide as Hd; cbn [negb]; [done |].
  rewrite applyChain_app.
  rewrite decideAncestors_loop_spec by lia.
  rewrite Nat.sub_0_r. fold (slashIndices relDir). fold (ancestorDirs relDir).
  destruct (applyChain rc rm w p (ancestorDirs relDir) c isDir res1 cache1)
    as [[err|res2] cache2]; [done |].
  cbn [applyChain].
  by destruct (applyDirMatcherDecision rc rm w p relDir c isDir res2 cache2)
    as [[err|res3] cache3].
Qed.



Lemma scopeDecision_dir c isDir D m r :
  D <> [] ->
  scopeDecision rm c isDir (D, Some m) = Some r
  <-> exists rest, c = D ++ $"/" ++ rest /\ r = Decide rm m rest isDir.
Proof.
  intros HD. unfold scopeDecision. rewrite bool_decide_eq_false_2 by done.
  destruct (HasPrefix c (D ++ $"/")) eqn:E.
  - apply HasPrefix_spec in E as [rest ->]. split.
    + intros [= <-]. exists rest. rewrite <- app_assoc. split; [done |].
      f_equal.
      replace (length D + 1) with (length (D ++ $"/"))
        by (rewrite length_app; simpl; lia).
      by rewrite drop_app_length.
    + intros (rest' & Heq & ->). f_equal. f_equal.
      rewrite <- app_assoc in Heq. apply app_inv_head in Heq.
      injection Heq as ->.
      replace (length D + 1) with (length (D ++ $"/"))
        by (rewrite length_app; simpl; lia).
      by rewrite drop_app_length.
  - split; [done |]. intros (rest & -> & _).
    rewrite app_assoc, HasPrefix_app in E. done.
Qed.

Lemma cleanRelPath_nonempty (raw c : str) :
  cleanRelPath raw = inr c -> c <> [].
Proof.
  unfold cleanRelPath. intros Hc.
  repeat match type of Hc with
         | (if ?b then _ else _) = _ => destruct b eqn:?
         end; try discriminate.
  injection Hc as <-.
  match goal with
  | H : bool_decide (normalizePath _ = []) = false |- _ =>
      by apply bool_decide_eq_false in H
  end.
Qed.

Lemma scopeDecision_self c isDir m :
  c <> [] -> scopeDecision rm c isDir (c, Some m) = None.
Proof.
  intros Hc. destruct (scopeDecision rm c isDir (c, Some m)) as [r|] eqn:E;
    [|done].
  apply scopeDecision_dir in E as (rest & Heq & _); [|done].
  apply (f_equal length) in Heq. rewrite !length_app in Heq. simpl in Heq. lia.
Qed.

Lemma Provider_Decide_loadChain p (relPath : str) (isDir : bool) cache
    (c : str) :
  cleanRelPath relPath = inr c ->
  Provider_Decide rc rm w p relPath isDir cache
  = match loadChain rc w p (scopeChain c isDir) cache with
    | (inl err, cache') => (inl err, cache')
    | (inr scopes, cache') =>
        (inr (stackDecision rm p c isDir scopes), cache')
    end.
Proof.
  intros Hc.
  rewrite (Provider_Decide_chain _ _ _ _ _ Hc), applyChain_loadChain.
  destruct (loadChain rc w p (scopeChain c isDir) cache)
    as [[err|scopes] cache']; [done |].
  unfold stackDecision, lastMatched.
  by rewrite fold_left_app, applyBaseMatcher_spec.
Qed.


End ProviderFacts.

(** ** C10: [DecideInDir] against [Decide] *)

Section BatchFacts.

Context {Regexp : Type}.
Variable rc : str -> option Regexp.
Variable rm : Regexp -> str -> bool.
Variable w : World.

Implicit Types (p : Provider Regexp) (cache : dirCache Regexp)
  (res : MatchResult) (m : Matcher Regexp).

Lemma loadChain_app p l1 l2 cache :
  loadChain rc w p (l1 ++ l2) cache
  = match loadChain rc w p l1 cache with
    | (inl err, cache') => (inl err, cache')
    | (inr s1, cache') =>
        match loadChain rc w p l2 cache' with
        | (inl err, cache'') => (inl err, cache'')
        | (inr s2, cache'') => (inr (s1 ++ s2), cache'')
        end
    end.
Proof.
  revert cache. induction l1 as [|d l1 IH]; intros cache.
  - cbn [app loadChain]. by destruct (loadChain rc w p l2 cache) as [[?|?] ?].
  - cbn [app loadChain].
    destruct (loadDirMatcher rc w p d cache) as [[err|m] cache1]; [done |].
    rewrite IH.
    destruct (loadChain rc w p l1 cache1) as [[err|s1] cache2]; [done |].
    by destruct (loadChain rc w p l2 cache2) as [[err|s2] cache3].
Qed.

Lemma preparedScopes_snoc scopes d (m : option (Matcher Regexp)) :
  preparedScopes (scopes ++ [(d, m)])
  = appendDirMatcher (preparedScopes scopes) m d.
Proof.
  unfold preparedScopes. rewrite omap_app.
  destruct m; cbn; [done | by rewrite app_nil_r].
Qed.

Lemma prepareAncestors_loop_spec p relDir :
  forall fuel i matchers cache,
    length relDir - i <= fuel ->
    prepareAncestors_loop rc w p relDir fuel i matchers cache
    = match loadChain rc w p
              (map (fun j => take j relDir)
                 (filter (fun j => byteIs relDir j "/" = true)
                    (seq i (length relDir - i)))) cache with
      | (inl err, cache') => (inl err, cache')
      | (inr scopes, cache') => (inr (matchers ++ preparedScopes scopes), cache')
      end.
Proof.
  induction fuel as [|fuel IH]; intros i matchers cache Hfuel.
  - replace (length relDir - i) with 0 by lia. cbn. by rewrite app_nil_r.
  - cbn [prepareAncestors_loop].
    destruct (length relDir <=? i) eqn:Hlen.
    + apply Nat.leb_le in Hlen. replace (length relDir - i) with 0 by lia.
      cbn. by rewrite app_nil_r.
    + apply Nat.leb_gt in Hlen.
      replace (length relDir - i) with (S (length relDir - (i + 1))) by lia.
      rewrite seq_filter_step. replace (S i) with (i + 1) by lia.
      destruct (byteIs relDir i "/") eqn:Eb; cbn [negb].
      * cbn [map loadChain].
        destruct (loadDirMatcher rc w p (take i relDir) cache)
          as [[err|m] cache']; [done |].
        rewrite IH by lia.
        destruct (loadChain rc w p _ cache') as [[err|scopes] cache'']; [done |].
        f_equal. f_equal. unfold preparedScopes. cbn [omap list_omap].
        destruct m; cbn; [by rewrite <- app_assoc | done].
      * apply IH. lia.
Qed.

Lemma prepareProviderDirMatchers_spec p relDir cache :
  prepareProviderDirMatchers rc w p relDir cache
  = match loadChain rc w p (dirChain relDir) cache with
    | (inl err, cache') => (inl err, cache')
    | (inr scopes, cache') => (inr (preparedScopes scopes), cache')
    end.
Proof.
  unfold prepareProviderDirMatchers, dirChain. cbn [loadChain].
  destruct (loadDirMatcher rc w p [] cache) as [[err|m0] cache0]; [done |].
  case_bool_decide as Hd.
  - cbn [loadChain]. f_equal. f_equal. unfold preparedScopes. cbn.
    by destruct m0.
  - rewrite prepareAncestors_loop_spec by lia.
    rewrite Nat.sub_0_r. fold (slashIndices relDir). fold (ancestorDirs relDir).
    rewrite loadChain_app.
    destruct (loadChain rc w p (ancestorDirs relDir) cache0)
      as [[err|s1] cache1]; [done |].
    cbn [loadChain].
    destruct (loadDirMatcher rc w p relDir cache1) as [[err|m1] cache2]; [done |].
    f_equal. f_equal.
    change ((([] : str), m0) :: s1 ++ [(relDir, m1)])
      with (((([] : str), m0) :: s1) ++ [(relDir, m1)]).
    rewrite preparedScopes_snoc. f_equal.
    unfold preparedScopes. cbn [omap list_omap]. by destruct m0.
Qed.

Lemma applyPreparedDirMatchers_spec scopes c isDir :
  forall res,
    applyPreparedDirMatchers rm (preparedScopes scopes) c isDir res
    = fold_left pick (omap (scopeDecision rm c isDir) scopes) res.
Proof.
  induction scopes as [|[d [m|]] scopes IH]; intros res; [done | |].
  - unfold preparedScopes. cbn [omap list_omap fmap option_fmap option_map fst snd].
    cbn [applyPreparedDirMatchers pd_matcher pd_prefix].
    fold (preparedScopes scopes). rewrite IH, applyMatcherWithPrefix_spec.
    by destruct (scopeDecision rm c isDir (d, Some m)).
  - apply IH.
Qed.

Lemma Provider_DecideInDir_single p relDir (entry : DirEntry) cache nd ne :
  cleanRelDir relDir = inr nd ->
  cleanEntryName (Name entry) = inr ne ->
  Provider_DecideInDir rc rm w p relDir [entry] cache
  = match loadChain rc w p (dirChain nd) cache with
    | (inl err, cache') => (inl err, cache')
    | (inr scopes, cache') =>
        (inr [stackDecision rm p (entryPath nd ne) (IsDir entry) scopes],
         cache')
    end.
Proof.
  intros Hd He. unfold Provider_DecideInDir. rewrite Hd.
  rewrite prepareProviderDirMatchers_spec.
  destruct (loadChain rc w p (dirChain nd) cache) as [[err|scopes] cache'];
    [done |].
  cbn [decideEntries]. rewrite He. fold (entryPath nd ne).
  fold (defaultDecision p).
  rewrite applyPreparedDirMatchers_spec, applyBaseMatcher_spec.
  unfold stackDecision, lastMatched. by rewrite fold_left_app.
Qed.

End BatchFacts.

Section ChainFacts.

Lemma Contains_byte (s : str) (c : ascii) : Contains s [c] = true <-> c ∈ s.
Proof.
  rewrite Contains_spec. split.
  - intros (pre & post & ->). rewrite elem_of_app. right.
    apply elem_of_cons. by left.
  - intros H. apply list_elem_of_split in H as (pre & post & ->).
    by exists pre, post.
Qed.

Lemma LastIndexByte_None (s : str) (c : ascii) :
  c ∉ s -> LastIndexByte s c = None.
Proof.
  induction s as [|x s IH]; [done |]. intros H.
  apply not_elem_of_cons in H as [Hx Hs]. cbn [LastIndexByte].
  rewrite (IH Hs). by replace (Ascii.eqb x c) with false
    by (symmetry; apply eqb_false; congruence).
Qed.

Lemma LastIndexByte_last (a b : str) (c : ascii) :
  c ∉ b -> LastIndexByte (a ++ c :: b) c = Some (length a).
Proof.
  intros Hb. induction a as [|x a IH].
  - cbn [app LastIndexByte length]. rewrite (LastIndexByte_None _ _ Hb).
    by rewrite Ascii.eqb_refl.
  - cbn [app LastIndexByte length]. by rewrite IH.
Qed.

Lemma filter_seq_ext (P Q : nat -> bool) (n : nat) :
  forall i,
    (forall j, i <= j < i + n -> P j = Q j) ->
    filter (fun j => P j = true) (seq i n)
    = filter (fun j => Q j = true) (seq i n).
Proof.
  induction n as [|n IH]; intros i H; [done |].
  rewrite !seq_filter_step, (H i) by lia.
  rewrite (IH (S i)) by (intros j Hj; apply H; lia). done.
Qed.

Lemma filter_seq_none (P : nat -> bool) (n : nat) :
  forall i,
    (forall j, i <= j < i + n -> P j = false) ->
    filter (fun j => P j = true) (seq i n) = [].
Proof.
  induction n as [|n IH]; intros i H; [done |].
  rewrite seq_filter_step, (H i) by lia.
  apply IH. intros j Hj. apply H. lia.
Qed.

Lemma slashIndices_lt (s : str) (j : nat) :
  j ∈ slashIndices s -> j < length s.
Proof.
  unfold slashIndices. rewrite list_elem_of_filter, elem_of_seq. lia.
Qed.

Lemma slashIndices_plain (s : str) : "/"%char ∉ s -> slashIndices s = [].
Proof.
  intros H. unfold slashIndices. apply filter_seq_none. intros j _.
  apply byteIs_false. intros Hj. apply H. by eapply list_elem_of_lookup_2.
Qed.

Lemma slashIndices_entry (a b : str) :
  "/"%char ∉ b ->
  slashIndices (a ++ "/"%char :: b) = slashIndices a ++ [length a].
Proof.
  intros Hb. unfold slashIndices. rewrite length_app. cbn [length].
  rewrite seq_app, filter_app. f_equal.
  - apply filter_seq_ext. intros j Hj. unfold byteIs.
    by rewrite lookup_app_l by lia.
  - cbn [Nat.add]. rewrite seq_filter_step.
    replace (byteIs (a ++ "/"%char :: b) (length a) "/") with true.
    + f_equal. apply filter_seq_none. intros j Hj. apply byteIs_false.
      rewrite lookup_app_r by lia.
      replace (j - length a) with (S (j - length a - 1)) by lia.
      cbn [lookup list_lookup]. intros Hx. apply Hb.
      by eapply list_elem_of_lookup_2.
    + symmetry. apply byteIs_true.
      by rewrite lookup_app_r, Nat.sub_diag by lia.
Qed.

Lemma ancestorDirs_entry (a b : str) :
  "/"%char ∉ b ->
  ancestorDirs (a ++ "/"%char :: b) = ancestorDirs a ++ [a].
Proof.
  intros Hb. unfold ancestorDirs. rewrite slashIndices_entry by done.
  rewrite map_app. cbn [map]. rewrite take_app_length. f_equal.
  apply map_ext_in. intros j Hj. apply list_elem_of_In, slashIndices_lt in Hj.
  by rewrite take_app_le by lia.
Qed.

Lemma cleanEntryName_inr (raw ne : str) :
  cleanEntryName raw = inr ne -> ne <> [] /\ "/"%char ∉ ne.
Proof.
  unfold cleanEntryName. intros H.
  repeat match type of H with
         | (if ?b then _ else _) = _ => destruct b eqn:?
         end; try discriminate.
  injection H as <-.
  match goal with
  | Hx : _ || _ || _ || _ = false |- _ =>
      apply orb_false_iff in Hx as [Hx _];
      apply orb_false_iff in Hx as [Hx _];
      apply orb_false_iff in Hx as [H1 H2]
  end.
  apply bool_decide_eq_false in H1. split; [done |].
  intros Hin. apply (Contains_byte _ "/") in Hin.
  change [("/")%char] with ($"/") in Hin. congruence.
Qed.

Lemma cleanRelDir_inr (raw nd : str) :
  cleanRelDir raw = inr nd -> nd = [] \/ cleanRelPath (TrimSpace raw) = inr nd.
Proof.
  unfold cleanRelDir. destruct (_ || _); [intros [= <-]; by left | by right].
Qed.

Lemma entryPath_pathDir (nd ne : str) :
  "/"%char ∉ ne -> pathDir (entryPath nd ne) false = nd.
Proof.
  intros Hne. unfold pathDir, entryPath. case_bool_decide as Hd; cbn [negb].
  - subst nd. by rewrite LastIndexByte_None.
  - change (nd ++ $"/" ++ ne) with (nd ++ "/"%char :: ne).
    rewrite LastIndexByte_last by done. apply take_app_length.
Qed.

Lemma entryPath_nonempty (nd ne : str) : ne <> [] -> entryPath nd ne <> [].
Proof.
  intros H. unfold entryPath. case_bool_decide; cbn [negb]; [done |].
  by destruct nd.
Qed.

Lemma entryPath_dirChain (nd ne : str) :
  ne <> [] -> "/"%char ∉ ne ->
  dirChain (entryPath nd ne) = dirChain nd ++ [entryPath nd ne].
Proof.
  intros Hne Hs. pose proof (entryPath_nonempty nd ne Hne) as Hp.
  unfold dirChain at 1. rewrite bool_decide_eq_false_2 by done.
  unfold dirChain, entryPath in *.
  case_bool_decide as Hd; cbn [negb] in *.
  - subst nd. unfold ancestorDirs. by rewrite slashIndices_plain.
  - change (nd ++ $"/" ++ ne) with (nd ++ "/"%char :: ne).
    rewrite ancestorDirs_entry by done. reflexivity.
Qed.

End ChainFacts.

Section CacheFacts.

Context {Regexp : Type}.
Variable rc : str -> option Regexp.
Variable rm : Regexp -> str -> bool.
Variable w : World.

Implicit Types (p : Provider Regexp) (cache : dirCache Regexp).

Lemma loadDirMatcher_hit p d cache entry :
  cache !! d = Some entry ->
  loadDirMatcher rc w p d cache = (unwrapCachedDirMatcher entry, cache).
Proof. intros H. unfold loadDirMatcher. by rewrite H. Qed.

Lemma loadDirMatcher_after p d cache r cache' :
  loadDirMatcher rc w p d cache = (r, cache') ->
  cache ⊆ cache'
  /\ exists entry, cache' !! d = Some entry /\ unwrapCachedDirMatcher entry = r.
Proof.
  unfold loadDirMatcher. destruct (cache !! d) as [entry|] eqn:E.
  - intros [= <- <-]. split; [done |]. eauto.
  - intros [= <- <-]. split; [by apply insert_subseteq |].
    eexists. rewrite lookup_insert_eq. split; [done |].
    by destruct (loadAndCompileDirMatcher rc w p d).
Qed.

Lemma loadChain_subseteq p dirs :
  forall cache r cache',
    loadChain rc w p dirs cache = (r, cache') -> cache ⊆ cache'.
Proof.
  induction dirs as [|d ds IH]; intros cache r cache'; cbn [loadChain].
  - by intros [= _ <-].
  - destruct (loadDirMatcher rc w p d cache) as [[err|m] cache1] eqn:E1.
    + intros [= _ <-]. by apply loadDirMatcher_after in E1 as [? _].
    + apply loadDirMatcher_after in E1 as [Hsub _].
      destruct (loadChain rc w p ds cache1) as [[err|ms] cache2] eqn:E2;
        intros [= _ <-]; apply IH in E2; by etrans.
Qed.

Lemma loadChain_stable p dirs :
  forall cache scopes cache',
    loadChain rc w p dirs cache = (inr scopes, cache') ->
    forall σ, cache' ⊆ σ -> loadChain rc w p dirs σ = (inr scopes, σ).
Proof.
  induction dirs as [|d ds IH]; intros cache scopes cache'; cbn [loadChain].
  - by intros [= <- <-].
  - destruct (loadDirMatcher rc w p d cache) as [[err|m] cache1] eqn:E1;
      [done |].
    destruct (loadChain rc w p ds cache1) as [[err|ms] cache2] eqn:E2; [done |].
    intros [= <- <-] σ Hσ.
    apply loadDirMatcher_after in E1 as (Hsub & entry & Hentry & Hun).
    pose proof (loadChain_subseteq _ _ _ _ _ E2) as Hsub2.
    assert (Hl : σ !! d = Some entry).
    { eapply lookup_weaken; [exact Hentry |]. by etrans. }
    rewrite (loadDirMatcher_hit _ _ _ _ Hl), Hun.
    by rewrite (IH _ _ _ E2 σ Hσ).
Qed.

End CacheFacts.

Section BatchClaims.

Context {Regexp : Type}.
Variable rc : str -> option Regexp.
Variable rm : Regexp -> str -> bool.
Variable w : World.

Implicit Types (p : Provider Regexp) (cache : dirCache Regexp).

Lemma stackDecision_snoc_self p (c : str) (isDir : bool)
    (scopes : list (str * option (Matcher Regexp)))
    (m : option (Matcher Regexp)) :
  c <> [] ->
  stackDecision rm p c isDir (scopes ++ [(c, m)])
  = stackDecision rm p c isDir scopes.
Proof.
  intros Hc. unfold stackDecision. rewrite omap_app. cbn [omap list_omap].
  destruct m as [m|]; [rewrite scopeDecision_self by done |];
    by rewrite app_nil_r.
Qed.

(** [Decide] on the path of an entry, from a cache in which the chain of
    the entry's directory loads to [scopes]. *)
Lemma Provider_Decide_entry p (relPath nd ne : str) (isDir : bool)
    cache scopes cache' :
  ne <> [] -> "/"%char ∉ ne ->
  cleanRelPath relPath = inr (entryPath nd ne) ->
  loadChain rc w p (dirChain nd) cache = (inr scopes, cache') ->
  Provider_Decide rc rm w p relPath isDir cache
  = if isDir then
      match loadDirMatcher rc w p (entryPath nd ne) cache' with
      | (inl err, cache'') => (inl err, cache'')
      | (inr _, cache'') =>
          (inr (stackDecision rm p (entryPath nd ne) isDir scopes), cache'')
      end
    else (inr (stackDecision rm p (entryPath nd ne) isDir scopes), cache').
Proof.
  intros Hne Hs Hc Hload.
  rewrite (Provider_Decide_loadChain rc rm w p relPath isDir cache _ Hc).
  unfold scopeChain. destruct isDir.
  - cbn [pathDir]. rewrite entryPath_dirChain, loadChain_app, Hload by done.
    cbn [loadChain].
    destruct (loadDirMatcher rc w p (entryPath nd ne) cache')
      as [[err|m] cache'']; [done |].
    rewrite stackDecision_snoc_self; [done |]. by apply entryPath_nonempty.
  - by rewrite entryPath_pathDir, Hload.
Qed.

(** C10, as the code has it.  When [DecideInDir] succeeds on one entry
    and [Decide] is given a path that the provider normalizes to the path
    [DecideInDir] composed for the entry, then, from the same cache or
    from any later one: for a file entry [Decide] returns the same
    [MatchResult]; for a directory entry [Decide] first loads the rule
    file of the entry directory itself, fails if that load fails, and
    returns the same [MatchResult] otherwise. *)
Theorem C10_Decide_agrees_with_DecideInDir p (relDir relPath : str)
    (entry : DirEntry) (nd ne : str) cache (results : list MatchResult)
    cache' :
  cleanRelDir relDir = inr nd ->
  cleanEntryName (Name entry) = inr ne ->
  cleanRelPath relPath = inr (entryPath nd ne) ->
  Provider_DecideInDir rc rm w p relDir [entry] cache = (inr results, cache') ->
  exists r, results = [r]
    /\ let after := fun σ : dirCache Regexp =>
          if IsDir entry then
            match loadDirMatcher rc w p (entryPath nd ne) σ with
            | (inl err, σ') => (inl err, σ')
            | (inr _, σ') => (inr r, σ')
            end
          else (inr r, σ) in
       Provider_Decide rc rm w p relPath (IsDir entry) cache = after cache'
       /\ (forall σ, cache' ⊆ σ ->
           Provider_Decide rc rm w p relPath (IsDir entry) σ = after σ).
Proof.
  intros Hd He Hc Hbatch.
  rewrite (Provider_DecideInDir_single rc rm w _ _ _ _ _ _ Hd He) in Hbatch.
  destruct (loadChain rc w p (dirChain nd) cache) as [[err|scopes] cache1]
    eqn:Hload; [done |].
  injection Hbatch as <- <-.
  destruct (cleanEntryName_inr _ _ He) as [Hne Hs].
  eexists. split; [done |]. cbv zeta. split.
  - by apply Provider_Decide_entry.
  - intros σ Hσ. apply Provider_Decide_entry; [done.. |].
    by eapply loadChain_stable.
Qed.

End BatchClaims.

(** ** C8: candidate normalization *)

Section NormalizeFacts.

Lemma cleanElems_rooted_kept (elems out : list str) :
  Forall (fun e => "/"%char ∉ e) elems ->
  Forall keptElem out ->
  Forall keptElem (Path.cleanElems true elems out).
Proof.
  intros HF. revert out. induction HF as [|e es He _ IH]; intros out Hout.
  - cbn. by apply Forall_rev.
  - cbn [Path.cleanElems].
    case_bool_decide as H1; [by apply IH |].
    case_bool_decide as H2; [by apply IH |]. cbn [orb].
    case_bool_decide as H3.
    + destruct out as [|top below]; [by apply IH |].
      inversion Hout as [|? ? Htop Hbelow]; subst.
      rewrite bool_decide_eq_false_2 by apply Htop. by apply IH.
    + apply IH. constructor; [|done]. by repeat split.
Qed.

Lemma splitSlash_elem_prefix (s t : str) (e : str) :
  "/"%char ∉ e -> s = e ++ "/"%char :: t -> e ∈ splitSlash s.
Proof.
  intros He ->. rewrite splitSlash_cons_plain by done.
  apply elem_of_cons. by left.
Qed.

Lemma splitSlash_elem_inner (s pre post : str) (e : str) :
  "/"%char ∉ e -> s = pre ++ "/"%char :: e ++ "/"%char :: post ->
  e ∈ splitSlash s.
Proof.
  intros He ->. rewrite splitSlash_app, elem_of_app. right.
  by eapply splitSlash_elem_prefix.
Qed.

Lemma splitSlash_elem_suffix (s pre : str) (e : str) :
  "/"%char ∉ e -> s = pre ++ "/"%char :: e -> e ∈ splitSlash s.
Proof.
  intros He ->. rewrite splitSlash_app, elem_of_app. right.
  rewrite splitSlash_plain by done. apply elem_of_cons. by left.
Qed.

Lemma not_in_nil_str : "/"%char ∉ ([] : str).
Proof. apply not_elem_of_nil. Qed.

Lemma not_in_dot : "/"%char ∉ $".".
Proof. intros H. by repeat (apply elem_of_cons in H as [H|H]; [done |]); inversion H. Qed.

Lemma not_in_dotdot : "/"%char ∉ $"..".
Proof. intros H. by repeat (apply elem_of_cons in H as [H|H]; [done |]); inversion H. Qed.

(** A string whose elements are all kept passes the fast-path test. *)
Lemma isSimpleNormalizedPath_kept (s : str) :
  Forall keptElem (splitSlash s) -> isSimpleNormalizedPath s = true.
Proof.
  intros HF. rewrite Forall_forall in HF. rename HF into Hbad.
  unfold isSimpleNormalizedPath.
  assert (Hnone :
    bool_decide (s = []) || bool_decide (s = $".") || bool_decide (s = $"..")
    || HasPrefix s $"/" || HasSuffix s $"/" || HasPrefix s $"./"
    || HasPrefix s $"../" || Contains s $"//" || Contains s $"/./"
    || Contains s $"/../" || HasSuffix s $"/.." = false); [|by rewrite Hnone].
  apply not_true_iff_false. intros H.
  repeat (apply orb_true_iff in H as [H|H]).
  - apply bool_decide_eq_true in H as ->.
    destruct (Hbad []) as (Hx & _); [cbn; apply elem_of_cons; by left | done].
  - apply bool_decide_eq_true in H as ->.
    destruct (Hbad $".") as (_ & Hx & _); [cbn; apply elem_of_cons; by left | done].
  - apply bool_decide_eq_true in H as ->.
    destruct (Hbad $"..") as (_ & _ & Hx & _);
      [cbn; apply elem_of_cons; by left | done].
  - apply HasPrefix_spec in H as [t ->].
    destruct (Hbad []) as (Hx & _); [|done].
    by apply (splitSlash_elem_prefix _ t); [apply not_in_nil_str |].
  - apply HasSuffix_spec in H as [t ->].
    destruct (Hbad []) as (Hx & _); [|done].
    by apply (splitSlash_elem_suffix _ t); [apply not_in_nil_str |].
  - apply HasPrefix_spec in H as [t ->].
    destruct (Hbad $".") as (_ & Hx & _); [|done].
    by apply (splitSlash_elem_prefix _ t); [apply not_in_dot |].
  - apply HasPrefix_spec in H as [t ->].
    destruct (Hbad $"..") as (_ & _ & Hx & _); [|done].
    by apply (splitSlash_elem_prefix _ t); [apply not_in_dotdot |].
  - apply Contains_spec in H as (pre & post & ->).
    destruct (Hbad []) as (Hx & _); [|done].
    by apply (splitSlash_elem_inner _ pre post); [apply not_in_nil_str |].
  - apply Contains_spec in H as (pre & post & ->).
    destruct (Hbad $".") as (_ & Hx & _); [|done].
    by apply (splitSlash_elem_inner _ pre post); [apply not_in_dot |].
  - apply Contains_spec in H as (pre & post & ->).
    destruct (Hbad $"..") as (_ & _ & Hx & _); [|done].
    by apply (splitSlash_elem_inner _ pre post); [apply not_in_dotdot |].
  - apply HasSuffix_spec in H as [t ->].
    destruct (Hbad $"..") as (_ & _ & Hx & _); [|done].
    by apply (splitSlash_elem_suffix _ t); [apply not_in_dotdot |].
Qed.

Lemma keptElem_plain (elems : list str) :
  Forall keptElem elems -> Forall (fun e => "/"%char ∉ e) elems.
Proof. induction 1 as [|e es (_ & _ & _ & H) _ IH]; by constructor. Qed.

(** What the slow path of [normalizePath] returns. *)
Lemma normalizePath_slow (raw : str) :
  let elems := Path.cleanElems true (splitSlash ($"/" ++ raw)) [] in
  Forall keptElem elems
  /\ (let cleaned := TrimPrefix (Path.Clean ($"/" ++ raw)) $"/" in
      (if bool_decide (cleaned = $".") then [] else TrimSuffix cleaned $"/")
      = joinSlash elems).
Proof.
  intros elems.
  assert (HF : Forall keptElem elems).
  { apply cleanElems_rooted_kept; [apply splitSlash_no_slash | constructor]. }
  split; [done |].
  change (Path.Clean ($"/" ++ raw)) with ("/"%char :: joinSlash elems).
  change (TrimPrefix ("/"%char :: joinSlash elems) $"/")
    with (joinSlash elems).
  cbv zeta.
  destruct (decide (elems = [])) as [->|Hne]; [done |].
  pose proof (splitSlash_join elems Hne (keptElem_plain _ HF)) as Hsplit.
  rewrite Forall_forall in HF.
  case_bool_decide as Hdot.
  - exfalso. rewrite Hdot in Hsplit.
    destruct (HF $".") as (_ & Hx & _); [|done].
    rewrite <- Hsplit. by left.
  - unfold TrimSuffix. destruct (HasSuffix (joinSlash elems) $"/") eqn:Hs; [|done].
    exfalso. apply HasSuffix_spec in Hs as [t Ht].
    destruct (HF []) as (Hx & _); [|done].
    rewrite <- Hsplit.
    by apply (splitSlash_elem_suffix _ t); [apply not_in_nil_str |].
Qed.

Lemma normalizePath_simple_or_empty (s : str) :
  normalizePath s = [] \/ isSimpleNormalizedPath (normalizePath s) = true.
Proof.
  unfold normalizePath.
  set (raw := TrimPrefix (TrimPrefix _ $"./") $"/").
  case_bool_decide as H0; [by left |].
  destruct (isSimpleNormalizedPath raw) eqn:Hs; [by right |].
  destruct (normalizePath_slow raw) as [HF Heq]. cbv zeta in Heq.
  rewrite Heq.
  set (elems := Path.cleanElems true (splitSlash ($"/" ++ raw)) []) in *.
  destruct (decide (elems = [])) as [->|Hne]; [by left |].
  right. apply isSimpleNormalizedPath_kept.
  by rewrite splitSlash_join by (done || by apply keptElem_plain).
Qed.

End NormalizeFacts.

Section NormalizeClaims.

Lemma replaceAll_loop_byte (a b : ascii) :
  forall fuel s, length s <= fuel ->
    replaceAll_loop fuel s [a] [b] = map (replaceByte a b) s.
Proof.
  induction fuel as [|fuel IH]; intros s Hlen.
  - destruct s; [done | simpl in Hlen; lia].
  - destruct s as [|c s]; [done |]. cbn [replaceAll_loop HasPrefix map].
    cbn [length] in Hlen. unfold replaceByte at 1.
    destruct (Ascii.eqb c a); cbn [andb app length skipn];
      rewrite ?drop_0, IH by lia; done.
Qed.

Lemma ReplaceAll_byte (s : str) (a b : ascii) :
  ReplaceAll s [a] [b] = map (replaceByte a b) s.
Proof. by apply replaceAll_loop_byte. Qed.

Lemma TrimPrefix_elem (s p : str) (c : ascii) :
  c ∈ TrimPrefix s p -> c ∈ s.
Proof.
  unfold TrimPrefix. destruct (HasPrefix s p); [|done].
  intros H. apply list_elem_of_lookup in H as [i Hi].
  rewrite lookup_drop in Hi. by eapply list_elem_of_lookup_2.
Qed.

Lemma joinSlash_elem (elems : list str) (c : ascii) :
  c ∈ joinSlash elems -> c = "/"%char \/ exists e, e ∈ elems /\ c ∈ e.
Proof.
  induction elems as [|e es IH]; [by intros H; inversion H |].
  destruct es as [|e' es].
  - cbn. intros H. right. exists e. split; [by left | done].
  - rewrite joinSlash_cons by done. rewrite elem_of_app, elem_of_cons.
    intros [H|[H|H]].
    + right. exists e. split; [by left | done].
    + by left.
    + destruct (IH H) as [?|(x & Hx & Hc)]; [by left |].
      right. exists x. split; [by right | done].
Qed.

Lemma splitSlash_elem_chars (s e : str) (c : ascii) :
  e ∈ splitSlash s -> c ∈ e -> c ∈ s.
Proof.
  revert e. induction s as [|x s IH]; intros e.
  - cbn. intros H Hc. apply list_elem_of_singleton in H as ->. done.
  - cbn [splitSlash]. destruct (Ascii.eqb x "/").
    + rewrite elem_of_cons. intros [->|H] Hc; [by inversion Hc |].
      right. by eapply IH.
    + destruct (splitSlash s) as [|e0 es] eqn:Es; [by destruct (splitSlash_ne s) |].
      rewrite elem_of_cons. intros [->|H] Hc.
      * apply elem_of_cons in Hc as [->|Hc]; [by left |].
        right. apply (IH e0); [by left | done].
      * right. apply (IH e); [by right | done].
Qed.

Lemma cleanElems_elem (rooted : bool) (elems out : list str) (e : str) :
  e ∈ Path.cleanElems rooted elems out -> e ∈ elems \/ e ∈ out.
Proof.
  revert out. induction elems as [|x es IH]; intros out.
  - cbn. intros H. right. apply list_elem_of_In, in_rev.
    by apply list_elem_of_In.
  - cbn [Path.cleanElems]. intros H.
    assert (Hpush : e ∈ es \/ e ∈ x :: out -> e ∈ x :: es \/ e ∈ out).
    { rewrite !elem_of_cons. tauto. }
    assert (Hskip : e ∈ es \/ e ∈ out -> e ∈ x :: es \/ e ∈ out).
    { rewrite !elem_of_cons. tauto. }
    repeat match type of H with
           | _ ∈ (if ?b then _ else _) => destruct b
           | _ ∈ match ?o with [] => _ | _ :: _ => _ end => destruct o as [|top below]
           end; apply IH in H; try (by apply Hpush); try (by apply Hskip).
    destruct H as [H|H]; [left; by right | right; by right].
Qed.

Lemma normalizePath_no_backslash (s : str) : "\"%char ∉ normalizePath s.
Proof.
  unfold normalizePath.
  set (t := TrimSpace s).
  set (u := if Contains t $"\" then ReplaceAll t $"\" $"/" else t).
  assert (Hu : "\"%char ∉ u).
  { unfold u. destruct (Contains t $"\") eqn:Hc.
    - change ($"\") with ["\"%char]. change ($"/") with ["/"%char].
      rewrite ReplaceAll_byte. intros H.
      apply list_elem_of_In, in_map_iff in H as (c & Hc' & _).
      unfold replaceByte in Hc'. destruct (Ascii.eqb c "\") eqn:E; [done |].
      apply eqb_false in E. done.
    - intros H. apply (Contains_byte t "\") in H.
      change ["\"%char] with ($"\") in H. congruence. }
  set (raw := TrimPrefix (TrimPrefix u $"./") $"/").
  assert (Hraw : "\"%char ∉ raw).
  { intros H. by do 2 apply TrimPrefix_elem in H. }
  case_bool_decide; [apply not_elem_of_nil |].
  destruct (isSimpleNormalizedPath raw); [done |].
  destruct (normalizePath_slow raw) as [_ Heq]. cbv zeta in Heq. rewrite Heq.
  intros Hin. apply joinSlash_elem in Hin as [?|(e & He & Hc)]; [done |].
  apply cleanElems_elem in He as [He|He]; [|by inversion He].
  apply (splitSlash_elem_chars _ _ _ He) in Hc.
  apply elem_of_cons in Hc as [?|Hc]; done.
Qed.

Lemma isSimpleNormalizedPath_true (p : str) :
  isSimpleNormalizedPath p = true ->
  p <> [] /\ HasPrefix p $"/" = false /\ HasPrefix p $"./" = false.
Proof.
  unfold isSimpleNormalizedPath.
  destruct (bool_decide (p = [])) eqn:H1; [done |].
  destruct (bool_decide (p = $".")); [done |].
  destruct (bool_decide (p = $"..")); [done |].
  destruct (HasPrefix p $"/") eqn:H2; [done |].
  destruct (HasSuffix p $"/"); [done |].
  destruct (HasPrefix p $"./") eqn:H3; [done |].
  intros _. by apply bool_decide_eq_false in H1.
Qed.

Lemma normalizePath_fixed (p : str) :
  isSimpleNormalizedPath p = true ->
  TrimSpace p = p ->
  "\"%char ∉ p ->
  normalizePath p = p.
Proof.
  intros Hs Ht Hb. destruct (isSimpleNormalizedPath_true p Hs) as (Hne & H1 & H2).
  unfold normalizePath. rewrite Ht.
  replace (Contains p $"\") with false.
  - unfold TrimPrefix. rewrite H2, H1, Hs.
    by rewrite bool_decide_eq_false_2.
  - symmetry. apply not_true_iff_false. intros H.
    by apply (Contains_byte p "\") in H.
Qed.

(** C8, as the code has it.  The output of [normalizePath] is empty or
    passes the fast-path test; a path that passes the test, carries no
    white space at its ends and has no backslash is returned unchanged;
    so normalizing twice is normalizing once whenever the first result
    has no white space at its ends. *)
Theorem C8_normalizePath_idempotent_when_trimmed :
  (forall s : str,
     normalizePath s = [] \/ isSimpleNormalizedPath (normalizePath s) = true)
  /\ (forall p : str,
        isSimpleNormalizedPath p = true -> TrimSpace p = p ->
        "\"%char ∉ p -> normalizePath p = p)
  /\ (forall s : str, "\"%char ∉ normalizePath s)
  /\ (forall s : str,
        TrimSpace (normalizePath s) = normalizePath s ->
        normalizePath (normalizePath s) = normalizePath s).
Proof.
  split; [apply normalizePath_simple_or_empty |].
  split; [apply normalizePath_fixed |].
  split; [apply normalizePath_no_backslash |].
  intros s Ht.
  destruct (normalizePath_simple_or_empty s) as [->|Hs]; [done |].
  apply normalizePath_fixed; [done.. |]. apply normalizePath_no_backslash.
Qed.

(** The claim as stated fails: a blank after the stripped [./] survives
    the first normalization and is trimmed by the second. *)
Lemma C8_counterexample :
  normalizePath (normalizePath $"./ a") <> normalizePath $"./ a"
  /\ isSimpleNormalizedPath (normalizePath $"./ a") = true
  /\ isSimpleNormalizedPath $" a" = true
  /\ normalizePath $" a" <> $" a".
Proof. vm_compute. repeat split; congruence. Qed.

End NormalizeClaims.

(** ** C7: ASCII case folding *)

Section FoldingFacts.

Lemma lowerByte_cases (c : ascii) :
  (isUpper c = false /\ lowerByte c = c)
  \/ (isUpper c = true /\ isLowerAZ (lowerByte c) = true
      /\ nat_of_ascii (lowerByte c) = nat_of_ascii c + 32).
Proof. destruct c as [[] [] [] [] [] [] [] []]; vm_compute; auto. Qed.

Lemma isUpper_not_lower (c : ascii) : isUpper c = true -> isLowerAZ c = false.
Proof. destruct c as [[] [] [] [] [] [] [] []]; vm_compute; auto. Qed.

Lemma asciiLower_map (s : str) : asciiLower s = map lowerByte s.
Proof.
  induction s as [|c s IH]; [done |]. cbn [asciiLower].
  destruct (isUpper c) eqn:E; [done |]. cbn [map]. rewrite IH. f_equal.
  unfold lowerByte. by rewrite E.
Qed.

Lemma lowerByte_idemp (c : ascii) : lowerByte (lowerByte c) = lowerByte c.
Proof.
  destruct (lowerByte_cases c) as [[_ H]|(_ & Hl & _)]; [by rewrite !H |].
  unfold lowerByte at 1.
  destruct (isUpper (lowerByte c)) eqn:E; [|done].
  apply isUpper_not_lower in E. congruence.
Qed.

Lemma asciiLower_idemp (s : str) : asciiLower (asciiLower s) = asciiLower s.
Proof.
  rewrite !asciiLower_map, map_map. apply map_ext. apply lowerByte_idemp.
Qed.

Lemma lowerByte_eqb (c k : ascii) :
  isLetter k = false -> Ascii.eqb (lowerByte c) k = Ascii.eqb c k.
Proof.
  intros Hk. apply orb_false_iff in Hk as [Hu Hl].
  destruct (lowerByte_cases c) as [[_ H]|(Hc & Hlc & _)]; [by rewrite H |].
  transitivity false; [|symmetry]; apply eqb_false; intros <-; congruence.
Qed.

Lemma lowerByte_fixed (k : ascii) : isLetter k = false -> lowerByte k = k.
Proof.
  intros Hk. apply orb_false_iff in Hk as [Hu _].
  unfold lowerByte. by rewrite Hu.
Qed.

Local Abbreviation L := (map lowerByte).

Lemma noLetters_cons (k : ascii) (p : str) :
  noLetters (k :: p) = true -> isLetter k = false /\ noLetters p = true.
Proof.
  unfold noLetters. cbn [forallb]. rewrite andb_true_iff, negb_true_iff. done.
Qed.

Lemma lower_HasPrefix (s p : str) :
  noLetters p = true -> HasPrefix (L s) p = HasPrefix s p.
Proof.
  revert s. induction p as [|k p IH]; intros s Hp; [done |].
  apply noLetters_cons in Hp as [Hk Hp].
  destruct s as [|c s]; [done |]. cbn [map HasPrefix].
  by rewrite lowerByte_eqb, IH.
Qed.

Lemma lower_eq (s p : str) :
  noLetters p = true -> L s = p <-> s = p.
Proof.
  revert s. induction p as [|k p IH]; intros s Hp.
  - destruct s; done.
  - apply noLetters_cons in Hp as [Hk Hp].
    destruct s as [|c s]; [done |]. cbn [map]. split.
    + intros [= H1 H2]. apply (proj1 (IH s Hp)) in H2. rewrite H2.
      assert (c = k) as ->; [|done].
      apply eqb_true. rewrite <- lowerByte_eqb by done. by apply eqb_true.
    + intros [= -> ->]. f_equal.
      * by apply lowerByte_fixed.
      * by apply (proj2 (IH p Hp)).
Qed.

Lemma lower_bool_decide (s p : str) :
  noLetters p = true -> bool_decide (L s = p) = bool_decide (s = p).
Proof. intros Hp. apply bool_decide_ext. by apply lower_eq. Qed.

Lemma lower_nil (s : str) : bool_decide (L s = []) = bool_decide (s = []).
Proof. apply bool_decide_ext. by apply lower_eq. Qed.

Lemma lower_HasSuffix (s p : str) :
  noLetters p = true -> HasSuffix (L s) p = HasSuffix s p.
Proof.
  intros Hp. unfold HasSuffix. rewrite length_map. f_equal.
  rewrite skipn_map. by apply lower_bool_decide.
Qed.

Lemma lower_Index (s p : str) :
  noLetters p = true -> Index (L s) p = Index s p.
Proof.
  intros Hp. induction s as [|c s IH].
  - done.
  - cbn [map Index]. rewrite <- IH.
    change (lowerByte c :: L s) with (L (c :: s)).
    by rewrite lower_HasPrefix.
Qed.

Lemma lower_Contains (s p : str) :
  noLetters p = true -> Contains (L s) p = Contains s p.
Proof. intros Hp. unfold Contains. by rewrite lower_Index. Qed.

Lemma lower_TrimPrefix (s p : str) :
  noLetters p = true -> TrimPrefix (L s) p = L (TrimPrefix s p).
Proof.
  intros Hp. unfold TrimPrefix. rewrite lower_HasPrefix by done.
  destruct (HasPrefix s p); [|done]. by rewrite skipn_map.
Qed.

Lemma lower_TrimSuffix (s p : str) :
  noLetters p = true -> TrimSuffix (L s) p = L (TrimSuffix s p).
Proof.
  intros Hp. unfold TrimSuffix. rewrite lower_HasSuffix by done.
  destruct (HasSuffix s p); [|done]. by rewrite length_map, firstn_map.
Qed.

Lemma find_ext_Forall {A} (f g : A -> bool) (l : list A) :
  Forall (fun x => f x = g x) l -> find f l = find g l.
Proof. induction 1 as [|x l Hx _ IH]; [done |]. cbn. by rewrite Hx, IH. Qed.

Lemma spaceRunes_noLetters : Forall (fun e => noLetters e = true) spaceRunes.
Proof. repeat constructor. Qed.

Lemma lower_leadingSpace (s : str) : leadingSpace (L s) = leadingSpace s.
Proof.
  unfold leadingSpace. f_equal. apply find_ext_Forall.
  eapply Forall_impl; [apply spaceRunes_noLetters |].
  intros e He. by apply lower_HasPrefix.
Qed.

Lemma lower_trailingSpace (s : str) : trailingSpace (L s) = trailingSpace s.
Proof.
  unfold trailingSpace. f_equal. apply find_ext_Forall.
  eapply Forall_impl; [apply spaceRunes_noLetters |].
  intros e He. by apply lower_HasSuffix.
Qed.

Lemma lower_trimLeftSpace (fuel : nat) (s : str) :
  trimLeftSpace fuel (L s) = L (trimLeftSpace fuel s).
Proof.
  revert s. induction fuel as [|fuel IH]; intros s; [done |].
  cbn [trimLeftSpace]. rewrite lower_leadingSpace.
  destruct (leadingSpace s) as [n|]; [|done]. by rewrite skipn_map, IH.
Qed.

Lemma lower_trimRightSpace (fuel : nat) (s : str) :
  trimRightSpace fuel (L s) = L (trimRightSpace fuel s).
Proof.
  revert s. induction fuel as [|fuel IH]; intros s; [done |].
  cbn [trimRightSpace]. rewrite lower_trailingSpace, length_map.
  destruct (trailingSpace s) as [n|]; [|done]. by rewrite firstn_map, IH.
Qed.

Lemma lower_TrimSpace (s : str) : TrimSpace (L s) = L (TrimSpace s).
Proof.
  unfold TrimSpace. rewrite length_map, lower_trimLeftSpace, length_map.
  apply lower_trimRightSpace.
Qed.

Lemma lower_ReplaceAll_backslash (s : str) :
  ReplaceAll (L s) $"\" $"/" = L (ReplaceAll s $"\" $"/").
Proof.
  change ($"\") with ["\"%char]. change ($"/") with ["/"%char].
  rewrite !ReplaceAll_byte, !map_map. apply map_ext. intros c.
  unfold replaceByte. rewrite lowerByte_eqb by done.
  destruct (Ascii.eqb c "\"); done.
Qed.

Lemma lower_isSimpleNormalizedPath (s : str) :
  isSimpleNormalizedPath (L s) = isSimpleNormalizedPath s.
Proof.
  unfold isSimpleNormalizedPath. rewrite lower_nil.
  rewrite !lower_bool_decide by reflexivity.
  rewrite !lower_HasPrefix by reflexivity.
  rewrite !lower_HasSuffix by reflexivity.
  rewrite !lower_Contains by reflexivity.
  reflexivity.
Qed.

Lemma lower_splitSlash (s : str) : splitSlash (L s) = map L (splitSlash s).
Proof.
  induction s as [|c s IH]; [done |]. cbn [map splitSlash].
  rewrite lowerByte_eqb, IH by done.
  destruct (Ascii.eqb c "/"); [done |]. by destruct (splitSlash s).
Qed.

Lemma lower_joinSlash (elems : list str) :
  joinSlash (map L elems) = L (joinSlash elems).
Proof.
  induction elems as [|e es IH]; [done |].
  destruct es as [|e' es]; [done |].
  change (map L (e :: e' :: es)) with (L e :: map L (e' :: es)).
  rewrite !joinSlash_cons by done. rewrite IH, map_app. done.
Qed.

Lemma lower_cleanElems (rooted : bool) (elems out : list str) :
  Path.cleanElems rooted (map L elems) (map L out)
  = map L (Path.cleanElems rooted elems out).
Proof.
  revert out. induction elems as [|e es IH]; intros out.
  - cbn. by rewrite map_rev.
  - cbn [map Path.cleanElems].
    rewrite lower_nil, !(lower_bool_decide e) by reflexivity.
    destruct (bool_decide (e = []) || bool_decide (e = $".")); [apply IH |].
    destruct (bool_decide (e = $"..")).
    + destruct out as [|top below]; cbn [map].
      * destruct rooted; [apply (IH []) | apply (IH [e])].
      * rewrite (lower_bool_decide top) by reflexivity.
        destruct (bool_decide (top = $"..")); [apply (IH (e :: top :: below)) |].
        apply IH.
    + apply (IH (e :: out)).
Qed.

Lemma lower_Clean_rooted (s : str) :
  Path.Clean ($"/" ++ L s) = L (Path.Clean ($"/" ++ s)).
Proof.
  change ($"/" ++ L s) with (L ($"/" ++ s)).
  change (Path.Clean (L ($"/" ++ s)))
    with ("/"%char :: joinSlash (Path.cleanElems true (splitSlash (L ($"/" ++ s))) [])).
  change (Path.Clean ($"/" ++ s))
    with ("/"%char :: joinSlash (Path.cleanElems true (splitSlash ($"/" ++ s)) [])).
  rewrite lower_splitSlash.
  change ([] : list str) with (map L []) at 1.
  by rewrite lower_cleanElems, lower_joinSlash.
Qed.

Lemma lower_normalizePath (s : str) :
  normalizePath (L s) = L (normalizePath s).
Proof.
  unfold normalizePath. rewrite lower_TrimSpace.
  set (t := TrimSpace s). rewrite lower_Contains by done.
  assert (Hu : (if Contains t $"\" then ReplaceAll (L t) $"\" $"/" else L t)
               = L (if Contains t $"\" then ReplaceAll t $"\" $"/" else t)).
  { destruct (Contains t $"\"); [apply lower_ReplaceAll_backslash | done]. }
  rewrite Hu. set (u := if Contains t $"\" then _ else t).
  rewrite !lower_TrimPrefix by done.
  set (raw := TrimPrefix (TrimPrefix u $"./") $"/").
  rewrite lower_nil, lower_isSimpleNormalizedPath.
  destruct (bool_decide (raw = [])); [done |].
  destruct (isSimpleNormalizedPath raw); [done |].
  rewrite lower_Clean_rooted, lower_TrimPrefix by done.
  rewrite lower_bool_decide by done.
  destruct (bool_decide (_ = $".")); [done |].
  by apply lower_TrimSuffix.
Qed.

Lemma lower_normalizePattern (s : str) :
  normalizePattern (L s) = L (normalizePattern s).
Proof.
  unfold normalizePattern. by rewrite lower_TrimSpace, lower_ReplaceAll_backslash.
Qed.

Lemma asciiLower_normalizePath (s : str) :
  asciiLower (normalizePath (asciiLower s)) = asciiLower (normalizePath s).
Proof.
  rewrite !asciiLower_map, lower_normalizePath, map_map.
  apply map_ext. apply lowerByte_idemp.
Qed.

End FoldingFacts.

Section FoldingClaims.

Context {Regexp : Type}.
Variable rc : str -> option Regexp.
Variable rm : Regexp -> str -> bool.

Lemma preparedPattern_caseVariant (r r' : Rule) :
  caseVariant r r' -> preparedPattern r true = preparedPattern r' true.
Proof.
  intros [_ H]. unfold preparedPattern. cbv zeta.
  rewrite !asciiLower_map, <- !lower_normalizePattern, <- !asciiLower_map.
  by rewrite H.
Qed.

Lemma compileRule_congr (r r' : Rule) (ci : bool) :
  RAction r = RAction r' ->
  preparedPattern r ci = preparedPattern r' ci ->
  compileRule rc r' ci
  = match compileRule rc r ci with
    | inl err => inl err
    | inr cr => inr (withSource cr r')
    end.
Proof.
  intros Ha Hp. unfold compileRule. rewrite <- Ha. cbv zeta.
  change (if ci then asciiLower (normalizePattern (Pattern r'))
          else normalizePattern (Pattern r'))
    with (preparedPattern r' ci).
  change (if ci then asciiLower (normalizePattern (Pattern r))
          else normalizePattern (Pattern r))
    with (preparedPattern r ci).
  rewrite <- Hp. generalize (preparedPattern r ci). intros pp.
  repeat match goal with
         | |- context [if ?b then _ else _] => destruct b
         | |- context [let '(_, _) := ?x in _] => destruct x
         end; try reflexivity.
  all: repeat match goal with
         | |- context [match rc ?x with _ => _ end] => destruct (rc x)
         end; reflexivity.
Qed.

Lemma matches_withSource (cr : compiledRule Regexp) (r' : Rule)
    (c : str) (d : bool) :
  matches rm (withSource cr r') c d = matches rm cr c d.
Proof. reflexivity. Qed.

Lemma decideLoop_variant (l l' : list (compiledRule Regexp)) :
  Forall2 sameCompiled l l' ->
  forall i c d res, decideLoop rm l' i c d res = decideLoop rm l i c d res.
Proof.
  induction 1 as [|cr cr' l l' (r' & -> & Ha) _ IH]; intros i c d res; [done |].
  cbn [decideLoop]. rewrite matches_withSource. cbn [source withSource].
  rewrite Ha. by rewrite !IH.
Qed.

Lemma compileRules_variant (rules rules' : list Rule) :
  Forall2 caseVariant rules rules' ->
  forall acc acc', Forall2 sameCompiled acc acc' ->
    match compileRules rc rules true acc with
    | inl err => compileRules rc rules' true acc' = inl err
    | inr l => exists l', compileRules rc rules' true acc' = inr l'
                          /\ Forall2 sameCompiled l l'
    end.
Proof.
  induction 1 as [|r r' rules rules' Hv _ IH]; intros acc acc' Hacc.
  - cbn. eauto.
  - cbn [compileRules].
    rewrite (compileRule_congr r r' true (proj1 Hv)
               (preparedPattern_caseVariant _ _ Hv)).
    destruct (compileRule rc r true) as [err|cr] eqn:E; [done |].
    apply IH. apply Forall2_app; [done |]. constructor; [|constructor].
    exists r'. split; [done |].
    rewrite (compileRule_source rc _ _ _ E). symmetry. apply Hv.
Qed.

Lemma Decide_lowered (m : Matcher Regexp) (c : str) (d : bool) :
  caseInsensitive m = true ->
  Decide rm m (asciiLower c) d = Decide rm m c d.
Proof.
  intros Hci. unfold Decide. rewrite Hci. by rewrite asciiLower_normalizePath.
Qed.

(** C7, as the code has it.  [asciiLower] changes the bytes A-Z only,
    by adding 32.  When the matcher is case insensitive, rule lists that
    differ only in the ASCII case of their patterns give the same
    decisions, and the decision on a candidate is the decision on the
    lowered candidate.  When it is not, pattern and candidate are
    compared unfolded, and case variants can decide differently: [A]
    matches the candidate [A], [a] does not. *)
Theorem C7_case_folding :
  (forall s : str, asciiLower s = map lowerByte s)
  /\ (forall c : ascii, isUpper c = false -> lowerByte c = c)
  /\ (forall c : ascii, isUpper c = true ->
        nat_of_ascii (lowerByte c) = nat_of_ascii c + 32)
  /\ (forall (rules rules' : list Rule) (opts : MatcherOptions)
             (m : Matcher Regexp),
        CaseInsensitive opts = true ->
        Forall2 caseVariant rules rules' ->
        NewMatcher rc rules opts = inr m ->
        exists m', NewMatcher rc rules' opts = inr m'
                   /\ forall c d, Decide rm m' c d = Decide rm m c d)
  /\ (forall (m : Matcher Regexp) (c : str) (d : bool),
        caseInsensitive m = true ->
        Decide rm m (asciiLower c) d = Decide rm m c d)
  /\ (forall rule : Rule,
        preparedPattern rule false = normalizePattern (Pattern rule))
  /\ (forall path : str, decideCandidate false path = normalizePath path)
  /\ (exists m m' : Matcher Regexp,
        NewMatcher rc [mkRule $"A" ActionExclude]
          (mkMatcherOptions false ActionInclude) = inr m
        /\ NewMatcher rc [mkRule $"a" ActionExclude]
             (mkMatcherOptions false ActionInclude) = inr m'
        /\ Decide rm m $"A" false = mkMatchResult false true 0
        /\ Decide rm m' $"A" false = mkMatchResult true false (-1)).
Proof.
  split; [apply asciiLower_map |].
  split. { intros c H. unfold lowerByte. by rewrite H. }
  split. { intros c H. destruct (lowerByte_cases c) as [[? _]|(_ & _ & ?)];
             [congruence | done]. }
  split.
  { intros rules rules' opts m Hci Hv Hm. unfold NewMatcher in *.
    assert (Hci' : CaseInsensitive (applyDefaults opts) = true).
    { unfold applyDefaults. by destruct (Action_valid _). }
    rewrite Hci' in *.
    pose proof (compileRules_variant rules rules' Hv [] [] ltac:(constructor)) as H.
    destruct (compileRules rc rules true []) as [err|l]; [done |].
    destruct H as (l' & -> & Hl). injection Hm as <-.
    eexists. split; [done |]. intros c d. unfold Decide.
    cbn [caseInsensitive compiled defaultAction].
    by apply decideLoop_variant. }
  split. { intros m c d. apply Decide_lowered. }
  split; [done |]. split; [done |].
  do 2 eexists. split; [vm_compute; reflexivity |].
  split; [vm_compute; reflexivity |]. split; vm_compute; reflexivity.
Qed.

End FoldingClaims.

(** ** C3: paths the provider rejects, and one it should reject *)

Section RejectedPaths.

Context {Regexp : Type}.
Variable rc : str -> option Regexp.
Variable rm : Regexp -> str -> bool.
Variable w : World.

Lemma cleanRelPath_error (raw : str) (err : error) :
  cleanRelPath raw = inl err -> err = ErrPathOutsideRoot.
Proof.
  unfold cleanRelPath. intros H.
  repeat match type of H with
         | (if ?b then _ else _) = _ => destruct b
         end; congruence.
Qed.

(** A rejected path leaves the cache as it is and yields the zero
    result next to [ErrPathOutsideRoot]. *)
Lemma Provider_Decide_rejected (p : Provider Regexp) (raw : str)
    (isDir : bool) (cache : dirCache Regexp) (err : error) :
  cleanRelPath raw = inl err ->
  Provider_Decide_ptr rc rm w (Some p) raw isDir cache
  = ((zeroMatchResult, Some ErrPathOutsideRoot), cache).
Proof.
  intros H. pose proof (cleanRelPath_error _ _ H) as ->.
  unfold Provider_Decide_ptr, Provider_Decide. by rewrite H.
Qed.

Lemma cleanRelPath_rejects_blank (raw : str) :
  TrimSpace raw = [] -> cleanRelPath raw = inl ErrPathOutsideRoot.
Proof. intros H. unfold cleanRelPath. by rewrite H. Qed.

Lemma cleanRelPath_rejects_absolute (raw : str) :
  HasPrefix (TrimSpace raw) $"/" = true ->
  cleanRelPath raw = inl ErrPathOutsideRoot.
Proof.
  intros H. unfold cleanRelPath, filepath_IsAbs. rewrite H.
  by destruct (bool_decide _).
Qed.

End RejectedPaths.

(** C3 fails on the code: a path that starts with two [./] hides a
    following [..] element from every test of [cleanRelPath], and the
    provider decides on [a] instead of rejecting it. *)
Lemma C3_dotdot_after_dot_segments_accepted :
  cleanRelPath $"././../a" = inr $"a"
  /\ fst (Provider_Decide Sample.reCompile Sample.reMatchString Sample.world
            Sample.provider $"././../a" false ∅)
     = inr (mkMatchResult true false (-1))
  /\ cleanRelPath $"../a" = inl ErrPathOutsideRoot
  /\ cleanRelPath $"./../a" = inl ErrPathOutsideRoot.
Proof. vm_compute. repeat split; reflexivity. Qed.

(** ** Counterexamples to C7 and C10 as stated *)

Lemma isSimpleNormalizedPath_no_double_slash (s : str) :
  isSimpleNormalizedPath s = true -> Contains s $"//" = false.
Proof.
  unfold isSimpleNormalizedPath. destruct (Contains s $"//"); [|done].
  by rewrite !orb_true_r.
Qed.

Lemma matchExactPathRule_double_slash (p cand : str) (d : bool) :
  Contains p $"//" = true ->
  cand = [] \/ isSimpleNormalizedPath cand = true ->
  matchExactPathRule p cand d false false = false.
Proof.
  intros Hp [->|Hs].
  - unfold matchExactPathRule. by rewrite orb_true_r.
  - apply isSimpleNormalizedPath_no_double_slash in Hs as Hc.
    apply isSimpleNormalizedPath_true in Hs as (Hne & _).
    assert (Hpne : p <> []) by (by intros ->).
    apply not_true_iff_false. rewrite matchExactPathRule_spec by done.
    apply Contains_spec in Hp as (a & b & ->).
    cbn. intros [->|[pre ->]].
    + rewrite (proj2 (Contains_spec _ _)) in Hc; [done | by exists a, b].
    + rewrite (proj2 (Contains_spec _ _)) in Hc; [done |].
      exists (pre ++ $"/" ++ a), b. by rewrite <- !app_assoc.
Qed.

Lemma matches_pathExact {Regexp : Type} (rm : Regexp -> str -> bool)
    (cr : compiledRule Regexp) (cand : str) (d : bool) :
  hasSlash cr = true -> pathExact cr <> [] ->
  matches rm cr cand d
  = if bool_decide (cand = []) then false
    else matchExactPathRule (pathExact cr) cand d (anchored cr) (dirOnly cr).
Proof.
  intros Hs Hp. unfold matches. rewrite Hs.
  by rewrite (bool_decide_eq_false_2 (pathExact cr = [])).
Qed.

(** With case folding disabled, the distinct case variants [A//b] and
    [a//b] decide every candidate alike: neither ever matches. *)
Lemma C7_counterexample :
  exists m m' : Matcher Sample.Re,
    NewMatcher Sample.reCompile [mkRule $"A//b" ActionExclude]
      (mkMatcherOptions false ActionInclude) = inr m
    /\ NewMatcher Sample.reCompile [mkRule $"a//b" ActionExclude]
         (mkMatcherOptions false ActionInclude) = inr m'
    /\ caseVariant (mkRule $"A//b" ActionExclude) (mkRule $"a//b" ActionExclude)
    /\ $"A//b" <> $"a//b"
    /\ forall c d, Decide Sample.reMatchString m c d
                   = Decide Sample.reMatchString m' c d.
Proof.
  do 2 eexists. split; [vm_compute; reflexivity |].
  split; [vm_compute; reflexivity |]. split; [by vm_compute |].
  split; [done |]. intros c d. unfold Decide.
  cbn [caseInsensitive compiled defaultAction decideLoop].
  set (cand := normalizePath c).
  assert (Hcand : cand = [] \/ isSimpleNormalizedPath cand = true)
    by apply normalizePath_simple_or_empty.
  rewrite !matches_pathExact by done.
  cbn [pathExact anchored dirOnly].
  rewrite !matchExactPathRule_double_slash;
    [by destruct (bool_decide (cand = [])) | | done | | done].
  - apply Contains_spec. by exists ($"a"), ($"b").
  - apply Contains_spec. by exists ($"A"), ($"b").
Qed.

(** A directory entry whose own rule file does not compile: the batch
    call decides it, the single call fails, before and after the batch
    call. *)
Lemma C10_counterexample :
  cleanRelDir [] = inr []
  /\ cleanEntryName $"sub" = inr $"sub"
  /\ cleanRelPath $"sub" = inr (entryPath [] $"sub")
  /\ fst (Provider_DecideInDir Sample.reCompile Sample.reMatchString
            Sample.world Sample.provider [] [mkDirEntry $"sub" true] ∅)
     = inr [mkMatchResult true false (-1)]
  /\ fst (Provider_Decide Sample.reCompile Sample.reMatchString
            Sample.world Sample.provider $"sub" true ∅)
     = inl ErrInvalidPattern
  /\ fst (Provider_Decide Sample.reCompile Sample.reMatchString
            Sample.world Sample.provider $"sub" true
            (snd (Provider_DecideInDir Sample.reCompile Sample.reMatchString
                    Sample.world Sample.provider []
                    [mkDirEntry $"sub" true] ∅)))
     = inl ErrInvalidPattern.
Proof. vm_compute. repeat split; reflexivity. Qed.

(** ** The theorems at work on the sample *)

Lemma C9_witness :
  Action_valid (RAction (mkRule $"a" ActionUnknown)) = false
  /\ compileRule Sample.reCompile (mkRule $"a" ActionUnknown) false
     = inl ErrInvalidRule
  /\ strippedPattern (mkRule $" // " ActionExclude) false = []
  /\ compileRule Sample.reCompile (mkRule $" // " ActionExclude) false
     = inl ErrInvalidPattern.
Proof.
  pose proof (C9_NewMatcher_compile_errors Sample.reCompile []
                (mkMatcherOptions false ActionInclude)) as H.
  cbv zeta in H. destruct H as (H1 & _ & H3 & _).
  split; [reflexivity |]. split; [apply H1; reflexivity |].
  split; [reflexivity |]. apply H3; reflexivity.
Defined.

Lemma C1_witness :
  NewMatcher Sample.reCompile Sample.rules Sample.matcherOptions
  = inr Sample.matcher
  /\ ((exists i rule cr,
         Sample.rules !! i = Some rule
         /\ compiled Sample.matcher !! i = Some cr
         /\ matches Sample.reMatchString cr
              (decideCandidate false $"keep.tmp") false = true
         /\ (forall j cr', i < j -> compiled Sample.matcher !! j = Some cr' ->
               matches Sample.reMatchString cr'
                 (decideCandidate false $"keep.tmp") false = false)
         /\ Decide Sample.reMatchString Sample.matcher $"keep.tmp" false
            = mkMatchResult (N.eqb (RAction rule) ActionInclude) true
                (Z.of_nat i))
      \/ ((forall cr, cr ∈ compiled Sample.matcher ->
             matches Sample.reMatchString cr
               (decideCandidate false $"keep.tmp") false = false)
          /\ Decide Sample.reMatchString Sample.matcher $"keep.tmp" false
             = mkMatchResult
                 (N.eqb (defaultAction Sample.matcher) ActionInclude) false
                 (-1))).
Proof.
  split; [reflexivity |].
  pose proof (C1_Decide_last_match_wins Sample.reCompile Sample.reMatchString
                Sample.rules Sample.matcherOptions Sample.matcher $"keep.tmp"
                false eq_refl) as H.
  cbv zeta in H. destruct H as (_ & _ & H). exact H.
Defined.

Lemma C4_witness :
  compileRule Sample.reCompile Sample.docsRule false = inr Sample.docsCompiled
  /\ hasSlash Sample.docsCompiled = true
  /\ patternHasGlobMeta (strippedPattern Sample.docsRule false) = false
  /\ $"docs/api" <> []
  /\ (matches Sample.reMatchString Sample.docsCompiled $"docs/api" true = true
      <-> $"docs/api" = strippedPattern Sample.docsRule false).
Proof.
  split; [reflexivity |]. split; [reflexivity |]. split; [reflexivity |].
  split; [done |].
  apply (C4_PathExact_matching Sample.reCompile Sample.reMatchString
           Sample.docsRule false Sample.docsCompiled $"docs/api" true);
    [reflexivity | reflexivity | reflexivity | done].
Defined.

Lemma C5_witness :
  compileRule Sample.reCompile Sample.assetsRule false
  = inr Sample.assetsCompiled
  /\ strippedPattern Sample.assetsRule false = $"assets/group" ++ $"/**"
  /\ $"assets/group" <> []
  /\ Contains $"assets/group" $"**" = false
  /\ patternHasCharClass $"assets/group" = false
  /\ matches Sample.reMatchString Sample.assetsCompiled $"assets/group" true
     = false.
Proof.
  split; [reflexivity |]. split; [reflexivity |]. split; [done |].
  split; [reflexivity |]. split; [reflexivity |].
  apply (C5_PathPrefixSegments_matching Sample.reCompile Sample.reMatchString
           Sample.assetsRule false Sample.assetsCompiled $"assets/group"
           $"assets/group" true);
    [reflexivity | reflexivity | done | reflexivity | reflexivity].
Defined.

Lemma C6_witness :
  isBlank " " = true
  /\ Forall (fun w => isBlank w = true) [" "%char; B 9]
  /\ trimTrailingSpaces ($"name" ++ "\"%char :: " "%char :: [" "%char; B 9])
     = $"name" ++ [" "%char].
Proof.
  split; [reflexivity |]. split; [by repeat constructor |].
  apply (proj2 (proj2 (proj2 (proj2 (proj2 C6_ParseRules_lines)))));
    [reflexivity | by repeat constructor].
Defined.

Lemma C8_witness :
  isSimpleNormalizedPath $"src/main.c" = true
  /\ TrimSpace $"src/main.c" = $"src/main.c"
  /\ normalizePath $"src/main.c" = $"src/main.c".
Proof.
  split; [reflexivity |]. split; [reflexivity |].
  apply (proj1 (proj2 C8_normalizePath_idempotent_when_trimmed));
    [reflexivity | reflexivity |].
  intros H. apply list_elem_of_In in H. cbn in H.
  repeat (destruct H as [H|H]; [discriminate H |]). exact H.
Defined.

Lemma C7_witness :
  CaseInsensitive (mkMatcherOptions true ActionInclude) = true
  /\ Forall2 caseVariant [mkRule $"*.CPP" ActionExclude]
       [mkRule $"*.cpp" ActionExclude]
  /\ exists m m',
       NewMatcher Sample.reCompile [mkRule $"*.CPP" ActionExclude]
         (mkMatcherOptions true ActionInclude) = inr m
       /\ NewMatcher Sample.reCompile [mkRule $"*.cpp" ActionExclude]
            (mkMatcherOptions true ActionInclude) = inr m'
       /\ forall c d, Decide Sample.reMatchString m' c d
                      = Decide Sample.reMatchString m c d.
Proof.
  assert (Hv : Forall2 caseVariant [mkRule $"*.CPP" ActionExclude]
                 [mkRule $"*.cpp" ActionExclude]).
  { constructor; [split; reflexivity | constructor]. }
  split; [reflexivity |]. split; [exact Hv |].
  destruct (C7_case_folding Sample.reCompile Sample.reMatchString)
    as (_ & _ & _ & H & _).
  eexists.
  destruct (H [mkRule $"*.CPP" ActionExclude] [mkRule $"*.cpp" ActionExclude]
              (mkMatcherOptions true ActionInclude) _ eq_refl Hv eq_refl)
    as (m' & Hm' & Heq).
  exists m'. split; [reflexivity |]. split; [exact Hm' | exact Heq].
Defined.


Lemma C10_witness :
  cleanRelDir [] = inr []
  /\ cleanEntryName $"a.tmp" = inr $"a.tmp"
  /\ cleanRelPath $"a.tmp" = inr (entryPath [] $"a.tmp")
  /\ exists results cache' r,
       Provider_DecideInDir Sample.reCompile Sample.reMatchString
         Sample.world Sample.provider [] [mkDirEntry $"a.tmp" false] ∅
       = (inr results, cache')
       /\ results = [r]
       /\ Provider_Decide Sample.reCompile Sample.reMatchString Sample.world
            Sample.provider $"a.tmp" false ∅ = (inr r, cache').
Proof.
  split; [reflexivity |]. split; [reflexivity |]. split; [reflexivity |].
  destruct (Provider_DecideInDir Sample.reCompile Sample.reMatchString
              Sample.world Sample.provider [] [mkDirEntry $"a.tmp" false] ∅)
    as [[err|results] cache'] eqn:E.
  - exfalso. apply (f_equal fst) in E. vm_compute in E. discriminate E.
  - destruct (C10_Decide_agrees_with_DecideInDir Sample.reCompile
                Sample.reMatchString Sample.world Sample.provider [] $"a.tmp"
                (mkDirEntry $"a.tmp" false) [] $"a.tmp" ∅ results cache'
                eq_refl eq_refl eq_refl E) as (r & Hr & Hsame & _).
    exists results, cache', r. split; [reflexivity |]. split; [exact Hr |].
    exact Hsame.
Defined.

(** ** The wildcard matcher terminates within its fuel *)

Section WildcardFuel.

(** The variant of the loop of [matchSimpleWildcard]: the star position
    grows first, then the input position the star restarts from, then
    the input index. *)
Lemma matchSimpleWildcard_loop_total (pattern input : str) :
  forall fuel pIdx sIdx starPattern starInput,
    let sp := match starPattern with Some k => k + 1 | None => 0 end in
    sp <= pIdx -> sp <= length pattern ->
    starInput <= sIdx -> sIdx <= length input ->
    (length pattern - sp) * ((length input + 1) * (length input + 1))
    + (length input - starInput) * (length input + 1)
    + (length input - sIdx) < fuel ->
    exists b,
      matchSimpleWildcard_loop fuel pattern input pIdx sIdx starPattern
        starInput = Some b.
Proof.
  induction fuel as [|fuel IH];
    intros pIdx sIdx starPattern starInput sp Hsp Hlp Hsi Hli Hfuel.
  { by apply Nat.nlt_0_r in Hfuel. }
  cbn [matchSimpleWildcard_loop].
  destruct (sIdx <? length input) eqn:Hs; [|eauto].
  apply Nat.ltb_lt in Hs.
  set (lp := length pattern) in *. set (li := length input) in *.
  destruct ((pIdx <? lp)
            && (byteIs pattern pIdx "?"
                || bool_decide (pattern !! pIdx = input !! sIdx))) eqn:E1.
  - apply IH; lia.
  - destruct ((pIdx <? lp) && byteIs pattern pIdx "*") eqn:E2.
    + apply andb_true_iff in E2 as [Hp _]. apply Nat.ltb_lt in Hp.
      apply IH; try lia.
      assert (lp - sp >= lp - (pIdx + 1) + 1) by lia.
      assert ((li - sIdx) * (li + 1) < (li + 1) * (li + 1)) by nia.
      nia.
    + destruct starPattern as [k|]; [|eauto].
      apply IH; lia.
Qed.

Lemma matchSimpleWildcard_total (pattern input : str) :
  exists b,
    matchSimpleWildcard_loop (matchSimpleWildcard_fuel pattern input)
      pattern input 0 0 None 0 = Some b.
Proof.
  apply matchSimpleWildcard_loop_total; cbn; try lia.
  unfold matchSimpleWildcard_fuel. lia.
Qed.

End WildcardFuel.

(** ** The wildcard matcher against its specification *)

Section WildcardFacts.

Lemma wm_app (p1 s1 p2 s2 : str) :
  wildcardMatch p1 s1 -> wildcardMatch p2 s2 ->
  wildcardMatch (p1 ++ p2) (s1 ++ s2).
Proof.
  induction 1 as [|p s t _ IH|p s x _ IH|c p s Hc1 Hc2 _ IH]; intros H2.
  - done.
  - rewrite <- app_assoc. cbn. constructor. by apply IH.
  - cbn. constructor. by apply IH.
  - cbn. constructor; [done.. |]. by apply IH.
Qed.

Lemma wm_inv_nil (s : str) : wildcardMatch [] s -> s = [].
Proof. by inversion 1. Qed.

Lemma wm_inv_cons (c : ascii) (p s : str) :
  wildcardMatch (c :: p) s ->
  (c = "*"%char /\ exists t s', s = t ++ s' /\ wildcardMatch p s')
  \/ (c <> "*"%char
      /\ exists x s', s = x :: s' /\ (c = "?"%char \/ c = x)
                      /\ wildcardMatch p s').
Proof.
  inversion 1; subst.
  - left. eauto.
  - right. split; [done |]. eauto 6.
  - right. split; [done |]. eauto 6.
Qed.

Lemma wm_star_all (s : str) : wildcardMatch ["*"%char] s.
Proof. rewrite <- (app_nil_r s). apply wm_star. constructor. Qed.

Lemma wm_one (x y : ascii) :
  x = "?"%char \/ x = y -> wildcardMatch [x] [y].
Proof.
  intros [->| ->]; [by repeat constructor |].
  destruct (decide (y = "*"%char)) as [->|H1].
  { apply (wm_star [] [] ["*"%char]). constructor. }
  destruct (decide (y = "?"%char)) as [->|H2]; by repeat constructor.
Qed.

Lemma wm_cons (x y : ascii) (p s : str) :
  x = "?"%char \/ x = y -> wildcardMatch p s -> wildcardMatch (x :: p) (y :: s).
Proof. intros Hx H. by apply (wm_app [x] [y]); [apply wm_one |]. Qed.

Lemma wm_app_inv (p1 p2 s : str) :
  wildcardMatch (p1 ++ p2) s ->
  exists s1 s2, s = s1 ++ s2 /\ wildcardMatch p1 s1 /\ wildcardMatch p2 s2.
Proof.
  revert s. induction p1 as [|c p1 IH]; intros s H.
  { exists [], s. by repeat constructor. }
  cbn in H.
  apply wm_inv_cons in H
    as [[-> (t & s' & -> & H)]|[Hc (x & s' & -> & Hx & H)]];
    apply IH in H as (s1 & s2 & -> & H1 & H2).
  - exists (t ++ s1), s2. rewrite app_assoc. by repeat constructor.
  - exists (x :: s1), s2. split; [done |]. split; [|done]. by apply wm_cons.
Qed.

Lemma wm_star_absorb (q b t : str) :
  wildcardMatch ("*"%char :: q) b -> wildcardMatch ("*"%char :: q) (t ++ b).
Proof.
  intros H. apply wm_inv_cons in H as [[_ (t0 & s0 & -> & H)]|[? _]]; [|done].
  rewrite app_assoc. by constructor.
Qed.

Lemma wm_star_snoc (p s : str) (y : ascii) :
  wildcardMatch (p ++ ["*"%char]) s -> wildcardMatch (p ++ ["*"%char]) (s ++ [y]).
Proof.
  intros H. apply wm_app_inv in H as (s1 & s2 & -> & H1 & H2).
  rewrite <- app_assoc. apply wm_app; [done |].
  apply wm_star_all.
Qed.

Lemma wm_stars (p : str) :
  wildcardMatch p [] <-> Forall (fun c => c = "*"%char) p.
Proof.
  split.
  - induction p as [|c p IH]; intros H; [done |].
    apply wm_inv_cons in H as [[-> (t & s' & Heq & H)]|[_ (x & s' & ? & _)]];
      [|done].
    symmetry in Heq. apply app_eq_nil in Heq as [-> ->]. auto.
  - induction 1 as [|c p -> _ IH]; [constructor |].
    by apply (wm_star p [] []).
Qed.

Lemma TrimLeft_star_nil (p : str) :
  TrimLeft p $"*" = [] <-> Forall (fun c => c = "*"%char) p.
Proof.
  split.
  - induction p as [|c p IH]; [done |]. cbn.
    destruct (Ascii.eqb c "*") eqn:E; cbn; [|done].
    apply eqb_true in E as ->. auto.
  - induction 1 as [|c p -> _ IH]; [done |]. by cbn.
Qed.

Lemma TrimLeft_length (p cutset : str) :
  length (TrimLeft p cutset) <= length p.
Proof.
  induction p as [|c p IH]; cbn; [done |].
  destruct (inCutset cutset c); cbn; lia.
Qed.

Lemma skipStars_end (P : str) (pi : nat) :
  pi <= length P ->
  (skipStars P pi = length P <-> Forall (fun c => c = "*"%char) (drop pi P)).
Proof.
  intros Hpi. unfold skipStars. rewrite <- TrimLeft_star_nil.
  pose proof (TrimLeft_length (drop pi P) $"*") as Hl.
  rewrite length_drop in *.
  split.
  - intros H. apply length_zero_iff_nil. lia.
  - intros ->. cbn. lia.
Qed.

Lemma bytewise_length (q t : str) : bytewise q t -> length q = length t.
Proof. apply Forall2_length. Qed.

Lemma bytewise_snoc (q t : str) (x y : ascii) :
  bytewise q t -> x <> "*"%char -> x = "?"%char \/ x = y ->
  bytewise (q ++ [x]) (t ++ [y]).
Proof.
  intros H Hx Hy. apply Forall2_app; [done |].
  constructor; [by split | constructor].
Qed.

(** A star-free stretch consumes exactly as many bytes as it is long. *)
Lemma wm_bytewise_inv (q t rest u : str) :
  bytewise q t -> wildcardMatch (q ++ rest) (t ++ u) -> wildcardMatch rest u.
Proof.
  induction 1 as [|x y q t [Hx _] _ IH]; [done |].
  cbn. intros H.
  apply wm_inv_cons in H as [[? _]|[_ (x' & s' & [= <- <-] & _ & H)]]; [done |].
  by apply IH.
Qed.

Lemma wm_bytewise_split (q rest s : str) :
  Forall (fun x => x <> "*"%char) q ->
  wildcardMatch (q ++ rest) s ->
  exists a b, s = a ++ b /\ length a = length q /\ wildcardMatch rest b.
Proof.
  intros Hq. revert s. induction Hq as [|x q Hx _ IH]; intros s H.
  { by exists [], s. }
  cbn in H.
  apply wm_inv_cons in H as [[? _]|[_ (y & s' & -> & _ & H)]]; [done |].
  apply IH in H as (a & b & -> & Hl & H).
  exists (y :: a), b. cbn. by rewrite Hl.
Qed.

Lemma bytewise_star_free (q t : str) :
  bytewise q t -> Forall (fun x => x <> "*"%char) q.
Proof. induction 1 as [|x y q t [Hx _] _ IH]; by constructor. Qed.

(** Committing to a new star loses nothing: what the old star could
    match after the stretch, the new star can. *)
Lemma wm_commit (q1 q2 t1 u : str) :
  bytewise q1 t1 ->
  wildcardMatch ("*"%char :: q1 ++ "*"%char :: q2) (t1 ++ u) ->
  wildcardMatch ("*"%char :: q2) u.
Proof.
  intros Hb H.
  apply wm_inv_cons in H as [[_ (t & s' & Heq & H)]|[? _]]; [|done].
  apply wm_bytewise_split in H as (a & b & -> & Hl & H);
    [|by eapply bytewise_star_free].
  apply bytewise_length in Hb.
  assert (Hu : exists t', u = t' ++ b).
  { exists (drop (length t1) (t ++ a)).
    apply (f_equal (drop (length t1))) in Heq.
    rewrite drop_app_length in Heq. rewrite Heq.
    rewrite app_assoc. rewrite drop_app_le; [done |].
    rewrite length_app. lia. }
  destruct Hu as [t' ->]. by apply wm_star_absorb.
Qed.

(** A mismatch right after the stretch: the star has to take one more
    byte. *)
Lemma wm_backtrack (q1 rest t1 u : str) (y : ascii) :
  bytewise q1 t1 ->
  (forall x r, rest = x :: r -> x <> "*"%char /\ x <> "?"%char /\ x <> y) ->
  wildcardMatch ("*"%char :: q1 ++ rest) (t1 ++ y :: u) ->
  exists y0 v, t1 ++ y :: u = y0 :: v
               /\ wildcardMatch ("*"%char :: q1 ++ rest) v.
Proof.
  intros Hb Hrest H.
  apply wm_inv_cons in H as [[_ (t & s' & Heq & H)]|[? _]]; [|done].
  destruct t as [|y0 t].
  - cbn in Heq. subst s'. exfalso.
    apply (wm_bytewise_inv _ _ _ _ Hb) in H.
    destruct rest as [|x r]; [by apply wm_inv_nil in H |].
    destruct (Hrest x r eq_refl) as (H1 & H2 & H3).
    apply wm_inv_cons in H as [[? _]|[_ (x' & s'' & [= <- <-] & [?|?] & _)]];
      done.
  - exists y0, (t ++ s'). split; [done |]. by constructor.
Qed.

Lemma wm_exhaust (q1 rest t1 : str) :
  bytewise q1 t1 ->
  wildcardMatch ("*"%char :: q1 ++ rest) t1 -> wildcardMatch rest [].
Proof.
  intros Hb H.
  apply wm_inv_cons in H as [[_ (t & s' & Heq & H)]|[? _]]; [|done].
  apply wm_bytewise_split in H as (a & b & -> & Hl & H);
    [|by eapply bytewise_star_free].
  apply bytewise_length in Hb.
  apply (f_equal length) in Heq. rewrite !length_app in Heq.
  assert (b = []) as -> by (apply length_zero_iff_nil; lia).
  done.
Qed.

Lemma drop_slice (s : str) (i j : nat) :
  i <= j -> drop i s = slice s i j ++ drop j s.
Proof.
  intros Hij. unfold slice.
  rewrite <- (take_drop (j - i) (drop i s)) at 1.
  f_equal. rewrite drop_drop. f_equal. lia.
Qed.

Lemma slice_empty (s : str) (i : nat) : slice s i i = [].
Proof. unfold slice. by rewrite Nat.sub_diag. Qed.

Lemma matchSimpleWildcard_loop_sound (pat inp : str) :
  forall fuel pi si star sti,
    matchSimpleWildcard_loop fuel pat inp pi si star sti = Some true ->
    pi <= length pat -> si <= length inp ->
    wildcardMatch (take pi pat) (take si inp) ->
    (forall sp, star = Some sp ->
       pat !! sp = Some "*"%char /\ sti <= si
       /\ wildcardMatch (take (sp + 1) pat) (take sti inp)) ->
    wildcardMatch pat inp.
Proof.
  induction fuel as [|fuel IH]; intros pi si star sti Hrun Hpi Hsi Hwm Hstar;
    [done |].
  cbn [matchSimpleWildcard_loop] in Hrun.
  destruct (si <? length inp) eqn:Hs.
  - apply Nat.ltb_lt in Hs.
    destruct (lookup_lt_is_Some_2 inp si Hs) as [y Hy].
    destruct ((pi <? length pat)
              && (byteIs pat pi "?" || bool_decide (pat !! pi = inp !! si))) eqn:E1.
    + apply andb_true_iff in E1 as [Hp Hm]. apply Nat.ltb_lt in Hp.
      destruct (lookup_lt_is_Some_2 pat pi Hp) as [x Hx].
      apply (IH _ _ _ _ Hrun); [lia | lia | |].
      * replace (pi + 1) with (S pi) by lia.
        replace (si + 1) with (S si) by lia.
        rewrite (take_S_r _ _ _ Hx), (take_S_r _ _ _ Hy).
        apply wm_app; [done |]. apply wm_one.
        apply orb_true_iff in Hm as [Hm|Hm].
        -- left. apply byteIs_true in Hm. congruence.
        -- right. apply bool_decide_eq_true in Hm. congruence.
      * intros sp Hsp. destruct (Hstar sp Hsp) as (H1 & H2 & H3).
        split; [done |]. split; [lia | done].
    + destruct ((pi <? length pat) && byteIs pat pi "*") eqn:E2.
      * apply andb_true_iff in E2 as [Hp Hm]. apply Nat.ltb_lt in Hp.
        apply byteIs_true in Hm.
        assert (Hw : wildcardMatch (take (pi + 1) pat) (take si inp)).
        { replace (pi + 1) with (S pi) by lia. rewrite (take_S_r _ _ _ Hm).
          rewrite <- (app_nil_r (take si inp)).
          apply wm_app; [done | apply wm_star_all]. }
        apply (IH _ _ _ _ Hrun); [lia | lia | done |].
        by intros sp [= <-].
      * destruct star as [sp|]; [|done].
        destruct (Hstar sp eq_refl) as (H1 & H2 & H3).
        assert (Hlt : sti < length inp) by lia.
        destruct (lookup_lt_is_Some_2 inp sti Hlt) as [y' Hy'].
        assert (Hw : wildcardMatch (take (sp + 1) pat) (take (sti + 1) inp)).
        { replace (sti + 1) with (S sti) by lia. rewrite (take_S_r _ _ _ Hy').
          replace (sp + 1) with (S sp) in * by lia.
          rewrite (take_S_r _ _ _ H1) in *. by apply wm_star_snoc. }
        apply (IH _ _ _ _ Hrun); [| lia | done |].
        -- apply lookup_lt_Some in H1. lia.
        -- by intros sp' [= <-].
  - injection Hrun as Hrun. apply Nat.eqb_eq in Hrun. apply Nat.ltb_ge in Hs.
    apply skipStars_end in Hrun; [|done]. apply wm_stars in Hrun.
    rewrite (take_ge inp si) in Hwm by lia.
    rewrite <- (take_drop pi pat), <- (app_nil_r inp). by apply wm_app.
Qed.

(** The state of the loop while a pattern that matches is being
    tried: without a star the rest of the pattern matches the rest of the
    input; with a star at [sp] restarted at [sti], the stretch after the
    star pairs with the input read since, and the pattern from the star on
    matches the input from [sti] on. *)
Lemma matchSimpleWildcard_loop_complete (pat inp : str) :
  "*"%char ∉ inp ->
  forall fuel pi si star sti,
    pi <= length pat -> si <= length inp ->
    match star with
    | None => wildcardMatch (drop pi pat) (drop si inp)
    | Some sp =>
        sp < pi /\ sti <= si /\ pat !! sp = Some "*"%char
        /\ bytewise (slice pat (sp + 1) pi) (slice inp sti si)
        /\ wildcardMatch (drop sp pat) (drop sti inp)
    end ->
    matchSimpleWildcard_loop fuel pat inp pi si star sti <> Some false.
Proof.
  intros Hns.
  induction fuel as [|fuel IH]; intros pi si star sti Hpi Hsi Hinv; [done |].
  cbn [matchSimpleWildcard_loop].
  destruct (si <? length inp) eqn:Hs.
  - apply Nat.ltb_lt in Hs.
    destruct (lookup_lt_is_Some_2 inp si Hs) as [y Hy].
    assert (Hy' : y <> "*"%char).
    { intros ->. apply Hns. by eapply list_elem_of_lookup_2. }
    pose proof (drop_S _ _ _ Hy) as HdS.
    destruct ((pi <? length pat)
              && (byteIs pat pi "?" || bool_decide (pat !! pi = inp !! si))) eqn:E1.
    + apply andb_true_iff in E1 as [Hp Hm]. apply Nat.ltb_lt in Hp.
      destruct (lookup_lt_is_Some_2 pat pi Hp) as [x Hx].
      assert (Hxy : x = "?"%char \/ x = y).
      { apply orb_true_iff in Hm as [Hm|Hm].
        - left. apply byteIs_true in Hm. congruence.
        - right. apply bool_decide_eq_true in Hm. congruence. }
      assert (Hx' : x <> "*"%char) by (destruct Hxy as [->| ->]; done).
      apply IH; [lia | lia |].
      destruct star as [sp|].
      * destruct Hinv as (H1 & H2 & H3 & H4 & H5).
        split; [lia |]. split; [lia |]. split; [done |]. split; [|done].
        rewrite (slice_snoc _ _ _ x), (slice_snoc _ _ _ y);
          [|lia | done | lia | done].
        by apply bytewise_snoc.
      * rewrite (drop_S _ _ _ Hx), HdS in Hinv.
        apply wm_inv_cons in Hinv
          as [[? _]|[_ (x' & s' & [= <- <-] & _ & H)]]; [done |].
        replace (pi + 1) with (S pi) by lia.
        by replace (si + 1) with (S si) by lia.
    + destruct ((pi <? length pat) && byteIs pat pi "*") eqn:E2.
      * apply andb_true_iff in E2 as [Hp Hm]. apply Nat.ltb_lt in Hp.
        apply byteIs_true in Hm.
        apply IH; [lia | lia |].
        split; [lia |]. split; [lia |]. split; [done |].
        split. { rewrite !slice_empty. constructor. }
        destruct star as [sp|]; [|done].
        destruct Hinv as (H1 & H2 & H3 & H4 & H5).
        rewrite (drop_S _ _ _ Hm).
        apply (wm_commit (slice pat (sp + 1) pi) _ (slice inp sti si)); [done |].
        rewrite (drop_S _ _ _ H3) in H5.
        replace (S sp) with (sp + 1) in H5 by lia.
        rewrite (drop_slice pat (sp + 1) pi) in H5 by lia.
        rewrite (drop_slice inp sti si) in H5 by lia.
        by rewrite (drop_S _ _ _ Hm) in H5.
      * assert (Hrest : forall x r, drop pi pat = x :: r ->
                  x <> "*"%char /\ x <> "?"%char /\ x <> y).
        { intros x r Hd.
          assert (Hx : pat !! pi = Some x).
          { rewrite <- (Nat.add_0_r pi), <- lookup_drop, Hd. done. }
          assert (Hp : (pi <? length pat) = true).
          { apply Nat.ltb_lt. by eapply lookup_lt_Some. }
          rewrite Hp in E1, E2. cbn in E1, E2.
          apply orb_false_iff in E1 as [E1a E1b].
          apply byteIs_false in E1a, E2.
          apply bool_decide_eq_false in E1b.
          split; [congruence |]. split; congruence. }
        destruct star as [sp|].
        -- destruct Hinv as (H1 & H2 & H3 & H4 & H5).
           apply IH; [lia | lia |].
           split; [lia |]. split; [lia |]. split; [done |].
           split. { rewrite !slice_empty. constructor. }
           rewrite (drop_S _ _ _ H3) in *.
           replace (S sp) with (sp + 1) in * by lia.
           rewrite (drop_slice pat (sp + 1) pi) in * by lia.
           assert (Hsplit : drop sti inp = slice inp sti si ++ y :: drop (S si) inp).
           { rewrite <- HdS. by apply drop_slice. }
           rewrite Hsplit in H5.
           apply (wm_backtrack _ _ _ _ _ H4 Hrest) in H5
             as (y0 & v & Heq & H5).
           rewrite <- Hsplit in Heq.
           replace (drop (sti + 1) inp) with v; [done |].
           by rewrite <- drop_drop, Heq.
        -- intros _. rewrite HdS in Hinv.
           destruct (drop pi pat) as [|x r] eqn:Hd;
             [by apply wm_inv_nil in Hinv |].
           destruct (Hrest x r eq_refl) as (H1 & H2 & H3).
           apply wm_inv_cons in Hinv
             as [[? _]|[_ (x' & s' & [= <- <-] & [?|?] & _)]]; done.
  - apply Nat.ltb_ge in Hs.
    assert (Hall : skipStars pat pi = length pat).
    { apply skipStars_end; [done |]. apply wm_stars.
      destruct star as [sp|].
      - destruct Hinv as (H1 & H2 & H3 & H4 & H5).
        rewrite (drop_S _ _ _ H3) in H5.
        replace (S sp) with (sp + 1) in H5 by lia.
        rewrite (drop_slice pat (sp + 1) pi) in H5 by lia.
        rewrite (drop_slice inp sti si) in H5 by lia.
        rewrite (drop_ge inp si), app_nil_r in H5 by lia.
        by eapply wm_exhaust.
      - by rewrite (drop_ge inp si) in Hinv by lia. }
    rewrite Hall, Nat.eqb_refl. done.
Qed.

Lemma matchSimpleWildcard_sound (pattern input : str) :
  matchSimpleWildcard pattern input = true -> wildcardMatch pattern input.
Proof.
  unfold matchSimpleWildcard. intros H.
  destruct (matchSimpleWildcard_loop _ pattern input 0 0 None 0)
    as [[|]|] eqn:E; [|done..].
  apply (matchSimpleWildcard_loop_sound _ _ _ _ _ _ _ E); [lia | lia | |done].
  constructor.
Qed.

Lemma matchSimpleWildcard_complete (pattern input : str) :
  "*"%char ∉ input -> wildcardMatch pattern input ->
  matchSimpleWildcard pattern input = true.
Proof.
  intros Hns H. unfold matchSimpleWildcard.
  destruct (matchSimpleWildcard_total pattern input) as [b Hb]. rewrite Hb.
  destruct b; [done |]. exfalso.
  by apply (matchSimpleWildcard_loop_complete pattern input Hns _ 0 0 None 0)
    in Hb; [| lia | lia |].
Qed.

(** More fuel does not change a result. *)
Lemma matchSimpleWildcard_loop_mono (pattern input : str) (b : bool) :
  forall fuel fuel' pIdx sIdx starPattern starInput,
    matchSimpleWildcard_loop fuel pattern input pIdx sIdx starPattern
      starInput = Some b ->
    fuel <= fuel' ->
    matchSimpleWildcard_loop fuel' pattern input pIdx sIdx starPattern
      starInput = Some b.
Proof.
  induction fuel as [|fuel IH]; intros fuel' pi si star sti H Hle; [done |].
  destruct fuel' as [|fuel']; [lia |].
  cbn [matchSimpleWildcard_loop] in *.
  destruct (si <? length input); [|done].
  destruct ((pi <? length pattern) && _); [apply IH; [done | lia] |].
  destruct ((pi <? length pattern) && _); [apply IH; [done | lia] |].
  destruct star; [apply IH; [done | lia] | done].
Qed.

(** Before a star is met the restart position is not read. *)
Lemma matchSimpleWildcard_loop_no_star (pattern input : str) :
  forall fuel pIdx sIdx a b,
    matchSimpleWildcard_loop fuel pattern input pIdx sIdx None a
    = matchSimpleWildcard_loop fuel pattern input pIdx sIdx None b.
Proof.
  induction fuel as [|fuel IH]; intros pi si a b; [done |].
  cbn [matchSimpleWildcard_loop].
  destruct (si <? length input); [|done].
  destruct ((pi <? length pattern) && _); [apply IH |].
  by destruct ((pi <? length pattern) && _).
Qed.

Lemma skipStars_cons (c : ascii) (pattern : str) (pIdx : nat) :
  skipStars (c :: pattern) (pIdx + 1) = skipStars pattern pIdx + 1.
Proof.
  unfold skipStars. replace (pIdx + 1) with (S pIdx) by lia. cbn [drop]. lia.
Qed.

(** The loop on a pattern and an input that begin with the same byte,
    past that byte, is the loop on the rests. *)
Lemma matchSimpleWildcard_loop_shift (c d : ascii) (pattern input : str) :
  forall fuel pIdx sIdx starPattern starInput,
    matchSimpleWildcard_loop fuel (c :: pattern) (d :: input)
      (pIdx + 1) (sIdx + 1) ((fun k => k + 1) <$> starPattern) (starInput + 1)
    = matchSimpleWildcard_loop fuel pattern input pIdx sIdx starPattern
        starInput.
Proof.
  induction fuel as [|fuel IH]; intros pi si star sti; [done |].
  cbn [matchSimpleWildcard_loop length].
  replace (si + 1 <? S (length input)) with (si <? length input)
    by (destruct (Nat.ltb_spec si (length input)),
                 (Nat.ltb_spec (si + 1) (S (length input))); lia).
  replace (pi + 1 <? S (length pattern)) with (pi <? length pattern)
    by (destruct (Nat.ltb_spec pi (length pattern)),
                 (Nat.ltb_spec (pi + 1) (S (length pattern))); lia).
  unfold byteIs.
  replace ((c :: pattern) !! (pi + 1)) with (pattern !! pi)
    by (by replace (pi + 1) with (S pi) by lia).
  replace ((d :: input) !! (si + 1)) with (input !! si)
    by (by replace (si + 1) with (S si) by lia).
  destruct (si <? length input).
  - destruct ((pi <? length pattern) && _); [apply IH |].
    destruct ((pi <? length pattern) && _).
    + apply (IH (pi + 1) si (Some pi) si).
    + destruct star as [sp|]; [|done]. cbn [fmap option_fmap option_map].
      apply (IH (sp + 1) (sti + 1) (Some sp) (sti + 1)).
  - rewrite skipStars_cons. f_equal.
    destruct (Nat.eqb_spec (skipStars pattern pi + 1) (S (length pattern))),
             (Nat.eqb_spec (skipStars pattern pi) (length pattern)); lia.
Qed.

(** A pattern byte that equals the input byte is paired with it before
    it is looked at as a star. *)
Lemma matchSimpleWildcard_same_head (c : ascii) (pattern input : str) :
  matchSimpleWildcard (c :: pattern) (c :: input)
  = matchSimpleWildcard pattern input.
Proof.
  unfold matchSimpleWildcard.
  destruct (matchSimpleWildcard_total pattern input) as [b Hb]. rewrite Hb.
  destruct (matchSimpleWildcard_total (c :: pattern) (c :: input)) as [b' Hb'].
  rewrite Hb'.
  assert (Hstep : matchSimpleWildcard_loop
                    (S (matchSimpleWildcard_fuel pattern input))
                    (c :: pattern) (c :: input) 0 0 None 0 = Some b).
  { cbn [matchSimpleWildcard_loop length]. cbn [Nat.ltb Nat.leb].
    rewrite (bool_decide_eq_true_2 ((c :: pattern) !! 0 = (c :: input) !! 0))
      by done.
    rewrite orb_true_r. cbn [andb].
    rewrite (matchSimpleWildcard_loop_no_star _ _ _ _ _ 0 (0 + 1)).
    rewrite <- Hb.
    apply (matchSimpleWildcard_loop_shift c c pattern input _ 0 0 None 0). }
  destruct (Nat.le_ge_cases (S (matchSimpleWildcard_fuel pattern input))
              (matchSimpleWildcard_fuel (c :: pattern) (c :: input))) as [Hle|Hle].
  - apply (matchSimpleWildcard_loop_mono _ _ _ _ _ _ _ _ _ Hstep) in Hle.
    congruence.
  - apply (matchSimpleWildcard_loop_mono _ _ _ _ _ _ _ _ _ Hb') in Hle.
    congruence.
Qed.

End WildcardFacts.

(** X[wild]. [matchSimpleWildcard] accepts only inputs the pattern
    matches, with [*] for any run of bytes, [?] for any one byte and
    every other byte for itself; on an input without a [*] byte it accepts
    every input the pattern matches. *)
Theorem matchSimpleWildcard_correct (pattern input : str) :
  (matchSimpleWildcard pattern input = true -> wildcardMatch pattern input)
  /\ ("*"%char ∉ input -> wildcardMatch pattern input ->
      matchSimpleWildcard pattern input = true).
Proof.
  split; [apply matchSimpleWildcard_sound | apply matchSimpleWildcard_complete].
Qed.

(** X[wildhead]. [matchSimpleWildcard] compares the pattern byte with the
    input byte before it looks for a star: a pattern and an input that
    begin with the same byte match as their rests do, also when that byte
    is [*].  So the pattern [*] rejects every longer input that begins
    with a [*] byte. *)
Theorem matchSimpleWildcard_equal_heads (c : ascii) (pattern input : str) :
  matchSimpleWildcard (c :: pattern) (c :: input)
  = matchSimpleWildcard pattern input
  /\ (input <> [] -> matchSimpleWildcard $"*" ("*"%char :: input) = false).
Proof.
  split; [apply matchSimpleWildcard_same_head |].
  intros Hne. change ($"*") with ["*"%char].
  rewrite matchSimpleWildcard_same_head.
  destruct (matchSimpleWildcard [] input) eqn:E; [|done].
  apply matchSimpleWildcard_sound, wm_inv_nil in E. done.
Qed.

(** ** Component rules and segmented path rules *)

Section PatternKinds.

Lemma findCharClassEnd_spec (pat : str) (start e : nat) :
  findCharClassEnd pat start = Some e ->
  pat !! start = Some "["%char /\ start + 2 <= e /\ pat !! e = Some "]"%char.
Proof.
  unfold findCharClassEnd.
  destruct (length pat <=? start) eqn:Hl; [done |]. apply Nat.leb_gt in Hl.
  destruct (byteIs pat start "[") eqn:Hb; [|done]. cbn [negb orb].
  apply byteIs_true in Hb. cbv zeta.
  set (idx1 := if (start + 1 <? length pat)
                  && (byteIs pat (start + 1) "!" || byteIs pat (start + 1) "^")
               then start + 1 + 1 else start + 1).
  set (idx2 := if (idx1 <? length pat) && byteIs pat idx1 "]"
               then idx1 + 1 else idx1).
  destruct (IndexByte (drop idx2 pat) "]") as [k|] eqn:Ek; [|done].
  intros [= <-]. apply IndexByte_Some in Ek as [Hk Hnot].
  rewrite lookup_drop in Hk. split; [done |]. split; [|done].
  assert (H1 : start + 1 <= idx1).
  { unfold idx1.
    destruct ((start + 1 <? length pat)
              && (byteIs pat (start + 1) "!" || byteIs pat (start + 1) "^"));
      lia. }
  assert (H2 : idx1 <= idx2).
  { unfold idx2. destruct ((idx1 <? length pat) && byteIs pat idx1 "]"); lia. }
  destruct (decide (start + 2 <= idx2 + k)) as [|Hn]; [done |]. exfalso.
  assert (k = 0 /\ idx2 = start + 1 /\ idx1 = start + 1) as (-> & Hi2 & Hi1)
    by lia.
  rewrite Nat.add_0_r, Hi2 in Hk.
  unfold idx2 in Hi2. rewrite Hi1 in Hi2.
  rewrite (proj2 (byteIs_true _ _ _) Hk) in Hi2.
  replace (start + 1 <? length pat) with true in Hi2
    by (symmetry; apply Nat.ltb_lt; by eapply lookup_lt_Some).
  cbn in Hi2. lia.
Qed.

Lemma patternHasCharClass_loop_spec (pattern : str) :
  forall fuel i,
    length pattern - i <= fuel ->
    (patternHasCharClass_loop pattern fuel i = true
     <-> exists j, i <= j /\ is_Some (findCharClassEnd pattern j)).
Proof.
  assert (Hin : forall j, is_Some (findCharClassEnd pattern j) ->
                  j < length pattern /\ byteIs pattern j "[" = true).
  { intros j [e He]. apply findCharClassEnd_spec in He as (H & _ & _).
    split; [by eapply lookup_lt_Some | by apply byteIs_true]. }
  induction fuel as [|fuel IH]; intros i Hfuel.
  { split; [done |]. intros (j & Hij & Hj). apply Hin in Hj as [? _]. lia. }
  cbn [patternHasCharClass_loop].
  destruct (length pattern <=? i) eqn:Hl.
  { apply Nat.leb_le in Hl. split; [done |].
    intros (j & Hij & Hj). apply Hin in Hj as [? _]. lia. }
  apply Nat.leb_gt in Hl.
  assert (Hnext : (exists j, i <= j /\ is_Some (findCharClassEnd pattern j))
                  <-> is_Some (findCharClassEnd pattern i)
                      \/ exists j, i + 1 <= j
                                   /\ is_Some (findCharClassEnd pattern j)).
  { split.
    - intros (j & Hij & Hj). destruct (decide (j = i)) as [->|];
        [by left | right; exists j; split; [lia | done]].
    - intros [H|(j & Hij & Hj)]; [exists i | exists j]; split; done || lia. }
  rewrite Hnext. rewrite <- IH by lia.
  destruct (byteIs pattern i "[") eqn:Hb; cbn [negb].
  - case_bool_decide as Hc; [by split; [left |] |].
    split; [by right | by intros [?|?]].
  - split; [by right |]. intros [H|H]; [|done].
    apply Hin in H as [_ H]. congruence.
Qed.

Lemma patternHasCharClass_spec (pattern : str) :
  patternHasCharClass pattern = true
  <-> exists j, is_Some (findCharClassEnd pattern j).
Proof.
  unfold patternHasCharClass. rewrite patternHasCharClass_loop_spec by lia.
  split; intros (j & H); [by destruct H as [_ H]; exists j |].
  exists j. split; [lia | done].
Qed.

Lemma ContainsAny_cons (c : ascii) (s chars : str) :
  ContainsAny (c :: s) chars
  = existsb (Ascii.eqb c) chars || ContainsAny s chars.
Proof. done. Qed.

Lemma patternHasGlobMeta_loop_split (pattern : str) :
  forall fuel i,
    length pattern - i <= fuel ->
    patternHasGlobMeta_loop pattern fuel i
    = ContainsAny (drop i pattern) ["*"%char; "?"%char]
      || patternHasCharClass_loop pattern fuel i.
Proof.
  induction fuel as [|fuel IH]; intros i Hfuel.
  { cbn. rewrite drop_ge by lia. done. }
  cbn [patternHasGlobMeta_loop patternHasCharClass_loop].
  destruct (length pattern <=? i) eqn:Hl.
  { apply Nat.leb_le in Hl. by rewrite drop_ge by lia. }
  apply Nat.leb_gt in Hl.
  destruct (lookup_lt_is_Some_2 pattern i Hl) as [x Hx].
  rewrite (drop_S _ _ _ Hx), ContainsAny_cons.
  unfold byteIs at 1 2. rewrite Hx. cbn [existsb].
  rewrite orb_false_r.
  replace (bool_decide (Some x = Some "*"%char)) with (Ascii.eqb x "*").
  2:{ destruct (Ascii.eqb x "*") eqn:E.
      - apply eqb_true in E as ->. by rewrite bool_decide_eq_true_2.
      - apply eqb_false in E. rewrite bool_decide_eq_false_2; congruence. }
  replace (bool_decide (Some x = Some "?"%char)) with (Ascii.eqb x "?").
  2:{ destruct (Ascii.eqb x "?") eqn:E.
      - apply eqb_true in E as ->. by rewrite bool_decide_eq_true_2.
      - apply eqb_false in E. rewrite bool_decide_eq_false_2; congruence. }
  destruct (Ascii.eqb x "*" || Ascii.eqb x "?"); [done |]. cbn [orb].
  rewrite IH by lia. replace (S i) with (i + 1) by lia.
  destruct (byteIs pattern i "["); cbn [negb andb]; [|done].
  case_bool_decide; [by rewrite orb_true_r | done].
Qed.

Lemma patternHasGlobMeta_split (pattern : str) :
  patternHasGlobMeta pattern
  = ContainsAny pattern $"*?" || patternHasCharClass pattern.
Proof. apply (patternHasGlobMeta_loop_split pattern _ 0). lia. Qed.

Lemma findCharClassEnd_needs_bracket (pattern : str) :
  "]"%char ∉ pattern -> patternHasCharClass pattern = false.
Proof.
  intros H. apply not_true_iff_false. intros Hc.
  apply patternHasCharClass_spec in Hc as (j & e & He).
  apply findCharClassEnd_spec in He as (_ & _ & He).
  apply H. by eapply list_elem_of_lookup_2.
Qed.

End PatternKinds.

Section ComponentFacts.

Lemma dirOnlyComponent_loop_past (hit : str -> bool) (c : str) (isDir : bool) :
  forall fuel i start,
    length c < i -> dirOnlyComponent_loop hit c isDir fuel i start = false.
Proof.
  intros [|fuel] i start Hi; [done |]. cbn [dirOnlyComponent_loop].
  by replace (length c <? i) with true by (symmetry; apply Nat.ltb_lt; lia).
Qed.

Lemma dirOnlyComponent_loop_spec (hit : str -> bool) (c : str) (isDir : bool) :
  forall fuel i start,
    start <= i -> i <= length c ->
    ("/"%char ∉ slice c start i) ->
    length c + 1 - i <= fuel ->
    dirOnlyComponent_loop hit c isDir fuel i start
    = dirHitB hit isDir (splitSlash (drop start c)).
Proof.
  induction fuel as [|fuel IH]; intros i start Hsi Hi Hns Hfuel; [lia |].
  cbn [dirOnlyComponent_loop].
  replace (length c <? i) with false by (symmetry; apply Nat.ltb_ge; lia).
  rewrite (drop_slice c start i) by done.
  destruct (Nat.eqb_spec i (length c)) as [Hend|Hend]; cbn [negb andb].
  - rewrite (drop_ge c i), app_nil_r by lia.
    rewrite splitSlash_plain by done. cbn [dirHitB].
    rewrite dirOnlyComponent_loop_past by lia.
    destruct (Nat.ltb_spec start i) as [Hlt|Hge].
    + rewrite bool_decide_eq_false_2.
      2:{ intros H. apply (f_equal length) in H. unfold slice in H.
          rewrite length_take, length_drop in H. cbn in H. lia. }
      destruct isDir; cbn [negb andb]; [|done].
      by destruct (hit (slice c start i)).
    + replace start with i by lia. by rewrite slice_empty.
  - assert (Hlt : i < length c) by lia.
    destruct (lookup_lt_is_Some_2 c i Hlt) as [x Hx].
    destruct (byteIs c i "/") eqn:Hb; cbn [negb].
    + apply byteIs_true in Hb.
      rewrite (drop_S _ _ _ Hb), splitSlash_cons_plain by done.
      cbn [dirHitB].
      destruct (splitSlash (drop (S i) c)) as [|d ds] eqn:Es;
        [by destruct (splitSlash_ne (drop (S i) c)) |].
      rewrite <- Es. replace (S i) with (i + 1) by lia.
      rewrite <- (IH (i + 1) (i + 1)); [|lia | lia | | lia].
      2:{ rewrite slice_empty. apply not_elem_of_nil. }
      destruct (Nat.ltb_spec start i) as [Hlt'|Hge].
      * rewrite bool_decide_eq_false_2.
        2:{ intros H. apply (f_equal length) in H. unfold slice in H.
            rewrite length_take, length_drop in H. cbn in H. lia. }
        cbn [negb andb]. by destruct (hit (slice c start i)).
      * replace start with i by lia. by rewrite slice_empty.
    + apply byteIs_false in Hb.
      rewrite (IH (i + 1) start); [|lia | lia | | lia].
      * by rewrite (drop_slice c start i) by done.
      * rewrite (slice_snoc _ _ _ x) by done.
        intros H. apply elem_of_app in H as [H|H]; [done |].
        apply list_elem_of_singleton in H. congruence.
Qed.

Lemma dirHitB_spec (hit : str -> bool) (isDir : bool) (comps : list str) :
  dirHitB hit isDir comps = true
  <-> exists k comp,
        comps !! k = Some comp /\ comp <> [] /\ hit comp = true
        /\ (k + 1 < length comps \/ isDir = true).
Proof.
  induction comps as [|comp rest IH]; [by split; [|intros (? & ? & ? & _)] |].
  cbn [dirHitB]. destruct rest as [|d ds].
  - split.
    + intros H. apply andb_true_iff in H as [H Hh].
      apply andb_true_iff in H as [Hne Hd].
      apply negb_true_iff, bool_decide_eq_false in Hne.
      exists 0, comp. repeat split; [done.. | by right].
    + intros (k & comp' & Hk & Hne & Hh & Hlast).
      destruct k as [|k]; [|done]. injection Hk as <-.
      destruct Hlast as [Hlast| ->]; [cbn in Hlast; lia |].
      by rewrite bool_decide_eq_false_2, Hh.
  - rewrite orb_true_iff, IH. split.
    + intros [H|(k & comp' & Hk & Hne & Hh & Hlast)].
      * apply andb_true_iff in H as [Hne Hh].
        apply negb_true_iff, bool_decide_eq_false in Hne.
        exists 0, comp. repeat split; [done.. |]. left. cbn. lia.
      * exists (S k), comp'. repeat split; [done.. |].
        destruct Hlast as [Hlast| ->]; [left; cbn in *; lia | by right].
    + intros (k & comp' & Hk & Hne & Hh & Hlast).
      destruct k as [|k].
      * injection Hk as <-. left. by rewrite bool_decide_eq_false_2, Hh.
      * right. exists k, comp'. repeat split; [done.. |].
        destruct Hlast as [Hlast| ->]; [left; cbn in *; lia | by right].
Qed.

Lemma dirOnlyComponent_spec (hit : str -> bool) (c : str) (isDir : bool) :
  dirOnlyComponent_loop hit c isDir (length c + 1) 0 0 = true
  <-> dirComponentHit hit c isDir.
Proof.
  rewrite dirOnlyComponent_loop_spec; [| lia | lia | | lia].
  - rewrite drop_0. apply dirHitB_spec.
  - rewrite slice_empty. apply not_elem_of_nil.
Qed.

Lemma pathBase_last (c : str) : last (splitSlash c) = Some (pathBase c).
Proof.
  unfold pathBase.
  destruct (decide ("/"%char ∈ c)) as [Hin|Hnot].
  - apply list_elem_of_split_r in Hin as (a & b & -> & Hb).
    rewrite LastIndexByte_last by done.
    rewrite splitSlash_app, (splitSlash_plain b) by done.
    rewrite last_snoc. f_equal.
    replace (length a + 1) with (length (a ++ ["/"%char]))
      by (rewrite length_app; cbn; lia).
    by rewrite (cons_middle _ a b), app_assoc, drop_app_length.
  - rewrite LastIndexByte_None by done. by rewrite splitSlash_plain.
Qed.

End ComponentFacts.

Section StrategyFacts.

Context {Regexp : Type}.
Variable rc : str -> option Regexp.
Variable rm : Regexp -> str -> bool.

(** The strategy fields [compileRule] fills, by the shape of the
    pattern. *)
Lemma compileRule_strategy rule ci (cr : compiledRule Regexp) :
  compileRule rc rule ci = inr cr ->
  let sp := strippedPattern rule ci in
  let hs := hasSlash cr in
  let meta := patternHasGlobMeta sp in
  let cls := patternHasCharClass sp in
  let pre := CutSuffix sp $"/**" in
  let prefixed :=
    snd pre && negb (bool_decide (fst pre = []))
    && canUseSimplePathSegments (fst pre) in
  let simple := canUseSimplePathSegments sp in
  let anchor := if anchored cr then $"^" else $"(?:^|.*/)" in
  componentExact cr = (if negb hs && negb meta then sp else [])
  /\ componentGlob cr
     = (if negb hs && meta && negb cls then newSegmentPattern sp
        else mkSegmentPattern [] false)
  /\ componentRE cr
     = (if negb hs && meta && cls
        then rc ($"^" ++ globToRegexComponent sp ++ $"$") else None)
  /\ pathSegments cr
     = (if hs && meta && negb prefixed && simple
        then compilePathSegments sp else [])
  /\ pathRE cr
     = (if hs && meta && negb prefixed && negb simple && negb (dirOnly cr)
        then rc (anchor ++ globToRegexPath sp ++ $"$") else None)
  /\ pathDirRE cr
     = (if hs && meta && negb prefixed && negb simple && dirOnly cr
        then rc (anchor ++ globToRegexPath sp ++ $"(?:/.*)?$") else None).
Proof.
  intros H. cbv zeta.
  unfold strippedPattern, preparedPattern. unfold compileRule in H.
  destruct (Action_valid (RAction rule)) eqn:Hv; [|done].
  cbv zeta in H. cbn [negb] in H.
  set (pp := if ci then asciiLower (normalizePattern (Pattern rule))
             else normalizePattern (Pattern rule)) in *.
  set (sp := Trim (TrimSuffix (TrimPrefix pp $"/") $"/") $"/") in *.
  set (pre := CutSuffix sp $"/**") in *.
  clearbody pre. clearbody sp. clearbody pp.
  case_bool_decide as Hpp; [done |].
  case_bool_decide as Hsp; [done |].
  destruct pre as [prefix ok]. cbn [fst snd].
  destruct (Contains sp $"/" || HasPrefix pp $"/"),
           (patternHasGlobMeta sp); cbn [negb andb] in *.
  all: repeat match type of H with
         | (if ?b then _ else _) = _ => destruct b eqn:?
         | match ?x with _ => _ end = _ => destruct x eqn:?
         end; try discriminate.
  all: injection H as <-; cbn.
  all: repeat match goal with
         | Hx : _ && _ = true |- _ => apply andb_true_iff in Hx as [? ?]
         | Hx : negb _ = true |- _ => apply negb_true_iff in Hx
         | Hx : negb _ = false |- _ => apply negb_false_iff in Hx
         end.
  all: repeat match goal with
         | Hx : ?b = true |- context [?b] => rewrite Hx
         | Hx : ?b = false |- context [?b] => rewrite Hx
         end; cbn.
  all: rewrite ?andb_false_r; cbn.
  all: repeat match goal with
         | Hx : ?b = _ |- context [?b] => rewrite Hx
         end.
  all: repeat split; try done.
Qed.

End StrategyFacts.

Section SegmentRuleFacts.

Lemma segmentAccepts_joinSlash_ne (segs : list segmentPattern)
    (comps : list str) :
  segs <> [] -> Forall2 segmentAccepts segs comps -> joinSlash comps <> [].
Proof.
  intros Hne HF. destruct HF as [|seg comp segs' comps' (Hc & _) _]; [done |].
  destruct comps'; cbn; [done |]. by destruct comp.
Qed.

Lemma segmentsAt_terminal_spec (segs : list segmentPattern) (c : str)
    (dirOnly : bool) (s : nat) :
  segs <> [] ->
  (exists e, matchPathSegmentsAt segs c s = Some e
             /\ segmentsTerminal c dirOnly e = true)
  <-> exists comps rest,
        Forall2 segmentAccepts segs comps
        /\ drop s c = joinSlash comps ++ rest
        /\ (rest = [] \/ (dirOnly = true /\ head rest = Some "/"%char)).
Proof.
  intros Hne. unfold matchPathSegmentsAt, segmentsTerminal. split.
  - intros (e & Hm & Ht).
    destruct (length c <=? s) eqn:Hs; [done |]. apply Nat.leb_gt in Hs.
    apply matchPathSegmentsAt_loop_spec in Hm
      as (comps & HF & Hdrop & He & Hend); [|done | lia].
    exists comps, (drop e c). split; [done |]. split; [done |].
    destruct (decide (e = length c)) as [->|Hne'].
    { left. by rewrite drop_ge. }
    right. destruct dirOnly.
    + split; [done |]. rewrite drop_head_lookup.
      by destruct Hend as [?|?].
    + by apply Nat.eqb_eq in Ht.
  - intros (comps & rest & HF & Hdrop & Hrest).
    pose proof (segmentAccepts_joinSlash_ne _ _ Hne HF) as Hj.
    assert (Hs : s < length c).
    { destruct (decide (s < length c)); [done |].
      rewrite drop_ge in Hdrop by lia. by destruct (joinSlash comps). }
    assert (Hlen : length c - s = length (joinSlash comps) + length rest).
    { by rewrite <- length_drop, Hdrop, length_app. }
    set (e := s + length (joinSlash comps)).
    assert (He : drop e c = rest).
    { unfold e. by rewrite <- drop_drop, Hdrop, drop_app_length. }
    exists e. replace (length c <=? s) with false
      by (symmetry; apply Nat.leb_gt; lia).
    assert (Hend : e = length c \/ (dirOnly = true /\ c !! e = Some "/"%char)).
    { destruct Hrest as [->|[Hd Hh]].
      - left. cbn in Hlen. unfold e. lia.
      - right. split; [done |]. by rewrite <- drop_head_lookup, He. }
    split.
    + apply matchPathSegmentsAt_loop_spec; [done | lia |].
      exists comps. rewrite He. split; [done |]. split; [done |].
      split; [done |]. destruct Hend as [?|[_ ?]]; [by left | by right].
    + destruct Hend as [->|[-> Hat]].
      * rewrite Nat.eqb_refl. by destruct dirOnly.
      * rewrite (proj2 (byteIs_true _ _ _) Hat), andb_true_r.
        apply orb_true_iff. right. apply Nat.ltb_lt.
        by eapply lookup_lt_Some.
Qed.

Lemma matchPathSegmentsUnanchored_loop_spec (segs : list segmentPattern)
    (c : str) (dirOnly : bool) :
  forall fuel start,
    start <= length c ->
    length c + 1 - start <= fuel ->
    (matchPathSegmentsUnanchored_loop fuel segs c dirOnly start = true
     <-> exists s e,
           start <= s
           /\ (s = start \/ c !! (s - 1) = Some "/"%char)
           /\ matchPathSegmentsAt segs c s = Some e
           /\ segmentsTerminal c dirOnly e = true).
Proof.
  induction fuel as [|fuel IH]; intros start Hs Hfuel; [lia |].
  cbn [matchPathSegmentsUnanchored_loop]. cbv zeta.
  destruct (match matchPathSegmentsAt segs c start with
            | Some end_ => segmentsTerminal c dirOnly end_
            | None => false
            end) eqn:Hok.
  - split; [intros _ | done].
    destruct (matchPathSegmentsAt segs c start) as [e|] eqn:Hm; [|done].
    exists start, e. split; [lia |]. split; [by left | done].
  - assert (Hhere : forall e, matchPathSegmentsAt segs c start = Some e ->
                      segmentsTerminal c dirOnly e = true -> False).
    { intros e Hm Ht. rewrite Hm in Hok. congruence. }
    destruct (IndexByte (drop start c) "/") as [k|] eqn:Ek.
    + apply IndexByte_Some in Ek as [Hk Hnot].
      pose proof (lookup_lt_Some _ _ _ Hk) as Hlt. rewrite length_drop in Hlt.
      rewrite lookup_drop in Hk.
      rewrite IH by lia. split.
      * intros (s & e & Hle & Hb & Hm & Hd). exists s, e.
        split; [lia |]. split; [|done].
        right. destruct Hb as [->|Hb]; [|done].
        by replace (start + k + 1 - 1) with (start + k) by lia.
      * intros (s & e & Hle & Hb & Hm & Hd). exists s, e.
        destruct (decide (s = start)) as [->|Hns]; [by destruct (Hhere e) |].
        destruct Hb as [->|Hb]; [done |].
        assert (Hge : start + k <= s - 1).
        { destruct (decide (start + k <= s - 1)); [done |]. exfalso.
          apply Hnot. apply list_elem_of_lookup. exists (s - 1 - start).
          rewrite lookup_take_lt by lia. rewrite lookup_drop.
          by replace (start + (s - 1 - start)) with (s - 1) by lia. }
        split; [lia |]. split; [|done].
        destruct (decide (s = start + k + 1)); [by left | by right].
    + apply IndexByte_None in Ek. split; [done |].
      intros (s & e & Hle & Hb & Hm & Hd).
      destruct (decide (s = start)) as [->|]; [by destruct (Hhere e) |].
      destruct Hb as [->|Hb]; [done |].
      exfalso. apply Ek. apply list_elem_of_lookup. exists (s - 1 - start).
      rewrite lookup_drop.
      by replace (start + (s - 1 - start)) with (s - 1) by lia.
Qed.

Lemma matchPathSegments_spec (segs : list segmentPattern)
    (anchored dirOnly : bool) (c : str) :
  segs <> [] ->
  matchPathSegments segs c anchored dirOnly = true
  <-> pathSegmentsMatch segs anchored dirOnly c.
Proof.
  intros Hne. unfold matchPathSegments, pathSegmentsMatch.
  rewrite (bool_decide_eq_false_2 (segs = [])) by done. cbn [orb].
  case_bool_decide as Hc.
  { subst c. split; [done |]. intros (pre & comps & rest & H & _ & _ & HF & _).
    pose proof (segmentAccepts_joinSlash_ne _ _ Hne HF).
    by destruct pre, (joinSlash comps). }
  assert (Hdecomp : forall s,
    s <= length c ->
    (s = 0 \/ c !! (s - 1) = Some "/"%char) ->
    (exists e, matchPathSegmentsAt segs c s = Some e
               /\ segmentsTerminal c dirOnly e = true) ->
    exists pre comps rest,
      c = pre ++ joinSlash comps ++ rest
      /\ (pre = [] \/ last pre = Some "/"%char)
      /\ length pre = s
      /\ Forall2 segmentAccepts segs comps
      /\ (rest = [] \/ (dirOnly = true /\ head rest = Some "/"%char))).
  { intros s Hs Hb Hm.
    apply segmentsAt_terminal_spec in Hm as (comps & rest & HF & Hd & Hr);
      [|done].
    exists (take s c), comps, rest.
    split; [by rewrite <- Hd, take_drop |].
    split; [by apply boundary_take |].
    split; [rewrite length_take; lia | done]. }
  assert (Hback : forall pre comps rest,
    c = pre ++ joinSlash comps ++ rest ->
    Forall2 segmentAccepts segs comps ->
    rest = [] \/ (dirOnly = true /\ head rest = Some "/"%char) ->
    exists e, matchPathSegmentsAt segs c (length pre) = Some e
              /\ segmentsTerminal c dirOnly e = true).
  { intros pre comps rest Hceq HF Hr. apply segmentsAt_terminal_spec; [done |].
    exists comps, rest. split; [done |].
    rewrite Hceq at 1. by rewrite drop_app_length. }
  assert (Hin : forall s e, matchPathSegmentsAt segs c s = Some e ->
                  s <= length c).
  { intros s e. unfold matchPathSegmentsAt.
    destruct (Nat.leb_spec (length c) s); [done | lia]. }
  destruct anchored.
  - split.
    + intros H.
      destruct (Hdecomp 0) as (pre & comps & rest & Hceq & Hb & Hl & HF & Hr).
      * lia.
      * by left.
      * destruct (matchPathSegmentsAt segs c 0) as [e|]; [eauto | done].
      * exists pre, comps, rest. split; [done |]. split; [done |].
        split; [|done]. intros _. by destruct pre.
    + intros (pre & comps & rest & Hceq & Hb & Ha & HF & Hr).
      destruct (Hback pre comps rest Hceq HF Hr) as (e & Hm & Hd).
      rewrite (Ha eq_refl) in Hm. cbn [length] in Hm. by rewrite Hm.
  - unfold matchPathSegmentsUnanchored.
    rewrite matchPathSegmentsUnanchored_loop_spec by lia. split.
    + intros (s & e & _ & Hb & Hm & Hd).
      destruct (Hdecomp s) as (pre & comps & rest & Hceq & Hb' & Hl & HF & Hr).
      * by eapply Hin.
      * destruct Hb as [->|Hb]; [by left | by right].
      * eauto.
      * exists pre, comps, rest. done.
    + intros (pre & comps & rest & Hceq & Hb & _ & HF & Hr).
      destruct (Hback pre comps rest Hceq HF Hr) as (e & Hm & Hd).
      exists (length pre), e. split; [lia |]. split; [|done].
      destruct pre as [|x pre _] using rev_ind; [by left |]. right.
      destruct Hb as [Hb|Hb]; [by destruct pre |].
      rewrite last_snoc in Hb. injection Hb as ->.
      rewrite Hceq, length_app. cbn [length].
      replace (length pre + 1 - 1) with (length pre) by lia.
      rewrite <- app_assoc. by rewrite lookup_app_r, Nat.sub_diag by lia.
Qed.

End SegmentRuleFacts.

Section StrategyProperties.

Context {Regexp : Type}.
Variable rc : str -> option Regexp.
Variable rm : Regexp -> str -> bool.

Lemma matchSegmentPattern_new (sp comp : str) :
  matchSegmentPattern (newSegmentPattern sp) comp
  = if ContainsAny sp $"*?" then matchSimpleWildcard sp comp
    else bool_decide (comp = sp).
Proof.
  unfold matchSegmentPattern, newSegmentPattern. cbn [wildcard text].
  by destruct (ContainsAny sp $"*?").
Qed.

Lemma dirComponentHit_ext (hit hit' : str -> bool) (c : str) (isDir : bool) :
  (forall comp, hit comp = hit' comp) ->
  dirComponentHit hit c isDir <-> dirComponentHit hit' c isDir.
Proof.
  intros Hext. unfold dirComponentHit.
  split; intros (k & comp & H1 & H2 & H3 & H4); exists k, comp;
    (split; [done |]; split; [done |]; split; [|done]).
  - by rewrite <- Hext.
  - by rewrite Hext.
Qed.

(** X[component]. A rule whose pattern has no slash and no character
    class is a component rule: it tests single path elements, by equality
    when the pattern has no wildcard and with [matchSimpleWildcard]
    otherwise.  Without a trailing slash it tests the last element of the
    candidate; with one it matches iff it accepts an element that names a
    directory, that is any element but the last, or the last one when the
    candidate is a directory. *)
Theorem component_rule_matching rule ci (cr : compiledRule Regexp)
    (c : str) (isDir : bool) :
  compileRule rc rule ci = inr cr ->
  hasSlash cr = false ->
  patternHasCharClass (strippedPattern rule ci) = false ->
  c <> [] ->
  let sp := strippedPattern rule ci in
  let accepts := fun comp : str =>
    if patternHasGlobMeta sp then matchSimpleWildcard sp comp
    else bool_decide (comp = sp) in
  last (splitSlash c) = Some (pathBase c)
  /\ (dirOnly cr = false -> matches rm cr c isDir = accepts (pathBase c))
  /\ (dirOnly cr = true ->
      (matches rm cr c isDir = true <-> dirComponentHit accepts c isDir)).
Proof.
  intros Hc Hs Hcls Hne sp accepts.
  destruct (compileRule_strategy rc _ _ _ Hc) as (Hex & Hgl & _).
  cbv zeta in Hex, Hgl. fold sp in Hex, Hgl, Hcls.
  rewrite Hs in Hex, Hgl. rewrite Hcls in Hgl. cbn [negb andb] in Hex, Hgl.
  destruct (compileRule_inr rc _ _ _ Hc) as (_ & _ & Hsp & _).
  fold sp in Hsp.
  pose proof (patternHasGlobMeta_split sp) as Hmeta.
  rewrite Hcls, orb_false_r in Hmeta.
  split; [apply pathBase_last |].
  unfold matches. rewrite (bool_decide_eq_false_2 (c = [])) by done.
  rewrite Hs. unfold accepts.
  destruct (patternHasGlobMeta sp); cbn [negb andb] in Hex, Hgl.
  - rewrite Hex, Hgl. rewrite (bool_decide_eq_true_2 ([] = [])) by done.
    cbn [negb text newSegmentPattern].
    rewrite (bool_decide_eq_false_2 (sp = [])) by done. cbn [negb].
    split; intros ->; cbn [negb].
    + by rewrite matchSegmentPattern_new, <- Hmeta.
    + unfold matchDirOnlyComponentPattern. cbn [text newSegmentPattern].
      rewrite (bool_decide_eq_false_2 (sp = [])) by done.
      rewrite (bool_decide_eq_false_2 (c = [])) by done. cbn [orb].
      rewrite dirOnlyComponent_spec. apply dirComponentHit_ext.
      intros comp. by rewrite matchSegmentPattern_new, <- Hmeta.
  - rewrite Hex. rewrite (bool_decide_eq_false_2 (sp = [])) by done.
    cbn [negb].
    split; intros ->; cbn [negb]; [done |].
    unfold matchDirOnlyComponentExact.
    rewrite (bool_decide_eq_false_2 (sp = [])) by done.
    rewrite (bool_decide_eq_false_2 (c = [])) by done. cbn [orb].
    apply dirOnlyComponent_spec.
Qed.

Lemma HasSuffix_Contains (s p : str) :
  HasSuffix s p = true -> Contains s p = true.
Proof.
  intros H. apply HasSuffix_spec in H as [t ->].
  apply Contains_spec. exists t, []. by rewrite app_nil_r.
Qed.

(** X[segments]. A pattern with a slash (or anchored) that has a
    wildcard but neither a double star nor a character class compiles to
    one segment per slash-separated element.  The rule matches iff the
    candidate holds, from its start (anchored) or from a slash boundary,
    one accepted element per segment and ends there; for a dir-only rule
    a slash may follow instead.  Whether the candidate is a directory is
    not looked at. *)
Theorem pathSegments_rule_matching rule ci (cr : compiledRule Regexp)
    (c : str) (isDir : bool) :
  compileRule rc rule ci = inr cr ->
  hasSlash cr = true ->
  patternHasGlobMeta (strippedPattern rule ci) = true ->
  canUseSimplePathSegments (strippedPattern rule ci) = true ->
  let segs := map newSegmentPattern (splitSlash (strippedPattern rule ci)) in
  pathSegments cr = segs
  /\ (matches rm cr c isDir = true
      <-> pathSegmentsMatch segs (anchored cr) (dirOnly cr) c)
  /\ matches rm cr c true = matches rm cr c false.
Proof.
  intros Hc Hs Hmeta Hsimple segs.
  destruct (compileRule_strategy rc _ _ _ Hc) as (_ & _ & _ & Hseg & _).
  destruct (compileRule_inr rc _ _ _ Hc)
    as (_ & _ & Hsp & _ & _ & _ & Hhs & Hex & Hpre).
  cbv zeta in Hseg, Hhs, Hex, Hpre.
  set (sp := strippedPattern rule ci) in *.
  rewrite <- Hhs, Hs, Hmeta in Hex, Hpre. rewrite Hs, Hmeta, Hsimple in Hseg.
  assert (Hcut : CutSuffix sp $"/**" = (sp, false)).
  { unfold CutSuffix. destruct (HasSuffix sp $"/**") eqn:E; [|done].
    apply HasSuffix_spec in E as [t Ht].
    unfold canUseSimplePathSegments in Hsimple.
    destruct (bool_decide (sp = [])); [done |].
    replace (Contains sp $"**") with true in Hsimple; [done |].
    symmetry. apply Contains_spec. exists (t ++ $"/"), [].
    rewrite Ht, app_nil_r, <- app_assoc. done. }
  rewrite Hcut in Hseg, Hpre. cbn [fst snd negb andb] in Hseg, Hex, Hpre.
  rewrite compilePathSegments_split in Hseg. fold segs in Hseg.
  assert (Hne : segs <> []).
  { unfold segs. destruct (splitSlash sp) eqn:E;
      [by destruct (splitSlash_ne sp) | done]. }
  assert (Hm : forall d, matches rm cr c d
                         = matchPathSegments segs c (anchored cr) (dirOnly cr)).
  { intros d. unfold matches. rewrite Hs, Hex, Hpre, Hseg.
    rewrite (bool_decide_eq_true_2 ([] = [])) by done. cbn [negb length].
    replace (0 <? length segs) with true
      by (symmetry; apply Nat.ltb_lt; destruct segs; [done | cbn; lia]).
    cbn [Nat.ltb Nat.leb].
    case_bool_decide as Hcn; [|done].
    unfold matchPathSegments. subst c.
    by rewrite (bool_decide_eq_true_2 ([] = [])), orb_true_r by done. }
  split; [done |]. split; [|by rewrite !Hm].
  rewrite Hm. by apply matchPathSegments_spec.
Qed.

End StrategyProperties.

Lemma component_rule_matching_witness :
  compileRule Sample.reCompile Cases.buildRule false = inr Cases.buildCompiled
  /\ hasSlash Cases.buildCompiled = false
  /\ patternHasCharClass (strippedPattern Cases.buildRule false) = false
  /\ $"src/build/x.o" <> []
  /\ matches Sample.reMatchString Cases.buildCompiled $"src/build/x.o" false
     = true.
Proof.
  split; [reflexivity |]. split; [reflexivity |]. split; [reflexivity |].
  split; [done |].
  pose proof (component_rule_matching Sample.reCompile Sample.reMatchString
                Cases.buildRule false Cases.buildCompiled $"src/build/x.o"
                false eq_refl eq_refl eq_refl ltac:(done)) as H.
  cbv zeta in H. destruct H as (_ & _ & H). apply (H eq_refl).
  exists 1, ($"build"). split; [reflexivity |]. split; [done |].
  split; [reflexivity |]. left. vm_compute. lia.
Defined.

Lemma pathSegments_rule_matching_witness :
  compileRule Sample.reCompile Cases.srcRule false = inr Cases.srcCompiled
  /\ hasSlash Cases.srcCompiled = true
  /\ patternHasGlobMeta (strippedPattern Cases.srcRule false) = true
  /\ canUseSimplePathSegments (strippedPattern Cases.srcRule false) = true
  /\ matches Sample.reMatchString Cases.srcCompiled $"src/x.d" true
     = matches Sample.reMatchString Cases.srcCompiled $"src/x.d" false.
Proof.
  split; [reflexivity |]. split; [reflexivity |]. split; [reflexivity |].
  split; [reflexivity |].
  pose proof (pathSegments_rule_matching Sample.reCompile
                Sample.reMatchString Cases.srcRule false Cases.srcCompiled
                $"src/x.d" true eq_refl eq_refl eq_refl eq_refl) as H.
  cbv zeta in H. destruct H as (_ & _ & H). exact H.
Defined.

(** X[meta]. What counts as glob meta: a pattern has glob meta iff it
    holds a [*], a [?] or a character class.  A class runs from a [[] to
    the first []] after an optional [!] or [^] and an optional leading
    []], so it is never empty; a [[] that is not closed this way is a
    literal byte. *)
Theorem glob_meta_kinds (pattern : str) :
  patternHasGlobMeta pattern
  = ContainsAny pattern $"*?" || patternHasCharClass pattern
  /\ (patternHasCharClass pattern = true
      <-> exists i e, findCharClassEnd pattern i = Some e)
  /\ (forall i e, findCharClassEnd pattern i = Some e ->
        pattern !! i = Some "["%char /\ i + 2 <= e
        /\ pattern !! e = Some "]"%char)
  /\ ("]"%char ∉ pattern -> patternHasCharClass pattern = false).
Proof.
  split; [apply patternHasGlobMeta_split |].
  split; [apply patternHasCharClass_spec |].
  split; [apply findCharClassEnd_spec | apply findCharClassEnd_needs_bracket].
Qed.

(** ** White space at the ends of a string *)

Section TrimSpaceFacts.

Lemma spaceRunes_bounds :
  Forall (fun w => 1 <= length w /\ length w <= 3) spaceRunes.
Proof. repeat constructor. Qed.

Lemma spaceRune_length (w : str) :
  In w spaceRunes -> 1 <= length w /\ length w <= 3.
Proof.
  intros H. pose proof spaceRunes_bounds as HF.
  rewrite Forall_forall in HF. apply HF. by apply list_elem_of_In.
Qed.

Lemma HasSuffix_length (s p : str) :
  HasSuffix s p = true -> length p <= length s.
Proof. intros H. apply HasSuffix_spec in H as [t ->]. rewrite length_app. lia. Qed.

Lemma leadingSpace_Some (s : str) (n : nat) :
  leadingSpace s = Some n -> 1 <= n /\ n <= length s.
Proof.
  unfold leadingSpace. destruct (find _ _) as [w|] eqn:E; [|done].
  intros [= <-]. apply find_some in E as [Hin Hp].
  apply spaceRune_length in Hin. apply HasPrefix_length in Hp. lia.
Qed.

Lemma trailingSpace_Some (s : str) (n : nat) :
  trailingSpace s = Some n -> 1 <= n /\ n <= length s.
Proof.
  unfold trailingSpace. destruct (find _ _) as [w|] eqn:E; [|done].
  intros [= <-]. apply find_some in E as [Hin Hp].
  apply spaceRune_length in Hin. apply HasSuffix_length in Hp. lia.
Qed.

Lemma find_is_None {A} (f : A -> bool) (l : list A) :
  find f l = None <-> forall x, In x l -> f x = false.
Proof.
  split; [apply find_none |]. intros H.
  destruct (find f l) as [x|] eqn:E; [|done].
  apply find_some in E as [Hin Hf]. rewrite (H x Hin) in Hf. done.
Qed.

Lemma leadingSpace_None (s : str) :
  leadingSpace s = None <-> forall w, In w spaceRunes -> HasPrefix s w = false.
Proof.
  unfold leadingSpace. rewrite <- find_is_None.
  by destruct (find _ _).
Qed.

Lemma trailingSpace_None (s : str) :
  trailingSpace s = None <-> forall w, In w spaceRunes -> HasSuffix s w = false.
Proof.
  unfold trailingSpace. rewrite <- find_is_None.
  by destruct (find _ _).
Qed.

Lemma leadingSpace_prefix (r post : str) :
  leadingSpace (r ++ post) = None -> leadingSpace r = None.
Proof.
  rewrite !leadingSpace_None. intros H w Hw. specialize (H w Hw).
  destruct (HasPrefix r w) eqn:E; [|done].
  apply HasPrefix_spec in E as [t ->].
  by rewrite <- app_assoc, HasPrefix_app in H.
Qed.

Lemma trailingSpace_suffix (pre r : str) :
  trailingSpace (pre ++ r) = None -> trailingSpace r = None.
Proof.
  rewrite !trailingSpace_None. intros H w Hw. specialize (H w Hw).
  destruct (HasSuffix r w) eqn:E; [|done].
  apply HasSuffix_spec in E as [t ->].
  by rewrite app_assoc, HasSuffix_app in H.
Qed.

Lemma trimLeftSpace_spec :
  forall fuel s, length s <= fuel ->
    leadingSpace (trimLeftSpace fuel s) = None
    /\ exists pre, s = pre ++ trimLeftSpace fuel s.
Proof.
  induction fuel as [|fuel IH]; intros s Hlen.
  - destruct s; [|cbn in Hlen; lia]. split; [done | by exists []].
  - cbn [trimLeftSpace]. destruct (leadingSpace s) as [n|] eqn:E.
    + apply leadingSpace_Some in E as [H1 H2].
      destruct (IH (drop n s)) as (Hl & pre & Hpre).
      { rewrite length_drop. lia. }
      split; [done |]. exists (take n s ++ pre).
      by rewrite <- app_assoc, <- Hpre, take_drop.
    + split; [done | by exists []].
Qed.

Lemma trimRightSpace_spec :
  forall fuel s, length s <= fuel ->
    trailingSpace (trimRightSpace fuel s) = None
    /\ exists post, s = trimRightSpace fuel s ++ post.
Proof.
  induction fuel as [|fuel IH]; intros s Hlen.
  - destruct s; [|cbn in Hlen; lia]. split; [done | by exists []].
  - cbn [trimRightSpace]. destruct (trailingSpace s) as [n|] eqn:E.
    + apply trailingSpace_Some in E as [H1 H2].
      destruct (IH (take (length s - n) s)) as (Hl & post & Hpost).
      { rewrite length_take. lia. }
      split; [done |]. exists (post ++ drop (length s - n) s).
      by rewrite app_assoc, <- Hpost, take_drop.
    + split; [done |]. exists []. by rewrite app_nil_r.
Qed.

Lemma trimLeftSpace_None (fuel : nat) (s : str) :
  leadingSpace s = None -> trimLeftSpace fuel s = s.
Proof. intros H. destruct fuel; [done |]. cbn [trimLeftSpace]. by rewrite H. Qed.

Lemma trimRightSpace_None (fuel : nat) (s : str) :
  trailingSpace s = None -> trimRightSpace fuel s = s.
Proof. intros H. destruct fuel; [done |]. cbn [trimRightSpace]. by rewrite H. Qed.

Lemma TrimSpace_fixed (s : str) :
  leadingSpace s = None -> trailingSpace s = None -> TrimSpace s = s.
Proof.
  intros Hl Hr. unfold TrimSpace.
  by rewrite trimLeftSpace_None, trimRightSpace_None.
Qed.

(** [TrimSpace] returns a piece of its input that has white space at
    neither end. *)
Lemma TrimSpace_clean (s : str) :
  leadingSpace (TrimSpace s) = None /\ trailingSpace (TrimSpace s) = None
  /\ exists pre post, s = pre ++ TrimSpace s ++ post.
Proof.
  unfold TrimSpace.
  destruct (trimLeftSpace_spec (length s) s) as (Hl & pre & Hpre); [done |].
  set (t := trimLeftSpace (length s) s) in *.
  destruct (trimRightSpace_spec (length t) t) as (Hr & post & Hpost); [done |].
  set (r := trimRightSpace (length t) t) in *.
  split; [|split; [done |]].
  - rewrite Hpost in Hl. by eapply leadingSpace_prefix.
  - exists pre, post. by rewrite <- Hpost.
Qed.

Lemma TrimSpace_fixed_inv (s : str) :
  TrimSpace s = s -> leadingSpace s = None /\ trailingSpace s = None.
Proof.
  intros H. destruct (TrimSpace_clean s) as (Hl & Hr & _).
  by rewrite H in Hl, Hr.
Qed.

Lemma TrimSpace_idemp (s : str) : TrimSpace (TrimSpace s) = TrimSpace s.
Proof.
  destruct (TrimSpace_clean s) as (Hl & Hr & _). by apply TrimSpace_fixed.
Qed.

Lemma not_in_existsb (x : ascii) (w : str) :
  existsb (Ascii.eqb x) w = false -> x ∉ w.
Proof.
  intros H Hin. apply not_true_iff_false in H. apply H.
  apply existsb_exists. exists x. split; [by apply list_elem_of_In |].
  by apply eqb_true.
Qed.

(** A byte that occurs in no white-space rune, put in front of a string,
    leaves the white space at the string's end as it is. *)
Lemma trailingSpace_cons (x : ascii) (s : str) :
  forallb (fun w => negb (existsb (Ascii.eqb x) w)) spaceRunes = true ->
  trailingSpace (x :: s) = trailingSpace s.
Proof.
  intros Hx. unfold trailingSpace. f_equal. apply find_ext_Forall.
  apply Forall_forall. intros w Hw.
  assert (Hxw : x ∉ w).
  { apply not_in_existsb. apply negb_true_iff.
    rewrite forallb_forall in Hx. apply Hx. by apply list_elem_of_In. }
  unfold HasSuffix. cbn [length].
  destruct (Nat.leb_spec (length w) (length s)) as [Hle|Hgt].
  - replace (length w <=? S (length s)) with true
      by (symmetry; apply Nat.leb_le; lia).
    cbn [andb]. apply bool_decide_ext.
    replace (S (length s) - length w) with (S (length s - length w)) by lia.
    done.
  - cbn [andb]. apply andb_false_iff.
    destruct (Nat.leb_spec (length w) (S (length s))) as [Hle|?]; [|by left].
    right. apply bool_decide_eq_false. intros H.
    replace (S (length s) - length w) with 0 in H by lia.
    cbn in H. subst w. apply Hxw. by left.
Qed.

End TrimSpaceFacts.

(** ** extensions.go *)

Section ExtensionFacts.

Lemma TrimLeft_suffix (s cutset : str) :
  exists pre, s = pre ++ TrimLeft s cutset.
Proof.
  induction s as [|c s [pre IH]]; [by exists [] |]. cbn.
  destruct (inCutset cutset c); [|by exists []].
  exists (c :: pre). cbn. by rewrite <- IH.
Qed.

Lemma TrimLeft_head (s cutset : str) (c : ascii) :
  head (TrimLeft s cutset) = Some c -> inCutset cutset c = false.
Proof.
  induction s as [|x s IH]; [done |]. cbn.
  destruct (inCutset cutset x) eqn:E; [done |]. by intros [= <-].
Qed.

Lemma TrimPrefix_suffix (s p : str) : exists pre, s = pre ++ TrimPrefix s p.
Proof.
  unfold TrimPrefix. destruct (HasPrefix s p); [|by exists []].
  exists (take (length p) s). by rewrite take_drop.
Qed.

(** The extension [parseExtension] keeps of a value. *)
Lemma parseExtension_Some (x : str) (r : Rule) :
  parseExtension x = Some r ->
  RAction r = ActionInclude
  /\ exists e, Pattern r = $"*." ++ e /\ e <> [] /\ asciiLower e = e
               /\ head e <> Some "."%char /\ trailingSpace e = None.
Proof.
  unfold parseExtension. cbv zeta.
  set (t := TrimLeft (TrimPrefix (TrimSpace x) $"*.") $".").
  case_bool_decide as He; [done |]. intros [= <-]. split; [done |].
  exists (asciiLower t). split; [done |]. split; [done |].
  split; [apply asciiLower_idemp |]. split.
  - rewrite asciiLower_map. destruct t as [|c t'] eqn:Et; [done |].
    cbn [map head]. intros [= Hc].
    assert (Hh : head (TrimLeft (TrimPrefix (TrimSpace x) $"*.") $".")
                 = Some c) by (fold t; by rewrite Et).
    apply TrimLeft_head in Hh. cbn in Hh. rewrite orb_false_r in Hh.
    apply eqb_false in Hh. apply Hh.
    apply eqb_true. rewrite <- (lowerByte_eqb c "."%char) by done.
    by apply eqb_true.
  - rewrite asciiLower_map, lower_trailingSpace.
    destruct (TrimSpace_clean x) as (_ & Hr & _).
    destruct (TrimPrefix_suffix (TrimSpace x) $"*.") as [p1 H1].
    destruct (TrimLeft_suffix (TrimPrefix (TrimSpace x) $"*.") $".")
      as [p2 H2].
    fold t in H2. rewrite H1, H2, app_assoc in Hr.
    by eapply trailingSpace_suffix.
Qed.

(** A value that is already an extension, with a dot or with [*.] in
    front. *)
Lemma parseExtension_forms (e : str) :
  e <> [] -> TrimSpace e = e -> head e <> Some "."%char ->
  HasPrefix e $"*." = false ->
  let rule := Some (mkRule ($"*." ++ asciiLower e) ActionInclude) in
  parseExtension e = rule
  /\ parseExtension ($"." ++ e) = rule
  /\ parseExtension ($"*." ++ e) = rule.
Proof.
  intros Hne Hts Hhead Hstar rule.
  apply TrimSpace_fixed_inv in Hts as Hends. destruct Hends as [Hl Hr].
  assert (Htl : TrimLeft e $"." = e).
  { apply TrimLeft_stop. intros c Hc. cbn. rewrite orb_false_r.
    apply eqb_false. intros ->. done. }
  assert (Hlow : bool_decide (asciiLower e = []) = false).
  { apply bool_decide_eq_false. rewrite asciiLower_map. by destruct e. }
  unfold parseExtension. cbv zeta. split; [|split].
  - rewrite Hts. unfold TrimPrefix. rewrite Hstar, Htl, Hlow. done.
  - rewrite (TrimSpace_fixed ($"." ++ e)); [|done |].
    + change (TrimPrefix ($"." ++ e) $"*.") with ("."%char :: e).
      change (TrimLeft ("."%char :: e) $".") with (TrimLeft e $".").
      by rewrite Htl, Hlow.
    + change ($"." ++ e) with ("."%char :: e).
      by rewrite trailingSpace_cons.
  - rewrite (TrimSpace_fixed ($"*." ++ e)); [|done |].
    + rewrite TrimPrefix_app. by rewrite Htl, Hlow.
    + change ($"*." ++ e) with ("*"%char :: "."%char :: e).
      by rewrite !trailingSpace_cons.
Qed.

End ExtensionFacts.

(** X[extshape]. [ParseExtensions] returns Include rules only, in input
    order and at most one per value.  Every pattern is [*.] followed by
    an extension that is not empty, has no upper-case ASCII letter, does
    not begin with a dot and does not end with white space; a value with
    no such extension in it is skipped. *)
Theorem ParseExtensions_shape (exts : list str) :
  Forall (fun r =>
            RAction r = ActionInclude
            /\ exists e, Pattern r = $"*." ++ e /\ e <> []
                         /\ asciiLower e = e /\ head e <> Some "."%char
                         /\ trailingSpace e = None)
         (ParseExtensions exts)
  /\ length (ParseExtensions exts) <= length exts
  /\ (forall more, ParseExtensions (exts ++ more)
                   = ParseExtensions exts ++ ParseExtensions more)
  /\ (forall x, TrimLeft (TrimPrefix (TrimSpace x) $"*.") $"." = [] ->
                ParseExtensions (exts ++ [x]) = ParseExtensions exts).
Proof.
  split; [|split; [|split]].
  - unfold ParseExtensions. induction exts as [|x exts IH]; [constructor |].
    cbn [omap list_omap]. destruct (parseExtension x) as [r|] eqn:E; [|done].
    constructor; [by eapply parseExtension_Some | done].
  - unfold ParseExtensions. induction exts as [|x exts IH]; [done |].
    cbn [omap list_omap length]. destruct (parseExtension x); cbn [length]; lia.
  - intros more. apply omap_app.
  - intros x Hx. unfold ParseExtensions. rewrite omap_app.
    cbn [omap list_omap]. unfold parseExtension. cbv zeta. rewrite Hx.
    cbn. by rewrite app_nil_r.
Qed.

(** X[extforms]. The three accepted forms of an extension give the same
    rule: for a value [e] that is not empty, has no white space at its
    ends and begins neither with a dot nor with [*.], the values [e],
    [.e] and [*.e] all become the Include rule [*.] followed by [e] in
    lower case. *)
Theorem ParseExtensions_forms (e : str) :
  e <> [] -> TrimSpace e = e -> head e <> Some "."%char ->
  HasPrefix e $"*." = false ->
  ParseExtensions [e; $"." ++ e; $"*." ++ e]
  = [mkRule ($"*." ++ asciiLower e) ActionInclude;
     mkRule ($"*." ++ asciiLower e) ActionInclude;
     mkRule ($"*." ++ asciiLower e) ActionInclude].
Proof.
  intros Hne Hts Hhead Hstar.
  destruct (parseExtension_forms e Hne Hts Hhead Hstar) as (H1 & H2 & H3).
  unfold ParseExtensions. cbn [omap list_omap]. by rewrite H1, H2, H3.
Qed.

Lemma ParseExtensions_forms_witness :
  $"TXT" <> [] /\ TrimSpace $"TXT" = $"TXT" /\ head $"TXT" <> Some "."%char
  /\ HasPrefix $"TXT" $"*." = false
  /\ ParseExtensions [$"TXT"; $".TXT"; $"*.TXT"]
     = [mkRule $"*.txt" ActionInclude; mkRule $"*.txt" ActionInclude;
        mkRule $"*.txt" ActionInclude].
Proof.
  split; [done |]. split; [reflexivity |]. split; [done |].
  split; [reflexivity |].
  apply (ParseExtensions_forms $"TXT"); [done | reflexivity | done | reflexivity].
Defined.

(** X[extidem]. The patterns [ParseExtensions] returns are values it
    accepts and maps to themselves: parsing the returned patterns again
    gives the same rules. *)
Theorem ParseExtensions_idempotent (exts : list str) :
  ParseExtensions (map Pattern (ParseExtensions exts)) = ParseExtensions exts.
Proof.
  unfold ParseExtensions. induction exts as [|x exts IH]; [done |].
  cbn [omap list_omap]. destruct (parseExtension x) as [r|] eqn:E; [|done].
  cbn [map omap list_omap]. rewrite IH.
  apply parseExtension_Some in E as (Ha & e & Hp & Hne & Hlow & Hhead & Hr).
  assert (Hagain : parseExtension (Pattern r) = Some r).
  { rewrite Hp. unfold parseExtension. cbv zeta.
    rewrite (TrimSpace_fixed ($"*." ++ e)); [|done |].
    - rewrite TrimPrefix_app.
      rewrite (TrimLeft_stop e).
      2:{ intros c Hc. cbn. rewrite orb_false_r. apply eqb_false.
          intros ->. done. }
      rewrite Hlow, bool_decide_eq_false_2 by done.
      destruct r as [p a]. cbn in *. by subst.
    - change ($"*." ++ e) with ("*"%char :: "."%char :: e).
      by rewrite !trailingSpace_cons. }
  by rewrite Hagain.
Qed.

(** ** Extension rules at work *)

Section ExtensionRuleFacts.

Lemma plainExtension_not_in (e : str) (c : ascii) :
  plainExtension e = true -> inCutset $"*?[/\" c = true -> c ∉ e.
Proof.
  intros He Hc Hin. unfold plainExtension in He.
  rewrite forallb_forall in He. apply list_elem_of_In in Hin.
  apply He in Hin. by rewrite Hc in Hin.
Qed.

Lemma map_replaceByte_id (a b : ascii) (s : str) :
  a ∉ s -> map (replaceByte a b) s = s.
Proof.
  induction s as [|c s IH]; [done |]. intros H.
  apply not_elem_of_cons in H as [Hc Hs]. cbn. rewrite IH by done.
  unfold replaceByte.
  by replace (Ascii.eqb c a) with false
    by (symmetry; apply eqb_false; congruence).
Qed.

Lemma TrimSuffix_none (s p : str) : HasSuffix s p = false -> TrimSuffix s p = s.
Proof. intros H. unfold TrimSuffix. by rewrite H. Qed.

Lemma TrimPrefix_none (s p : str) : HasPrefix s p = false -> TrimPrefix s p = s.
Proof. intros H. unfold TrimPrefix. by rewrite H. Qed.

Lemma HasSuffix_last (s : str) (c : ascii) :
  HasSuffix s [c] = true <-> last s = Some c.
Proof.
  rewrite HasSuffix_spec. split.
  - intros [t ->]. by rewrite last_snoc.
  - intros H. destruct s as [|x s _] using rev_ind; [done |].
    rewrite last_snoc in H. injection H as ->. by exists s.
Qed.

Lemma TrimRight_none (s cutset : str) :
  (forall c, last s = Some c -> inCutset cutset c = false) ->
  TrimRight s cutset = s.
Proof.
  intros H. unfold TrimRight. rewrite TrimLeft_stop; [apply rev_involutive |].
  intros c Hc. apply H. by rewrite <- head_rev.
Qed.

(** The pattern [*.e] of a plain extension survives normalization and
    stripping unchanged. *)
Lemma extension_pattern_kept (e : str) (a : Action) (ci : bool) :
  e <> [] -> plainExtension e = true -> trailingSpace e = None ->
  asciiLower e = e ->
  preparedPattern (mkRule ($"*." ++ e) a) ci = $"*." ++ e
  /\ strippedPattern (mkRule ($"*." ++ e) a) ci = $"*." ++ e.
Proof.
  intros Hne Hplain Hr Hlow.
  assert (Hpp : preparedPattern (mkRule ($"*." ++ e) a) ci = $"*." ++ e).
  { unfold preparedPattern, normalizePattern. cbn [Pattern].
    rewrite (TrimSpace_fixed ($"*." ++ e)); [|done |].
    2:{ change ($"*." ++ e) with ("*"%char :: "."%char :: e).
        by rewrite !trailingSpace_cons. }
    change ($"\") with ["\"%char]. change ($"/") with ["/"%char].
    rewrite ReplaceAll_byte, map_replaceByte_id.
    2:{ change ($"*." ++ e) with ("*"%char :: "."%char :: e).
        rewrite !not_elem_of_cons. split; [done |]. split; [done |].
        by apply (plainExtension_not_in e). }
    destruct ci; [|done].
    rewrite asciiLower_map, map_app, <- (asciiLower_map e), Hlow. done. }
  split; [done |]. unfold strippedPattern. rewrite Hpp.
  rewrite TrimPrefix_none by done.
  assert (Hlast : forall c, last ($"*." ++ e) = Some c -> c <> "/"%char).
  { intros c Hc ->. rewrite last_app in Hc.
    destruct (last e) as [x|] eqn:El; [|by destruct e using rev_ind;
      [|rewrite last_snoc in El]].
    injection Hc as ->.
    apply (plainExtension_not_in e "/"%char Hplain eq_refl).
    apply last_Some in El as [l' ->]. apply elem_of_app. right. by left. }
  rewrite TrimSuffix_none.
  2:{ apply not_true_iff_false. intros H.
      change ($"/") with ["/"%char] in H.
      apply HasSuffix_last in H. by apply Hlast in H. }
  unfold Trim. rewrite (TrimLeft_stop ($"*." ++ e)) by (by intros c [= <-]).
  apply TrimRight_none. intros c Hc. cbn. rewrite orb_false_r.
  apply eqb_false. by apply Hlast.
Qed.

Lemma wm_literal (q s : str) :
  Forall (fun c => c <> "*"%char /\ c <> "?"%char) q ->
  wildcardMatch q s <-> s = q.
Proof.
  intros Hq. revert s. induction Hq as [|c q [H1 H2] _ IH]; intros s.
  - split; [apply wm_inv_nil | intros ->; constructor].
  - split.
    + intros H. apply wm_inv_cons in H
        as [[? _]|[_ (x & s' & -> & [?|<-] & H')]]; [done.. |].
      f_equal. by apply IH.
    + intros ->. constructor; [done.. |]. by apply IH.
Qed.

Lemma wm_suffix (q s : str) :
  Forall (fun c => c <> "*"%char /\ c <> "?"%char) q ->
  wildcardMatch ("*"%char :: q) s <-> HasSuffix s q = true.
Proof.
  intros Hq. rewrite HasSuffix_spec. split.
  - intros H. apply wm_inv_cons in H as [[_ (t & s' & -> & H')]|[? _]]; [|done].
    apply wm_literal in H'; [|done]. subst. by exists t.
  - intros [t ->]. constructor. by apply wm_literal.
Qed.

End ExtensionRuleFacts.

Section ExtensionRuleProperties.

Context {Regexp : Type}.
Variable rc : str -> option Regexp.
Variable rm : Regexp -> str -> bool.

(** X[extrule]. The rule [ParseExtensions] makes for a plain extension
    [e] (no wildcard, bracket, slash or backslash in it) always compiles,
    to a component rule that never uses the regular-expression engine,
    and it matches a candidate iff the last element of the candidate
    ends with a dot followed by [e].  The last element must hold no [*]
    byte for the "if" direction. *)
Theorem extension_rule_matching (e : str) (ci : bool) (c : str)
    (isDir : bool) :
  e <> [] -> plainExtension e = true -> trailingSpace e = None ->
  asciiLower e = e -> c <> [] ->
  exists cr,
    compileRule rc (mkRule ($"*." ++ e) ActionInclude) ci = inr cr
    /\ componentRE cr = None /\ hasSlash cr = false /\ dirOnly cr = false
    /\ (matches rm cr c isDir = true ->
        HasSuffix (pathBase c) ($"." ++ e) = true)
    /\ ("*"%char ∉ pathBase c ->
        HasSuffix (pathBase c) ($"." ++ e) = true ->
        matches rm cr c isDir = true).
Proof.
  intros Hne Hplain Hr Hlow Hc.
  set (rule := mkRule ($"*." ++ e) ActionInclude).
  destruct (extension_pattern_kept e ActionInclude ci Hne Hplain Hr Hlow)
    as [Hpp Hsp]. fold rule in Hpp, Hsp.
  assert (Hns : forall x, inCutset $"*?[/\" x = true -> x ∉ $"*." ++ e
                          \/ x = "*"%char).
  { intros x Hx. destruct (decide (x = "*"%char)) as [->|Hxs]; [by right |].
    left. change ($"*." ++ e) with ("*"%char :: "."%char :: e).
    rewrite !not_elem_of_cons. split; [done |]. split.
    - intros ->. done.
    - by apply (plainExtension_not_in e). }
  assert (Hslash : Contains ($"*." ++ e) $"/" = false).
  { apply not_true_iff_false. intros H. change ($"/") with ["/"%char] in H.
    apply Contains_byte in H. by destruct (Hns "/"%char eq_refl). }
  assert (Hmeta : patternHasGlobMeta ($"*." ++ e) = true).
  { apply patternHasGlobMeta_star. by left. }
  assert (Hcls : patternHasCharClass ($"*." ++ e) = false).
  { apply not_true_iff_false. intros H.
    apply patternHasCharClass_spec in H as (j & k & Hk).
    apply findCharClassEnd_spec in Hk as (Hj & _ & _).
    destruct (Hns "["%char eq_refl) as [Hn|?]; [|done].
    apply Hn. by eapply list_elem_of_lookup_2. }
  assert (Hcomp : exists cr, compileRule rc rule ci = inr cr).
  { unfold compileRule. cbn [RAction rule Action_valid].
    change (Action_valid ActionInclude) with true. cbn [negb]. cbv zeta.
    change (if ci then asciiLower (normalizePattern (Pattern rule))
            else normalizePattern (Pattern rule))
      with (preparedPattern rule ci).
    rewrite Hpp.
    change (Trim (TrimSuffix (TrimPrefix ($"*." ++ e) $"/") $"/") $"/")
      with (Trim (TrimSuffix (TrimPrefix ($"*." ++ e) $"/") $"/") $"/").
    unfold strippedPattern in Hsp. rewrite Hpp in Hsp. rewrite Hsp.
    rewrite Hslash, Hmeta, Hcls.
    rewrite !(bool_decide_eq_false_2 ($"*." ++ e = [])) by done.
    cbn. eauto. }
  destruct Hcomp as [cr Hcr]. exists cr. split; [done |].
  destruct (compileRule_strategy rc _ _ _ Hcr) as (Hex & Hgl & Hre & _).
  destruct (compileRule_inr rc _ _ _ Hcr)
    as (_ & _ & _ & _ & _ & Hdir & Hhs & _).
  cbv zeta in Hex, Hgl, Hre, Hdir, Hhs.
  rewrite Hsp in Hex, Hgl, Hre, Hhs. rewrite Hpp in Hdir, Hhs.
  rewrite Hslash in Hhs. cbn [orb] in Hhs.
  change (HasPrefix ($"*." ++ e) $"/") with false in Hhs.
  rewrite Hhs, Hmeta in Hex. rewrite Hhs, Hmeta, Hcls in Hgl, Hre.
  cbn [negb andb] in Hex, Hgl, Hre.
  assert (Hd : dirOnly cr = false).
  { rewrite Hdir. apply not_true_iff_false. intros H.
    change ($"/") with ["/"%char] in H. apply HasSuffix_last in H.
    destruct (Hns "/"%char eq_refl) as [Hn|?]; [|done].
    apply Hn. apply last_Some in H as [l' ->].
    apply elem_of_app. right. by left. }
  split; [done |]. split; [done |]. split; [done |].
  assert (Hm : matches rm cr c isDir
               = matchSimpleWildcard ($"*." ++ e) (pathBase c)).
  { unfold matches. rewrite (bool_decide_eq_false_2 (c = [])) by done.
    rewrite Hhs, Hex, Hgl, Hd.
    rewrite (bool_decide_eq_true_2 ([] = [])) by done.
    cbn [negb text newSegmentPattern].
    rewrite (bool_decide_eq_false_2 ($"*." ++ e = [])) by done. cbn [negb].
    rewrite matchSegmentPattern_new.
    by change (ContainsAny ($"*." ++ e) $"*?") with true. }
  assert (Hlit : Forall (fun x => x <> "*"%char /\ x <> "?"%char) ($"." ++ e)).
  { apply Forall_forall. intros x Hx. split; intros ->.
    - destruct (plainExtension_not_in e "*"%char Hplain eq_refl).
      apply elem_of_cons in Hx as [?|?]; done.
    - destruct (plainExtension_not_in e "?"%char Hplain eq_refl).
      apply elem_of_cons in Hx as [?|?]; done. }
  rewrite Hm. split.
  - intros H. apply matchSimpleWildcard_sound in H. by apply wm_suffix in H.
  - intros Hstar H. apply matchSimpleWildcard_complete; [done |].
    by apply (wm_suffix ($"." ++ e)).
Qed.

End ExtensionRuleProperties.

Lemma extension_rule_matching_witness :
  $"txt" <> [] /\ plainExtension $"txt" = true
  /\ trailingSpace $"txt" = None /\ asciiLower $"txt" = $"txt"
  /\ $"docs/readme.txt" <> []
  /\ exists cr,
       compileRule Sample.reCompile (mkRule $"*.txt" ActionInclude) false
       = inr cr
       /\ matches Sample.reMatchString cr $"docs/readme.txt" false = true.
Proof.
  split; [done |]. split; [reflexivity |]. split; [reflexivity |].
  split; [reflexivity |]. split; [done |].
  destruct (extension_rule_matching Sample.reCompile Sample.reMatchString
              $"txt" false $"docs/readme.txt" false)
    as (cr & Hcr & _ & _ & _ & _ & H);
    [done | reflexivity | reflexivity | reflexivity | done |].
  exists cr. split; [exact Hcr |]. apply H; [|reflexivity].
  vm_compute. intros Hin.
  repeat (apply elem_of_cons in Hin as [Hin|Hin]; [done |]).
  inversion Hin.
Defined.

(** ** Rule sets: merging, loading, parsing *)

Section RuleSetFacts.

Lemma MergeRules_fold (sets : list (list Rule)) (acc : list Rule) :
  fold_left (fun out set => out ++ set) sets acc = acc ++ concat sets.
Proof.
  revert acc. induction sets as [|s sets IH]; intros acc; cbn.
  - by rewrite app_nil_r.
  - by rewrite IH, app_assoc.
Qed.

Lemma MergeRules_concat (sets : list (list Rule)) :
  MergeRules sets = concat sets.
Proof. apply MergeRules_fold. Qed.

Lemma LoadRulesFiles_loop_spec (w : World) (paths : list str) :
  forall out,
    match LoadRulesFiles_loop w paths out with
    | inr rules =>
        exists sets,
          Forall2 (fun path set => LoadRulesFile w path = inr set) paths sets
          /\ rules = out ++ concat sets
    | inl err =>
        exists i path,
          paths !! i = Some path /\ LoadRulesFile w path = inl err
          /\ forall j p, j < i -> paths !! j = Some p ->
               exists set, LoadRulesFile w p = inr set
    end.
Proof.
  induction paths as [|path paths IH]; intros out.
  - cbn. exists []. split; [constructor | by rewrite app_nil_r].
  - cbn [LoadRulesFiles_loop].
    destruct (LoadRulesFile w path) as [err|set] eqn:E.
    + exists 0, path. split; [done |]. split; [done |]. intros j p Hj. lia.
    + specialize (IH (out ++ set)).
      destruct (LoadRulesFiles_loop w paths (out ++ set)) as [err|rules].
      * destruct IH as (i & p & Hi & Hp & Hbefore).
        exists (S i), p. split; [done |]. split; [done |].
        intros [|j] q Hj Hq; [injection Hq as <-; eauto |].
        apply (Hbefore j); [lia | done].
      * destruct IH as (sets & HF & ->).
        exists (set :: sets). split; [by constructor |].
        cbn. by rewrite app_assoc.
Qed.

End RuleSetFacts.

Section LayerFacts.

Context {Regexp : Type}.
Variable rc : str -> option Regexp.
Variable rm : Regexp -> str -> bool.

Lemma compileRules_acc (rules : list Rule) (ci : bool) :
  forall acc,
    compileRules rc rules ci acc
    = match compileRules rc rules ci [] with
      | inl err => inl err
      | inr l => inr (acc ++ l)
      end.
Proof.
  induction rules as [|r rules IH]; intros acc.
  - cbn. by rewrite app_nil_r.
  - cbn [compileRules]. destruct (compileRule rc r ci) as [err|cr]; [done |].
    rewrite (IH (acc ++ [cr])), (IH ([] ++ [cr])).
    destruct (compileRules rc rules ci []) as [err|l]; [done |].
    by rewrite <- app_assoc.
Qed.

Lemma compileRules_app (a b : list Rule) (ci : bool) :
  forall acc,
    compileRules rc (a ++ b) ci acc
    = match compileRules rc a ci acc with
      | inl err => inl err
      | inr l => compileRules rc b ci l
      end.
Proof.
  induction a as [|r a IH]; intros acc; [done |].
  cbn [app compileRules]. by destruct (compileRule rc r ci).
Qed.

Lemma decideLoop_app (l1 l2 : list (compiledRule Regexp)) (c : str)
    (d : bool) :
  forall i res,
    decideLoop rm (l1 ++ l2) i c d res
    = decideLoop rm l2 (i + Z.of_nat (length l1)) c d
        (decideLoop rm l1 i c d res).
Proof.
  induction l1 as [|r l1 IH]; intros i res.
  - cbn. by rewrite Z.add_0_r.
  - cbn [app decideLoop length]. rewrite !IH.
    replace (i + 1 + Z.of_nat (length l1))%Z
      with (i + Z.of_nat (S (length l1)))%Z by lia.
    by destruct (negb (matches rm r c d)).
Qed.

(** The loop from index [i] on a running result against the loop from
    index [j] on a result that stands for "nothing matched so far". *)
Lemma decideLoop_shift (l : list (compiledRule Regexp)) (c : str) (d : bool)
    (delta : Z) :
  forall i j res res',
    (i = j + delta)%Z ->
    (Matched res' = true ->
     res = mkMatchResult (Included res') true (RuleIndex res' + delta)) ->
    decideLoop rm l i c d res
    = let r0 := decideLoop rm l j c d res' in
      if Matched r0
      then mkMatchResult (Included r0) true (RuleIndex r0 + delta)
      else res.
Proof.
  induction l as [|r l IH]; intros i j res res' Hij HR.
  - cbn. destruct (Matched res') eqn:E; [by apply HR | done].
  - cbn [decideLoop]. destruct (negb (matches rm r c d)).
    + apply IH; [lia | done].
    + rewrite (IH (i + 1)%Z (j + 1)%Z _
                 (mkMatchResult
                    (N.eqb (RAction (source r)) ActionInclude) true j));
        [| lia | intros _; cbn; by rewrite Hij].
      cbv zeta.
      destruct (decideLoop_spec rm l (j + 1) c d
                  (mkMatchResult
                     (N.eqb (RAction (source r)) ActionInclude) true j))
        as [(k & r' & _ & _ & _ & ->)|[_ ->]]; cbn; done.
Qed.

End LayerFacts.

Section RuleSetProperties.

Context {Regexp : Type}.
Variable rc : str -> option Regexp.
Variable rm : Regexp -> str -> bool.

(** X[merge]. [MergeRules] concatenates the rule sets in order, and a
    matcher over two merged sets layers them: where the second set has a
    matching rule its decision wins, with the rule index counted on from
    the first set; elsewhere the decision is that of the first set
    alone. *)
Theorem MergeRules_layers (rules1 rules2 : list Rule) (opts : MatcherOptions)
    (m1 m2 : Matcher Regexp) :
  NewMatcher rc rules1 opts = inr m1 ->
  NewMatcher rc rules2 opts = inr m2 ->
  (forall sets, MergeRules sets = concat sets)
  /\ MergeRules [rules1; rules2] = rules1 ++ rules2
  /\ exists m,
       NewMatcher rc (MergeRules [rules1; rules2]) opts = inr m
       /\ forall path isDir,
            Decide rm m path isDir
            = let upper := Decide rm m2 path isDir in
              if Matched upper
              then mkMatchResult (Included upper) true
                     (RuleIndex upper + Z.of_nat (length rules1))
              else Decide rm m1 path isDir.
Proof.
  intros H1 H2. split; [apply MergeRules_concat |].
  assert (Hm : MergeRules [rules1; rules2] = rules1 ++ rules2) by done.
  split; [done |]. rewrite Hm.
  unfold NewMatcher in *. cbv zeta in *.
  rewrite compileRules_app.
  destruct (compileRules rc rules1 (CaseInsensitive (applyDefaults opts)) [])
    as [e1|l1] eqn:E1; [done |].
  rewrite compileRules_acc.
  destruct (compileRules rc rules2 (CaseInsensitive (applyDefaults opts)) [])
    as [e2|l2] eqn:E2; [done |].
  injection H1 as <-. injection H2 as <-.
  eexists. split; [done |]. intros path isDir.
  unfold Decide. cbn [compiled defaultAction caseInsensitive].
  rewrite decideLoop_app.
  apply compileRules_inr in E1 as (l1' & -> & HF). cbn [app].
  apply Forall2_length in HF. rewrite HF.
  apply decideLoop_shift; [lia | done].
Qed.

(** X[loadfiles]. [LoadRulesFiles] returns the merged rules of the files
    in the given order when every file loads, and otherwise the error of
    the first file that does not; a file that cannot be read is an I/O
    error, a file that can gives what [ParseRules] gives for its
    content. *)
Theorem LoadRulesFiles_merged (w : World) (paths : list str) :
  match LoadRulesFiles w paths with
  | inr rules =>
      exists sets,
        Forall2 (fun path set => LoadRulesFile w path = inr set) paths sets
        /\ rules = MergeRules sets
  | inl err =>
      exists i path,
        paths !! i = Some path /\ LoadRulesFile w path = inl err
        /\ forall j p, j < i -> paths !! j = Some p ->
             exists set, LoadRulesFile w p = inr set
  end
  /\ (forall path content,
        os_ReadFile w path = inr content ->
        LoadRulesFile w path = ParseRulesString content)
  /\ (forall path e,
        os_ReadFile w path = inl e -> LoadRulesFile w path = inl ErrIO).
Proof.
  split; [|split].
  - unfold LoadRulesFiles.
    pose proof (LoadRulesFiles_loop_spec w paths []) as H.
    destruct (LoadRulesFiles_loop w paths []) as [err|rules]; [done |].
    destruct H as (sets & HF & ->). exists sets.
    by rewrite MergeRules_concat.
  - intros path content H. unfold LoadRulesFile. by rewrite H.
  - intros path e H. unfold LoadRulesFile. by rewrite H.
Qed.

End RuleSetProperties.

Lemma MergeRules_layers_witness :
  NewMatcher Sample.reCompile [mkRule $"*.tmp" ActionExclude]
    Sample.matcherOptions
  = inr (mkMatcher [Cases.tmpCompiled] ActionInclude false)
  /\ NewMatcher Sample.reCompile Sample.rules Sample.matcherOptions
     = inr Sample.matcher
  /\ exists m,
       NewMatcher Sample.reCompile
         (MergeRules [[mkRule $"*.tmp" ActionExclude]; Sample.rules])
         Sample.matcherOptions = inr m
       /\ Decide Sample.reMatchString m $"keep.tmp" false
          = mkMatchResult true true 3.
Proof.
  split; [reflexivity |]. split; [reflexivity |].
  destruct (MergeRules_layers Sample.reCompile Sample.reMatchString
              [mkRule $"*.tmp" ActionExclude] Sample.rules
              Sample.matcherOptions
              (mkMatcher [Cases.tmpCompiled] ActionInclude false)
              Sample.matcher eq_refl eq_refl) as (_ & _ & m & Hm & Hd).
  exists m. split; [exact Hm |]. rewrite Hd. reflexivity.
Defined.

Section ParsedRuleProperties.

Context {Regexp : Type}.
Variable rc : str -> option Regexp.

Lemma parseLine_Some (text : str) (r : Rule) :
  parseLine text = Some r ->
  Action_valid (RAction r) = true /\ Pattern r <> [].
Proof.
  unfold parseLine. cbv zeta.
  repeat match goal with
         | |- context [if ?b then _ else _] => destruct b eqn:?
         end; try discriminate; intros [= <-]; cbn [RAction Pattern];
    (split; [done |]);
    match goal with
    | H : bool_decide (_ = []) = false |- _ <> [] =>
        by apply bool_decide_eq_false in H
    end.
Qed.

Lemma compileRule_error (rule : Rule) (ci : bool) (err : error) :
  compileRule rc rule ci = inl err ->
  (err = ErrInvalidRule /\ Action_valid (RAction rule) = false)
  \/ (err = ErrInvalidPattern /\ Action_valid (RAction rule) = true).
Proof.
  unfold compileRule. destruct (Action_valid (RAction rule)); cbn [negb];
    [|intros [= <-]; by left].
  cbv zeta. intros H. right. split; [|done].
  repeat match type of H with
         | (if ?b then _ else _) = _ => destruct b
         | match ?x with _ => _ end = _ => destruct x
         end; congruence.
Qed.

(** X[parsed]. Every rule [ParseRules] returns has a valid action and a
    pattern that is not empty, so compiling parsed rules never fails
    with [ErrInvalidRule]: a rule file can only be rejected for a line
    that is too long or for a pattern that does not compile. *)
Theorem ParseRules_rules_compile (src : str) :
  match ParseRules src with
  | inr rules =>
      Forall (fun r => Action_valid (RAction r) = true /\ Pattern r <> [])
        rules
      /\ forall opts err,
           NewMatcher rc rules opts = inl err -> err = ErrInvalidPattern
  | inl err =>
      err = ErrTooLong /\ exists line, line ∈ rawLines src
                                       /\ tooLong line = true
  end
  /\ forall (p : Provider Regexp) err,
       parseAndCompile rc p src = inl err ->
       err = ErrTooLong \/ err = ErrInvalidPattern.
Proof.
  assert (Hparsed : forall rules, ParseRules src = inr rules ->
            Forall (fun r => Action_valid (RAction r) = true
                             /\ Pattern r <> []) rules).
  { unfold ParseRules. cbv zeta. destruct (existsb tooLong (rawLines src));
      [done |]. intros rules [= <-].
    induction (rawLines src) as [|l ls IH]; [constructor |].
    cbn [omap list_omap].
    destruct (parseLine (dropCR l)) as [r|] eqn:E; [|done].
    constructor; [by eapply parseLine_Some | done]. }
  assert (Hcompile : forall rules opts err,
            Forall (fun r => Action_valid (RAction r) = true
                             /\ Pattern r <> []) rules ->
            NewMatcher rc rules opts = inl err -> err = ErrInvalidPattern).
  { intros rules opts err HF. unfold NewMatcher. cbv zeta.
    destruct (compileRules rc rules _ []) as [e|l] eqn:E; [|done].
    intros [= ->]. apply compileRules_inl in E as (i & rule & Hi & He & _).
    apply compileRule_error in He as [[_ Hv]|[-> _]]; [|done].
    rewrite Forall_forall in HF.
    destruct (HF rule) as [Hv' _]; [by eapply list_elem_of_lookup_2 |].
    congruence. }
  assert (Hlong : forall err, ParseRules src = inl err ->
            err = ErrTooLong /\ exists line, line ∈ rawLines src
                                             /\ tooLong line = true).
  { unfold ParseRules. cbv zeta.
    destruct (existsb tooLong (rawLines src)) eqn:E; [|done].
    intros err [= <-]. split; [done |].
    apply existsb_exists in E as (line & Hin & Hl). exists line.
    split; [by apply list_elem_of_In | done]. }
  split.
  - destruct (ParseRules src) as [err|rules] eqn:E; [by apply Hlong |].
    split; [by apply Hparsed |]. intros opts err.
    apply Hcompile. by apply Hparsed.
  - intros p err. unfold parseAndCompile.
    destruct (ParseRules src) as [e|rules] eqn:E.
    + intros [= <-]. left. by apply Hlong.
    + destruct (NewMatcher rc rules (matcherOptions p)) as [e|m] eqn:En;
        [|done].
      intros [= <-]. right. eapply Hcompile; [|exact En]. by apply Hparsed.
Qed.

End ParsedRuleProperties.

(** ** Separators, case and the provider's path cleaning *)

Section BackslashFacts.

Local Abbreviation R := (map (replaceByte "\"%char "/"%char)).

Lemma noSeparators_cons (k : ascii) (p : str) :
  noSeparators (k :: p) = true ->
  k <> "\"%char /\ k <> "/"%char /\ noSeparators p = true.
Proof.
  intros H. apply andb_true_iff in H as [H Hp].
  apply andb_true_iff in H as [H1 H2].
  apply negb_true_iff, eqb_false in H1. apply negb_true_iff, eqb_false in H2.
  done.
Qed.

Lemma replaceByte_eqb (c k : ascii) :
  k <> "\"%char -> k <> "/"%char ->
  Ascii.eqb (replaceByte "\" "/" c) k = Ascii.eqb c k.
Proof.
  intros H1 H2. unfold replaceByte.
  destruct (Ascii.eqb c "\") eqn:E; [|done].
  apply eqb_true in E as ->.
  transitivity false; [|symmetry]; apply eqb_false; congruence.
Qed.

Lemma R_HasPrefix (s p : str) :
  noSeparators p = true -> HasPrefix (R s) p = HasPrefix s p.
Proof.
  revert s. induction p as [|k p IH]; intros s Hp; [done |].
  apply noSeparators_cons in Hp as (H1 & H2 & Hp).
  destruct s as [|c s]; [done |]. cbn [map HasPrefix].
  by rewrite replaceByte_eqb, IH.
Qed.

Lemma R_eq (s p : str) : noSeparators p = true -> R s = p <-> s = p.
Proof.
  revert s. induction p as [|k p IH]; intros s Hp.
  - destruct s; done.
  - apply noSeparators_cons in Hp as (H1 & H2 & Hp).
    destruct s as [|c s]; [done |]. cbn [map]. split.
    + intros [= Hc Hs]. apply (proj1 (IH s Hp)) in Hs. rewrite Hs.
      assert (c = k) as ->; [|done].
      apply eqb_true. rewrite <- replaceByte_eqb by done. by apply eqb_true.
    + intros [= -> ->]. f_equal.
      * unfold replaceByte.
        by replace (Ascii.eqb k "\") with false
          by (symmetry; by apply eqb_false).
      * by apply (proj2 (IH p Hp)).
Qed.

Lemma R_HasSuffix (s p : str) :
  noSeparators p = true -> HasSuffix (R s) p = HasSuffix s p.
Proof.
  intros Hp. unfold HasSuffix. rewrite length_map. f_equal.
  rewrite skipn_map. apply bool_decide_ext. by apply R_eq.
Qed.

Lemma spaceRunes_noSeparators :
  Forall (fun e => noSeparators e = true) spaceRunes.
Proof. repeat constructor. Qed.

Lemma R_leadingSpace (s : str) : leadingSpace (R s) = leadingSpace s.
Proof.
  unfold leadingSpace. f_equal. apply find_ext_Forall.
  eapply Forall_impl; [apply spaceRunes_noSeparators |].
  intros e He. by apply R_HasPrefix.
Qed.

Lemma R_trailingSpace (s : str) : trailingSpace (R s) = trailingSpace s.
Proof.
  unfold trailingSpace. f_equal. apply find_ext_Forall.
  eapply Forall_impl; [apply spaceRunes_noSeparators |].
  intros e He. by apply R_HasSuffix.
Qed.

Lemma R_trimLeftSpace (fuel : nat) (s : str) :
  trimLeftSpace fuel (R s) = R (trimLeftSpace fuel s).
Proof.
  revert s. induction fuel as [|fuel IH]; intros s; [done |].
  cbn [trimLeftSpace]. rewrite R_leadingSpace.
  destruct (leadingSpace s) as [n|]; [|done]. by rewrite skipn_map, IH.
Qed.

Lemma R_trimRightSpace (fuel : nat) (s : str) :
  trimRightSpace fuel (R s) = R (trimRightSpace fuel s).
Proof.
  revert s. induction fuel as [|fuel IH]; intros s; [done |].
  cbn [trimRightSpace]. rewrite R_trailingSpace, length_map.
  destruct (trailingSpace s) as [n|]; [|done]. by rewrite firstn_map, IH.
Qed.

Lemma R_TrimSpace (s : str) : TrimSpace (R s) = R (TrimSpace s).
Proof.
  unfold TrimSpace. rewrite length_map, R_trimLeftSpace, length_map.
  apply R_trimRightSpace.
Qed.

Lemma R_no_backslash (s : str) : "\"%char ∉ R s.
Proof.
  intros H. apply list_elem_of_fmap in H as (c & Hc & _).
  unfold replaceByte in Hc. destruct (Ascii.eqb c "\") eqn:E; [done |].
  apply eqb_false in E. congruence.
Qed.

Lemma R_idemp (s : str) : R (R s) = R s.
Proof. apply map_replaceByte_id, R_no_backslash. Qed.

(** After the white space is trimmed, [normalizePath] goes on with the
    string in which every backslash is a slash. *)
Lemma normalizePath_separators (s : str) :
  (if Contains (TrimSpace s) $"\"
   then ReplaceAll (TrimSpace s) $"\" $"/" else TrimSpace s)
  = R (TrimSpace s).
Proof.
  change ($"\") with ["\"%char]. change ($"/") with ["/"%char].
  destruct (Contains (TrimSpace s) ["\"%char]) eqn:E.
  - apply ReplaceAll_byte.
  - symmetry. apply map_replaceByte_id. intros H.
    apply Contains_byte in H. congruence.
Qed.

Lemma normalizePath_backslash (s : str) :
  normalizePath (R s) = normalizePath s.
Proof.
  unfold normalizePath. cbv zeta.
  rewrite (normalizePath_separators s), (normalizePath_separators (R s)).
  by rewrite R_TrimSpace, R_idemp.
Qed.

End BackslashFacts.

Section SeparatorProperties.

Context {Regexp : Type}.
Variable rm : Regexp -> str -> bool.

(** X[backslash]. A backslash in a candidate is a slash: [normalizePath]
    gives the same result for a path and for that path with every
    backslash replaced by a slash, so [Decide] decides both alike. *)
Theorem backslash_is_slash (path : str) :
  normalizePath (map (replaceByte "\"%char "/"%char) path)
  = normalizePath path
  /\ forall (m : Matcher Regexp) (isDir : bool),
       Decide rm m (map (replaceByte "\"%char "/"%char) path) isDir
       = Decide rm m path isDir.
Proof.
  split; [apply normalizePath_backslash |].
  intros m isDir. unfold Decide. by rewrite normalizePath_backslash.
Qed.

(** X[lower]. [asciiLower] keeps the length, leaves no byte [A-Z],
    returns a string without such bytes unchanged, is idempotent and
    commutes with [normalizePath]: lowering before or after the
    normalization gives the same candidate. *)
Theorem asciiLower_folds (s : str) :
  length (asciiLower s) = length s
  /\ Forall (fun c => isUpper c = false) (asciiLower s)
  /\ (Forall (fun c => isUpper c = false) s -> asciiLower s = s)
  /\ asciiLower (asciiLower s) = asciiLower s
  /\ normalizePath (asciiLower s) = asciiLower (normalizePath s).
Proof.
  split; [by rewrite asciiLower_map, length_map |].
  split.
  { rewrite asciiLower_map. apply Forall_fmap, Forall_forall. intros c _.
    cbn. destruct (lowerByte_cases c) as [[Hu ->]|(_ & Hl & _)]; [done |].
    destruct (isUpper (lowerByte c)) eqn:E; [|done].
    apply isUpper_not_lower in E. congruence. }
  split.
  { intros H. rewrite asciiLower_map.
    induction H as [|c t Hc _ IH]; [done |]. cbn. rewrite IH.
    unfold lowerByte. by rewrite Hc. }
  split; [apply asciiLower_idemp |].
  rewrite !asciiLower_map. apply lower_normalizePath.
Qed.

End SeparatorProperties.

(** ** What the provider's cleaning functions return *)

Section CleanFacts.

Lemma joinSlash_app (l1 l2 : list str) :
  l1 <> [] -> l2 <> [] ->
  joinSlash (l1 ++ l2) = joinSlash l1 ++ "/"%char :: joinSlash l2.
Proof.
  intros H1 H2. induction l1 as [|e l1 IH]; [done |].
  destruct l1 as [|e' l1].
  - cbn [app]. by rewrite joinSlash_cons.
  - cbn [app]. rewrite (joinSlash_cons e) by done.
    rewrite (joinSlash_cons e (e' :: l1)) by done.
    rewrite <- app_assoc. cbn [app]. f_equal. f_equal. by apply IH.
Qed.

(** Where an element sits in its string. *)
Lemma splitSlash_elem_cases (s e : str) :
  e ∈ splitSlash s ->
  s = e
  \/ (exists t, s = e ++ "/"%char :: t)
  \/ (exists pre post, s = pre ++ "/"%char :: e ++ "/"%char :: post)
  \/ (exists pre, s = pre ++ "/"%char :: e).
Proof.
  intros H. apply list_elem_of_split in H as (l1 & l2 & Hs).
  rewrite <- (joinSlash_split s), Hs.
  destruct l1 as [|a l1], l2 as [|b l2].
  - by left.
  - right. left. exists (joinSlash (b :: l2)). cbn [app].
    by rewrite joinSlash_cons.
  - right. right. right. exists (joinSlash (a :: l1)).
    by rewrite joinSlash_app.
  - right. right. left. exists (joinSlash (a :: l1)), (joinSlash (b :: l2)).
    rewrite joinSlash_app by done. by rewrite (joinSlash_cons e) by done.
Qed.

Lemma isSimpleNormalizedPath_false_iff (s : str) :
  isSimpleNormalizedPath s = true
  <-> s <> [] /\ s <> $"." /\ s <> $".."
      /\ HasPrefix s $"/" = false /\ HasSuffix s $"/" = false
      /\ HasPrefix s $"./" = false /\ HasPrefix s $"../" = false
      /\ Contains s $"//" = false /\ Contains s $"/./" = false
      /\ Contains s $"/../" = false /\ HasSuffix s $"/.." = false.
Proof.
  unfold isSimpleNormalizedPath.
  destruct (bool_decide_reflect (s = [])) as [->|H1];
    [split; [done | by intros (? & _)] |].
  destruct (bool_decide_reflect (s = $".")) as [->|H2];
    [split; [done | by intros (_ & ? & _)] |].
  destruct (bool_decide_reflect (s = $"..")) as [->|H3];
    [split; [done | by intros (_ & _ & ? & _)] |].
  cbn [orb].
  destruct (HasPrefix s $"/"), (HasSuffix s $"/"), (HasPrefix s $"./"),
    (HasPrefix s $"../"), (Contains s $"//"), (Contains s $"/./"),
    (Contains s $"/../"), (HasSuffix s $"/.."); cbn;
    (split; [try done | try by intros (_ & _ & _ & ? & ? & ? & ? & ? & ? & ? & ?)]).
Qed.

(** The elements of a path that passes the fast-path test: none is
    empty, none is [..]. *)
Lemma isSimpleNormalizedPath_elems (s : str) :
  isSimpleNormalizedPath s = true ->
  Forall (fun e => e <> [] /\ e <> $"..") (splitSlash s).
Proof.
  intros H. apply isSimpleNormalizedPath_false_iff in H
    as (H1 & H2 & H3 & H4 & H5 & H6 & H7 & H8 & H9 & H10 & H11).
  apply Forall_forall. intros e He.
  apply splitSlash_elem_cases in He
    as [->|[[t ->]|[(pre & post & ->)|[pre ->]]]].
  - done.
  - split; intros ->.
    + by cbn in H4.
    + by cbn in H7.
  - split; intros ->.
    + assert (Contains (pre ++ "/"%char :: [] ++ "/"%char :: post) $"//" = true);
        [|congruence].
      apply Contains_spec. by exists pre, post.
    + assert (Contains (pre ++ "/"%char :: $".." ++ "/"%char :: post) $"/../"
              = true); [|congruence].
      apply Contains_spec. by exists pre, post.
  - split; intros ->.
    + assert (HasSuffix (pre ++ "/"%char :: []) $"/" = true)
        by apply (HasSuffix_app pre ["/"%char]).
      congruence.
    + assert (HasSuffix (pre ++ "/"%char :: $"..") $"/.." = true)
        by apply (HasSuffix_app pre $"/..").
      congruence.
Qed.

Lemma Contains_cons_false (c : ascii) (t sub : str) :
  Contains (c :: t) sub = false ->
  HasPrefix (c :: t) sub = false /\ Contains t sub = false.
Proof.
  unfold Contains. cbn [Index].
  destruct (HasPrefix (c :: t) sub); [done |].
  by destruct (Index t sub).
Qed.

Lemma replaceAll_loop_absent (old new : str) :
  forall fuel s,
    Contains s old = false -> replaceAll_loop fuel s old new = s.
Proof.
  induction fuel as [|fuel IH]; intros s H; [done |].
  destruct s as [|c t]; [done |]. cbn [replaceAll_loop].
  apply Contains_cons_false in H as [-> H]. by rewrite IH.
Qed.

Lemma ReplaceAll_absent (s old new : str) :
  Contains s old = false -> ReplaceAll s old new = s.
Proof. apply replaceAll_loop_absent. Qed.

Lemma cleanRelPath_inr (raw c : str) :
  cleanRelPath raw = inr c ->
  isSimpleNormalizedPath c = true /\ "\"%char ∉ c.
Proof.
  unfold cleanRelPath. intros Hc.
  repeat match type of Hc with
         | (if ?b then _ else _) = _ => destruct b eqn:?
         end; try discriminate.
  injection Hc as <-.
  match goal with
  | H : bool_decide (normalizePath ?x = []) = false |- _ =>
      apply bool_decide_eq_false in H;
      destruct (normalizePath_simple_or_empty x) as [?|?]; [done |];
      split; [done | apply normalizePath_no_backslash]
  end.
Qed.

Lemma cleanRelPath_fixed (c : str) :
  isSimpleNormalizedPath c = true -> TrimSpace c = c -> "\"%char ∉ c ->
  cleanRelPath c = inr c.
Proof.
  intros Hs Hts Hb.
  pose proof (normalizePath_fixed c Hs Hts Hb) as Hn.
  apply isSimpleNormalizedPath_false_iff in Hs
    as (H1 & H2 & H3 & H4 & H5 & H6 & H7 & H8 & H9 & H10 & H11).
  unfold cleanRelPath, filepath_IsAbs, filepath_ToSlash. cbv zeta.
  rewrite Hts. rewrite (bool_decide_eq_false_2 (c = [])) by done.
  rewrite H4. rewrite (TrimPrefix_none c $"./") by done.
  rewrite (TrimPrefix_none c $"/") by done.
  rewrite (bool_decide_eq_false_2 (c = [])) by done.
  rewrite (bool_decide_eq_false_2 (c = $".")) by done.
  rewrite (bool_decide_eq_false_2 (c = $"..")) by done.
  rewrite H7. cbn [orb].
  rewrite (ReplaceAll_absent c) by done.
  unfold CutPrefix. rewrite H6. cbn [fst].
  rewrite H10, H11. cbn [orb]. rewrite Hn.
  by rewrite (bool_decide_eq_false_2 (c = [])) by done.
Qed.

End CleanFacts.

(** X[cleanpath]. A path [cleanRelPath] accepts comes back as a path
    that passes the fast-path test and holds no backslash; none of its
    slash-separated elements is empty or [..], so it is relative and
    never steps out of the root.  The only error is
    [ErrPathOutsideRoot]. *)
Theorem cleanRelPath_stays_inside (raw : str) :
  match cleanRelPath raw with
  | inr c =>
      isSimpleNormalizedPath c = true
      /\ ("\"%char ∉ c)
      /\ Forall (fun e => e <> [] /\ e <> $"..") (splitSlash c)
  | inl err => err = ErrPathOutsideRoot
  end.
Proof.
  destruct (cleanRelPath raw) as [err|c] eqn:E.
  - by eapply cleanRelPath_error.
  - apply cleanRelPath_inr in E as [Hs Hb].
    split; [done |]. split; [done |]. by apply isSimpleNormalizedPath_elems.
Qed.

(** X[cleanfixed]. [cleanRelPath] accepts every path that is already
    clean and returns it unchanged: a path that passes the fast-path
    test, has no white space at its ends and holds no backslash. *)
Theorem cleanRelPath_accepts_clean (c : str) :
  isSimpleNormalizedPath c = true -> TrimSpace c = c -> "\"%char ∉ c ->
  cleanRelPath c = inr c.
Proof. apply cleanRelPath_fixed. Qed.

Lemma cleanRelPath_accepts_clean_witness :
  isSimpleNormalizedPath $"src/lib/a.c" = true
  /\ TrimSpace $"src/lib/a.c" = $"src/lib/a.c"
  /\ cleanRelPath $"src/lib/a.c" = inr $"src/lib/a.c".
Proof.
  split; [reflexivity |]. split; [reflexivity |].
  apply cleanRelPath_accepts_clean; [reflexivity | reflexivity |].
  intros H. repeat (apply elem_of_cons in H as [H|H]; [done |]). inversion H.
Defined.


Section NameFacts.

Lemma plain_name_simple (n : str) :
  n <> [] -> n <> $"." -> n <> $".." -> "/"%char ∉ n ->
  isSimpleNormalizedPath n = true.
Proof.
  intros H1 H2 H3 H4. apply isSimpleNormalizedPath_kept.
  rewrite splitSlash_plain by done. by repeat constructor.
Qed.

Lemma cleanEntryName_error (raw : str) (err : error) :
  cleanEntryName raw = inl err -> err = ErrInvalidEntryName.
Proof.
  unfold cleanEntryName. cbv zeta. intros H.
  repeat match type of H with
         | (if ?b then _ else _) = _ => destruct b
         end; congruence.
Qed.

Lemma cleanEntryName_out (raw n : str) :
  cleanEntryName raw = inr n ->
  n <> [] /\ n <> $"." /\ n <> $".." /\ ("/"%char ∉ n) /\ ("\"%char ∉ n)
  /\ splitSlash n = [n].
Proof.
  intros H. pose proof (cleanEntryName_inr raw n H) as [Hne Hns].
  unfold cleanEntryName in H. cbv zeta in H.
  repeat match type of H with
         | (if ?b then _ else _) = _ => destruct b eqn:?
         end; try discriminate.
  injection H as <-.
  repeat match goal with
         | Hx : _ || _ = false |- _ => apply orb_false_iff in Hx as [Hx ?]
         end.
  repeat match goal with
         | Hx : bool_decide _ = false |- _ => apply bool_decide_eq_false in Hx
         end.
  split; [done |]. split; [done |]. split; [done |]. split; [done |].
  split; [apply normalizePath_no_backslash | by apply splitSlash_plain].
Qed.

Lemma cleanEntryName_fixed (n : str) :
  n <> [] -> n <> $"." -> n <> $".." -> "/"%char ∉ n -> "\"%char ∉ n ->
  TrimSpace n = n ->
  cleanEntryName n = inr n.
Proof.
  intros H1 H2 H3 H4 H5 Hts.
  assert (Hc : Contains n $"/" = false).
  { apply not_true_iff_false. intros H. change ($"/") with ["/"%char] in H.
    by apply Contains_byte in H. }
  assert (Habs : HasPrefix n $"/" = false).
  { apply not_true_iff_false. intros H. apply HasPrefix_spec in H as [t ->].
    apply H4. by left. }
  unfold cleanEntryName, filepath_IsAbs, filepath_ToSlash. cbv zeta.
  rewrite Hts. rewrite (bool_decide_eq_false_2 (n = [])) by done.
  rewrite Habs, Hc.
  rewrite (normalizePath_fixed n) by (by try apply plain_name_simple).
  rewrite Hc.
  rewrite (bool_decide_eq_false_2 (n = [])) by done.
  rewrite (bool_decide_eq_false_2 (n = $".")) by done.
  by rewrite (bool_decide_eq_false_2 (n = $"..")) by done.
Qed.

Lemma cleanRulesFileName_spec (raw : str) :
  cleanRulesFileName raw
  = let name := if bool_decide (TrimSpace raw = []) then defaultRulesFileName
                else TrimSpace raw in
    if Contains name $"/" || bool_decide (name = $".")
       || bool_decide (name = $"..")
    then inl ErrInvalidRulesFileName else inr name.
Proof.
  unfold cleanRulesFileName, filepath_IsAbs, filepath_ToSlash. cbv zeta.
  set (name := if bool_decide (TrimSpace raw = []) then defaultRulesFileName
               else TrimSpace raw).
  destruct (HasPrefix name $"/") eqn:E; [|done].
  apply HasPrefix_spec in E as [t Ht].
  replace (Contains name $"/") with true; [done |].
  symmetry. apply Contains_spec. exists [], t. by rewrite Ht.
Qed.

Lemma cleanRulesFileName_out (raw name : str) :
  cleanRulesFileName raw = inr name ->
  name <> [] /\ name <> $"." /\ name <> $".." /\ ("/"%char ∉ name)
  /\ TrimSpace name = name
  /\ name = (if bool_decide (TrimSpace raw = []) then defaultRulesFileName
             else TrimSpace raw).
Proof.
  rewrite cleanRulesFileName_spec. cbv zeta.
  set (n := if bool_decide (TrimSpace raw = []) then defaultRulesFileName
            else TrimSpace raw).
  destruct (Contains n $"/") eqn:Hc; [done |]. cbn [orb].
  case_bool_decide as H1; [done |]. case_bool_decide as H2; [done |].
  cbn [orb]. intros [= <-].
  assert (Hne : n <> []).
  { unfold n. case_bool_decide; [done | done]. }
  assert (Hts : TrimSpace n = n).
  { unfold n. case_bool_decide; [reflexivity | apply TrimSpace_idemp]. }
  split; [done |]. split; [done |]. split; [done |].
  split; [|done].
  intros H. apply (Contains_byte n "/"%char) in H.
  change (["/"%char]) with ($"/") in H. congruence.
Qed.

End NameFacts.

(** X[entryname]. An entry name [cleanEntryName] accepts comes back as a
    single path element: not empty, not [.] or [..], without slash or
    backslash.  Every name of that kind without white space at its ends
    is accepted unchanged, and the only error is [ErrInvalidEntryName]. *)
Theorem cleanEntryName_single_element (raw : str) :
  match cleanEntryName raw with
  | inr n =>
      n <> [] /\ n <> $"." /\ n <> $".." /\ ("/"%char ∉ n)
      /\ ("\"%char ∉ n) /\ splitSlash n = [n]
  | inl err => err = ErrInvalidEntryName
  end
  /\ (raw <> [] -> raw <> $"." -> raw <> $".." ->
      "/"%char ∉ raw -> "\"%char ∉ raw -> TrimSpace raw = raw ->
      cleanEntryName raw = inr raw).
Proof.
  split; [|apply cleanEntryName_fixed].
  destruct (cleanEntryName raw) as [err|n] eqn:E.
  - by eapply cleanEntryName_error.
  - by eapply cleanEntryName_out.
Qed.

(** X[rulesname]. [cleanRulesFileName] trims the name and puts
    [.pathrules] for an empty one; it rejects, with
    [ErrInvalidRulesFileName], exactly the names that hold a slash or
    are [.] or [..].  An accepted name is a single element, so the rule
    file of a directory is looked for in that directory. *)
Theorem cleanRulesFileName_accepts (raw : str) :
  let name := if bool_decide (TrimSpace raw = []) then defaultRulesFileName
              else TrimSpace raw in
  cleanRulesFileName raw
  = (if Contains name $"/" || bool_decide (name = $".")
        || bool_decide (name = $"..")
     then inl ErrInvalidRulesFileName else inr name)
  /\ (forall accepted, cleanRulesFileName raw = inr accepted ->
        accepted = name /\ accepted <> [] /\ ("/"%char ∉ accepted)
        /\ splitSlash accepted = [accepted]).
Proof.
  intros name. split; [apply cleanRulesFileName_spec |].
  intros accepted H.
  apply cleanRulesFileName_out in H as (H1 & _ & _ & H4 & _ & H6).
  split; [done |]. split; [done |]. split; [done |]. by apply splitSlash_plain.
Qed.

(** X[reldir]. [cleanRelDir] takes the empty string and [.] (with white
    space around them) for the root directory, and treats every other
    directory as [cleanRelPath] treats a path; since [cleanRelPath]
    never returns the empty path, the root is returned for these two
    spellings only. *)
Theorem cleanRelDir_root (raw : str) :
  cleanRelDir raw
  = (if bool_decide (TrimSpace raw = []) || bool_decide (TrimSpace raw = $".")
     then inr [] else cleanRelPath raw)
  /\ (cleanRelDir raw = inr []
      <-> TrimSpace raw = [] \/ TrimSpace raw = $".").
Proof.
  assert (Heq : cleanRelPath (TrimSpace raw) = cleanRelPath raw).
  { unfold cleanRelPath. cbv zeta. by rewrite TrimSpace_idemp. }
  assert (H : cleanRelDir raw
              = (if bool_decide (TrimSpace raw = [])
                    || bool_decide (TrimSpace raw = $".")
                 then inr [] else cleanRelPath raw)).
  { unfold cleanRelDir. cbv zeta. by rewrite Heq. }
  split; [done |]. rewrite H.
  destruct (bool_decide_reflect (TrimSpace raw = [])) as [H1|H1];
    [by split; [left |] |].
  destruct (bool_decide_reflect (TrimSpace raw = $".")) as [H2|H2];
    [by split; [right |] |].
  cbn [orb]. split; [|by intros [?|?]].
  intros Hc. by apply cleanRelPath_nonempty in Hc.
Qed.
